(** * goevent: an in-process event dispatcher (dispatcher.go)

    The dispatcher keeps, per event name, the registered listeners, the set of
    pause channels ([pchans]) and the slice of quit channels ([qchans]) of the
    goroutines it has launched, together with one [paused] flag and a mutex.

    The embedding is an interleaving semantics, at two grains.

    At the coarser grain a step is a statement, or a call of a method that
    never blocks in the middle:
    - the methods [Listener], [ListenerFunc], [Dispatch], [Pause] and
      [Resume] are functions on the world; [Dispatch] is partial, as its
      caller is held at [d.mu.Lock()] while the mutex is taken;
    - [executeListener], which runs in its own goroutine, is a step function
      on the goroutine's program point;
    - [Wait], which blocks on the quit channels while it holds the mutex, is
      an entry function and a step function on the frame of its range loop.

    At the finer grain (the methods step by step, below) [Dispatch] and
    [Resume] are taken apart into their entry, the iterations of their loops
    and their return, with the goroutines and the other callers moving in
    between and any number of calls of [Resume] under way at once; and a
    goroutine that has read d.paused as true is not yet a receiver on its
    pause channel.  The functions of the coarser grain are runs of these
    steps with nothing in between.

    Channels are unbuffered: a send and a receive happen together, as one
    step.  Memory is sequentially consistent and an operation on a map or a
    slice is one step.  The code reads and writes its maps without the mutex
    in [Listener], [ListenerFunc], [executeListener] and [Resume]; what the
    Go runtime does when it finds two such accesses under way at once (it
    may stop the process) is not part of the model, and no statement below
    is about it.  The order in which Go ranges over a map is not specified:
    the function [Resume] ranges in the order of [map_to_list] and
    [elements], the steps of [Resume] in any order.

    A listener body is code of the caller.  The model keeps of it the sends it
    makes on its quit channel; whatever else it does to the dispatcher is a
    call like any other, which the process may make at any time. *)

From stdpp Require Import gmap strings list fin_maps sets.

(** ** Values *)

(** What the dispatcher can observe of a listener body: how many times it
    sends on the quit channel it was handed before it returns. *)
Abbreviation routine := nat.

(** A value of the interface type [Listener]: nil, or a value whose type has
    the method [Execute]. *)
Inductive ListenerValue :=
  | ListenerNil
  | ListenerImpl (r : routine).

(** A value of the function type [ListenerFunc]: nil, or a function. *)
Inductive ListenerFuncValue :=
  | FuncNil
  | Func (r : routine).

(** A value of type [interface{}], by dynamic type. *)
Inductive value :=
  | VNil                                  (* the nil interface: no dynamic type *)
  | VListener (r : routine)               (* dynamic type implements Listener *)
  | VListenerFunc (f : ListenerFuncValue) (* dynamic type is ListenerFunc *)
  | VOther (tag : nat).                   (* any other dynamic type *)

Record Event := { Data : value; Name : string }.

(** Channels made by [make(chan int)] are identified by a number; a nil
    channel in a slice is [None]. *)
Abbreviation chan := nat.

Record Dispatcher := {
  mu : bool;                              (* true: the mutex is held *)
  listeners : gmap string (list value);
  pchans : gmap string (gset chan);
  qchans : gmap string (list (option chan));
  paused : bool
}.

(** ** Goroutines *)

(** Program points of [executeListener]. *)
Inductive pc :=
  | AtPauseCheck          (* about to evaluate d.paused *)
  | AtRecvP               (* blocked in <-p *)
  | AtSwitch              (* about to run the type switch *)
  | InBody (n : nat)      (* in the listener body, n sends on q still to do *)
  | AtDelete              (* body returned, about to delete(d.pchans[name], p) *)
  | Returned.

(** The frame of one [go d.executeListener(name, l, e, p, q)]. *)
Record goroutine := {
  g_name : string;
  g_l : value;
  g_e : Event;
  g_p : chan;
  g_q : chan;
  g_pc : pc
}.

Inductive panic :=
  | InvalidListener       (* panic("Invalid listener") *)
  | NilFuncCall           (* call of a nil function value *)
  | IndexOutOfRange.

(** The frame of the range loop of a [Wait] in progress. *)
Record wait_frame := {
  w_event : string;
  w_i : nat;              (* next index of the range loop *)
  w_len : nat             (* length of the slice when the loop began *)
}.

Record World := {
  disp : Dispatcher;
  pool : list goroutine;        (* every goroutine launched so far *)
  waiting : option wait_frame;  (* the Wait that holds the mutex, if any *)
  fresh : chan;                 (* the next channel make will return *)
  fatal : option panic          (* the process has died with this panic *)
}.

#[global] Instance pc_eq_dec : EqDecision pc.
Proof. solve_decision. Defined.
#[global] Instance ListenerFuncValue_eq_dec : EqDecision ListenerFuncValue.
Proof. solve_decision. Defined.
#[global] Instance value_eq_dec : EqDecision value.
Proof. solve_decision. Defined.
#[global] Instance panic_eq_dec : EqDecision panic.
Proof. solve_decision. Defined.

(** ** Field updates *)

Definition set_mu (b : bool) (d : Dispatcher) : Dispatcher :=
  {| mu := b; listeners := listeners d; pchans := pchans d;
     qchans := qchans d; paused := paused d |}.

Definition set_listeners (m : gmap string (list value)) (d : Dispatcher) : Dispatcher :=
  {| mu := mu d; listeners := m; pchans := pchans d;
     qchans := qchans d; paused := paused d |}.

Definition set_pchans (m : gmap string (gset nat)) (d : Dispatcher) : Dispatcher :=
  {| mu := mu d; listeners := listeners d; pchans := m;
     qchans := qchans d; paused := paused d |}.

Definition set_qchans (m : gmap string (list (option nat))) (d : Dispatcher) : Dispatcher :=
  {| mu := mu d; listeners := listeners d; pchans := pchans d;
     qchans := m; paused := paused d |}.

Definition set_paused (b : bool) (d : Dispatcher) : Dispatcher :=
  {| mu := mu d; listeners := listeners d; pchans := pchans d;
     qchans := qchans d; paused := b |}.

Definition set_disp (d : Dispatcher) (w : World) : World :=
  {| disp := d; pool := pool w; waiting := waiting w;
     fresh := fresh w; fatal := fatal w |}.

Definition set_pool (gs : list goroutine) (w : World) : World :=
  {| disp := disp w; pool := gs; waiting := waiting w;
     fresh := fresh w; fatal := fatal w |}.

Definition set_waiting (f : option wait_frame) (w : World) : World :=
  {| disp := disp w; pool := pool w; waiting := f;
     fresh := fresh w; fatal := fatal w |}.

Definition set_fatal (p : panic) (w : World) : World :=
  {| disp := disp w; pool := pool w; waiting := waiting w;
     fresh := fresh w; fatal := Some p |}.

Definition set_pc (s : pc) (g : goroutine) : goroutine :=
  {| g_name := g_name g; g_l := g_l g; g_e := g_e g;
     g_p := g_p g; g_q := g_q g; g_pc := s |}.

(** ** Construction and registration *)

Definition NewDispatcher : Dispatcher :=
  {| mu := false; listeners := ∅; pchans := ∅; qchans := ∅; paused := false |}.

(** The process right after [NewDispatcher()]. *)
Definition boot : World :=
  {| disp := NewDispatcher; pool := []; waiting := None; fresh := 0; fatal := None |}.

(** Storing a [Listener] in a [[]interface{}] keeps its dynamic type; a nil
    [Listener] becomes the nil interface. *)
Definition box_listener (l : ListenerValue) : value :=
  match l with
  | ListenerNil => VNil
  | ListenerImpl r => VListener r
  end.

(** A [ListenerFunc], nil or not, is boxed with dynamic type ListenerFunc. *)
Definition box_func (f : ListenerFuncValue) : value := VListenerFunc f.

(** d.listeners[event] = append(d.listeners[event], l) *)
Definition register (event : string) (v : value) (w : World) : World :=
  set_disp (set_listeners
              (<[event := (listeners (disp w) !!! event) ++ [v]]> (listeners (disp w)))
              (disp w)) w.

Definition Listener (event : string) (l : ListenerValue) (w : World) : World :=
  register event (box_listener l) w.

Definition ListenerFunc (event : string) (l : ListenerFuncValue) (w : World) : World :=
  register event (box_func l) w.

(** ** Dispatch *)

(** d.mu.Lock() returns only when the mutex is free. *)
Definition Lock (w : World) : option World :=
  if mu (disp w) then None else Some (set_disp (set_mu true (disp w)) w).

Definition Unlock (w : World) : World := set_disp (set_mu false (disp w)) w.

(** if d.pchans[name] == nil { d.pchans[name] = make(map[chan int]bool) } *)
Definition ensure_pchans (name : string) (w : World) : World :=
  match pchans (disp w) !! name with
  | Some _ => w
  | None => set_disp (set_pchans (<[name := ∅]> (pchans (disp w))) (disp w)) w
  end.

(** One iteration of the loop of [Dispatch], for the listener [l]. *)
Definition launch (name : string) (e : Event) (w : World) (l : value) : World :=
  let p := fresh w in
  let q := S (fresh w) in
  let d := disp w in
  let d1 := set_pchans (<[name := {[p]} ∪ (pchans d !!! name)]> (pchans d)) d in
  let d2 := set_qchans (<[name := (qchans d1 !!! name) ++ [Some q]]> (qchans d1)) d1 in
  {| disp := d2;
     pool := pool w ++ [{| g_name := name; g_l := l; g_e := e;
                           g_p := p; g_q := q; g_pc := AtPauseCheck |}];
     waiting := waiting w;
     fresh := S (S (fresh w));
     fatal := fatal w |}.

(** The call taken in one go, from the lock to the deferred Unlock; it is
    taken apart in [Dispatch_enter] and [Dispatch_step].
    [None]: the caller is blocked in d.mu.Lock(). *)
Definition Dispatch (name : string) (e : Event) (w : World) : option World :=
  w1 ← Lock w;
  Some (Unlock (foldl (launch name e) (ensure_pchans name w1)
                      (listeners (disp w1) !!! name))).

(** ** executeListener *)

Definition update_pc (i : nat) (s : pc) (w : World) : World :=
  set_pool (alter (set_pc s) i (pool w)) w.

(** delete(d.pchans[name], p); on a nil map it does nothing. *)
Definition delete_pchan (name : string) (p : nat) (d : Dispatcher) : Dispatcher :=
  set_pchans (alter (λ arr, arr ∖ {[p]}) name (pchans d)) d.

(** One step of the goroutine at index [i] of the pool. [None]: it cannot
    move by itself (blocked on a channel, returned, or no such goroutine).
    At its first step a goroutine that reads d.paused as true is taken
    straight into its receive; [go_step] and [park] take the two apart. *)
Definition executeListener (i : nat) (w : World) : option World :=
  g ← pool w !! i;
  match g_pc g with
  | AtPauseCheck =>
      Some (update_pc i (if paused (disp w) then AtRecvP else AtSwitch) w)
  | AtRecvP => None
  | AtSwitch =>
      match g_l g with
      | VListener r => Some (update_pc i (InBody r) w)
      | VListenerFunc (Func r) => Some (update_pc i (InBody r) w)
      | VListenerFunc FuncNil => Some (set_fatal NilFuncCall w)
      | VNil | VOther _ => Some (set_fatal InvalidListener w)
      end
  | InBody 0 => Some (update_pc i AtDelete w)
  | InBody (S _) => None
  | AtDelete =>
      Some (update_pc i Returned
              (set_disp (delete_pchan (g_name g) (g_p g) (disp w)) w))
  | Returned => None
  end.

(** ** Pause and Resume *)

Definition Pause (w : World) : World := set_disp (set_paused true (disp w)) w.

Definition receiving_on (c : nat) (g : goroutine) : bool :=
  bool_decide (g_pc g = AtRecvP ∧ g_p g = c).

(** select { case c <- 1: default: } : the send happens only if a goroutine
    is blocked in a receive on [c]; the flag tells whether it happened. *)
Fixpoint try_send (c : nat) (gs : list goroutine) : list goroutine * bool :=
  match gs with
  | [] => ([], false)
  | g :: gs' =>
      if receiving_on c g then (set_pc AtSwitch g :: gs', true)
      else let r := try_send c gs' in (g :: r.1, r.2)
  end.

(** The channels the two nested range loops of [Resume] visit, each with
    the event whose map holds it. *)
Definition resume_targets (d : Dispatcher) : list (string * nat) :=
  '(name, arr) ← map_to_list (pchans d); (λ c, (name, c)) <$> elements arr.

(** The loops of [Resume] over the given targets, with the log of the send
    attempts: which channel, and whether the send happened. *)
Fixpoint Resume_loop (ts : list (string * nat)) (w : World)
  : World * list (string * nat * bool) :=
  match ts with
  | [] => (w, [])
  | (name, c) :: ts' =>
      let r := try_send c (pool w) in
      let k := Resume_loop ts' (set_pool r.1 w) in
      (k.1, (name, c, r.2) :: k.2)
  end.

(** The call taken in one go, from the test of the flag to d.paused =
    false, with the log of its sends; it is taken apart in [Resume_enter],
    [Resume_try], [Resume_new] and [Resume_return]. *)
Definition Resume (w : World) : World * list (string * nat * bool) :=
  if negb (paused (disp w)) then (w, [])
  else
    let k := Resume_loop (resume_targets (disp w)) w in
    (set_disp (set_paused false (disp k.1)) k.1, k.2).

(** ** Wait *)

Definition sending_on (c : nat) (g : goroutine) : bool :=
  match g_pc g with
  | InBody (S _) => bool_decide (g_q g = c)
  | _ => false
  end.

Definition after_send (g : goroutine) : goroutine :=
  match g_pc g with
  | InBody (S n) => set_pc (InBody n) g
  | _ => g
  end.

(** <-c : takes the value of a goroutine blocked in a send on [c]; [None]
    when there is none, and the receiver stays blocked. *)
Fixpoint recv (c : nat) (gs : list goroutine) : option (list goroutine) :=
  match gs with
  | [] => None
  | g :: gs' =>
      if sending_on c g then Some (after_send g :: gs')
      else cons g <$> recv c gs'
  end.

(** Entry of [Wait]: the lock is taken and the range expression
    d.qchans[event] is evaluated once. *)
Definition Wait (event : string) (w : World) : option World :=
  w1 ← Lock w;
  Some (set_waiting
          (Some {| w_event := event; w_i := 0;
                   w_len := length (qchans (disp w1) !!! event) |}) w1).

Definition next_index (f : wait_frame) : wait_frame :=
  {| w_event := w_event f; w_i := S (w_i f); w_len := w_len f |}.

(** One iteration of the range loop of the [Wait] in progress, or its return
    (the deferred Unlock) when the loop is over. [None]: blocked in <-c, or
    no Wait in progress. *)
Definition Wait_step (w : World) : option World :=
  f ← waiting w;
  if decide (w_i f < w_len f) then
    match (qchans (disp w) !!! w_event f) !! w_i f with
    | Some (Some c) =>
        gs ← recv c (pool w);
        Some (set_waiting (Some (next_index f))
                (set_pool gs
                   (set_disp
                      (set_qchans
                         (<[w_event f := <[w_i f := None]> (qchans (disp w) !!! w_event f)]>
                            (qchans (disp w)))
                         (disp w)) w)))
    | Some None => Some (set_waiting (Some (next_index f)) w)
    | None => Some (set_fatal IndexOutOfRange w)
    end
  else Some (set_waiting None (Unlock w)).

(** ** The process *)

Inductive call :=
  | CListener (event : string) (l : ListenerValue)
  | CListenerFunc (event : string) (l : ListenerFuncValue)
  | CDispatch (name : string) (e : Event)
  | CPause
  | CResume
  | CWait (event : string)
  | WaitStep                (* the goroutine inside Wait moves *)
  | GoStep (i : nat).       (* the i-th launched goroutine moves *)

(** One step of the process; nothing moves once a panic has killed it. *)
Definition exec (c : call) (w : World) : option World :=
  match fatal w with
  | Some _ => None
  | None =>
      match c with
      | CListener event l => Some (Listener event l w)
      | CListenerFunc event l => Some (ListenerFunc event l w)
      | CDispatch name e => Dispatch name e w
      | CPause => Some (Pause w)
      | CResume => Some (Resume w).1
      | CWait event => Wait event w
      | WaitStep => Wait_step w
      | GoStep i => executeListener i w
      end
  end.

Fixpoint run (cs : list call) (w : World) : option World :=
  match cs with
  | [] => Some w
  | c :: cs' => w' ← exec c w; run cs' w'
  end.

Definition reachable (w : World) : Prop := ∃ cs, run cs boot = Some w.

(** ** Notions used in the statements *)

(** An event to dispatch in the concrete runs. *)
Definition ev0 : Event := {| Data := VOther 0; Name := "e" |}.

(** The goroutines the loop of [Dispatch] starts for the listeners [hs],
    when [base] is the next channel. *)
Fixpoint spawned (name : string) (e : Event) (base : nat) (hs : list value)
  : list goroutine :=
  match hs with
  | [] => []
  | l :: hs' =>
      {| g_name := name; g_l := l; g_e := e;
         g_p := base; g_q := S base; g_pc := AtPauseCheck |}
        :: spawned name e (S (S base)) hs'
  end.

(** Every channel recorded in [pchans] was made before: it is below [fresh]. *)
Definition pchans_below (w : World) : Prop :=
  ∀ n arr c, pchans (disp w) !! n = Some arr → c ∈ arr → c < fresh w.

(** The control flow of [executeListener]. *)
Inductive pc_next : pc → pc → Prop :=
  | next_paused : pc_next AtPauseCheck AtRecvP
  | next_unpaused : pc_next AtPauseCheck AtSwitch
  | next_resumed : pc_next AtRecvP AtSwitch
  | next_call r : pc_next AtSwitch (InBody r)
  | next_sent n : pc_next (InBody (S n)) (InBody n)
  | next_return : pc_next (InBody 0) AtDelete
  | next_deleted : pc_next AtDelete Returned.

Definition same_frame (g g' : goroutine) : Prop :=
  g_name g' = g_name g ∧ g_l g' = g_l g ∧ g_e g' = g_e g
  ∧ g_p g' = g_p g ∧ g_q g' = g_q g.

(** [g'] is the goroutine [g] some steps later. *)
Definition advance (g g' : goroutine) : Prop :=
  same_frame g g' ∧ rtc pc_next (g_pc g) (g_pc g').

(** The goroutines a call launches. *)
Definition launched (c : call) (w : World) : list goroutine :=
  match c with
  | CDispatch name e => spawned name e (fresh w) (listeners (disp w) !!! name)
  | _ => []
  end.

Ltac go_cases H g Hg Hpc :=
  unfold executeListener in H;
  destruct (pool _ !! _) as [g|] eqn:Hg; simpl in H; [|discriminate H];
  destruct (g_pc g) as [| | |[|?]| |] eqn:Hpc; try discriminate H.

Ltac wait_cases H f Hf Hlt Hq :=
  unfold Wait_step in H;
  destruct (waiting _) as [f|] eqn:Hf; simpl in H; [|discriminate H];
  destruct (decide (w_i f < w_len f)) as [Hlt|Hlt];
  [destruct ((qchans _ !!! w_event f) !! w_i f) as [[?|]|] eqn:Hq|].

Definition is_dispatch (c : call) : bool :=
  match c with CDispatch _ _ => true | _ => false end.

Definition rank (s : pc) : nat :=
  match s with
  | AtPauseCheck => 0
  | AtRecvP => 1
  | AtSwitch => 2
  | InBody _ => 3
  | AtDelete => 4
  | Returned => 5
  end.

(** The goroutine is past [if d.paused { <-p }]. *)
Definition past_check (s : pc) : bool :=
  match s with
  | AtPauseCheck | AtRecvP => false
  | _ => true
  end.

Definition force_paused (b : bool) (w : World) : World :=
  set_disp (set_paused b (disp w)) w.

(** The dynamic type is one of the two cases of the type switch. *)
Definition recognized (v : value) : bool :=
  match v with
  | VListener _ | VListenerFunc _ => true
  | VNil | VOther _ => false
  end.

Definition registers_nil_listener (c : call) : bool :=
  match c with
  | CListener _ ListenerNil => true
  | _ => false
  end.

(** Every stored listener value and every launched goroutine has a
    recognized value, and the process has not died at the type switch. *)
Definition all_recognized (w : World) : Prop :=
  (∀ ev, Forall (λ v, recognized v = true) (listeners (disp w) !!! ev))
  ∧ Forall (λ g, recognized (g_l g) = true) (pool w)
  ∧ fatal w ≠ Some InvalidListener.

(** [g'] is [g] with another program point, returned only if [g] was. *)
Definition nudge (g g' : goroutine) : Prop :=
  same_frame g g' ∧ (g_pc g' = Returned ↔ g_pc g = Returned).

(** The pause channel of a goroutine is recorded under its event exactly as
    long as the goroutine has not returned; pause channels are below [fresh]
    and belong to one goroutine each. *)
Definition gates_ok (w : World) : Prop :=
  Forall (λ g, g_p g < fresh w) (pool w)
  ∧ NoDup (g_p <$> pool w)
  ∧ Forall (λ g, g_p g ∈ pchans (disp w) !!! g_name g ↔ g_pc g ≠ Returned) (pool w).

(** [g'] is [g] after at most one step of its control flow. *)
Definition hop (g g' : goroutine) : Prop :=
  same_frame g g' ∧ (g_pc g' = g_pc g ∨ pc_next (g_pc g) (g_pc g')).

(** [g'] is [g], or [g] released from its receive on the pause channel. *)
Definition woken (g g' : goroutine) : Prop :=
  same_frame g g' ∧ (g_pc g' = g_pc g ∨ (g_pc g = AtRecvP ∧ g_pc g' = AtSwitch)).

(** How many goroutines of the list were launched for the event [E]. *)
Definition launches_for (E : string) (gs : list goroutine) : nat :=
  length (filter (λ n, n = E) (g_name <$> gs)).

(** While a [Wait] is in progress it holds the mutex, the slice it ranges
    over has kept its length, and every entry before its index is nil. *)
Definition wait_ok (w : World) : Prop :=
  match waiting w with
  | Some f =>
      mu (disp w) = true
      ∧ w_len f = length (qchans (disp w) !!! w_event f)
      ∧ w_i f ≤ w_len f
      ∧ ∀ j, j < w_i f → (qchans (disp w) !!! w_event f) !! j = Some None
  | None => True
  end.

(** ** Concrete runs *)

(** Two listeners registered for "e", nothing dispatched yet. *)
Definition w_registered : World :=
  Listener "e" (ListenerImpl 1) (ListenerFunc "e" (Func 1) boot).

(** [w_registered] after Dispatch("e", ev0). *)
Definition w_dispatched : World :=
  default boot (Dispatch "e" ev0 w_registered).

(** One listener dispatched; its goroutine is in the body, about to send. *)
Definition w_in_body : World :=
  default boot (run [CListenerFunc "e" (Func 1); CDispatch "e" ev0;
                     GoStep 0; GoStep 0] boot).

Definition g_in_body : goroutine :=
  {| g_name := "e"; g_l := VListenerFunc (Func 1); g_e := ev0;
     g_p := 0; g_q := 1; g_pc := InBody 1 |}.

(** As [w_in_body], with Wait("e") entered. *)
Definition w_waiting : World :=
  default boot (run [CListenerFunc "e" (Func 1); CDispatch "e" ev0;
                     GoStep 0; GoStep 0; CWait "e"] boot).


(** A nil Listener dispatched; its goroutine is at the type switch. *)
Definition w_nil_listener : World :=
  default boot (run [CListener "e" ListenerNil; CDispatch "e" ev0; GoStep 0] boot).

Definition g_nil_listener : goroutine :=
  {| g_name := "e"; g_l := VNil; g_e := ev0; g_p := 0; g_q := 1; g_pc := AtSwitch |}.

Definition calls_without_nil : list call :=
  [CListenerFunc "e" FuncNil; CListener "e" (ListenerImpl 1); CDispatch "e" ev0;
   GoStep 1; GoStep 1].

(** ** Notions used in the further properties *)

(** The value a call stores in [d.listeners[E]], if it is a registration
    for [E]. *)
Definition stored_for (E : string) (c : call) : option value :=
  match c with
  | CListener ev l => if decide (ev = E) then Some (box_listener l) else None
  | CListenerFunc ev l => if decide (ev = E) then Some (box_func l) else None
  | _ => None
  end.

(** The values the calls [cs] store for [E], in the order of the calls. *)
Definition registered_in (E : string) (cs : list call) : list value :=
  omap (stored_for E) cs.

(** Every goroutine runs a value that is registered for its event. *)
Definition runs_registered (w : World) : Prop :=
  Forall (λ g, g_l g ∈ listeners (disp w) !!! g_name g) (pool w).

(** The type switch finds a case for the value and the function it then
    calls is not nil: a non-nil value of one of the two kinds.  (What the
    listener does once called is the listener's affair.) *)
Definition callable (v : value) : bool :=
  match v with
  | VListener _ | VListenerFunc (Func _) => true
  | _ => false
  end.

Definition registers_nil (c : call) : bool :=
  match c with
  | CListener _ ListenerNil | CListenerFunc _ FuncNil => true
  | _ => false
  end.

(** Only callable values are stored, goroutines run stored values, the
    [Wait] in progress is within its slice, and the process is alive. *)
Definition sound (w : World) : Prop :=
  (∀ ev, Forall (λ v, callable v = true) (listeners (disp w) !!! ev))
  ∧ runs_registered w ∧ wait_ok w ∧ fatal w = None.

Definition is_resume (c : call) : bool :=
  match c with CResume => true | _ => false end.



(** Every recorded pause channel is the pause channel of a goroutine
    launched for that event. *)
Definition pchans_owned (w : World) : Prop :=
  ∀ n c, c ∈ pchans (disp w) !!! n → ∃ g, g ∈ pool w ∧ g_name g = n ∧ g_p g = c.

(** The number of sends the body of a listener value makes on its quit
    channel; a value that cannot be called makes none. *)
Definition routine_of (v : value) : nat :=
  match v with
  | VListener r | VListenerFunc (Func r) => r
  | _ => 0
  end.

(** The sends a goroutine has made on its quit channel so far. *)
Definition sends_made (g : goroutine) : nat :=
  match g_pc g with
  | InBody n => routine_of (g_l g) - n
  | AtDelete | Returned => routine_of (g_l g)
  | _ => 0
  end.

(** The sends a goroutine still has to make. *)
Definition sends_left (g : goroutine) : nat :=
  match g_pc g with
  | InBody n => n
  | AtDelete | Returned => 0
  | _ => routine_of (g_l g)
  end.

(** A goroutine in the body has no more sends to do than its listener
    makes, and either its quit channel is still in the slice of its event
    or it has sent on it. *)
Definition signal_ok (d : Dispatcher) (g : goroutine) : Prop :=
  sends_left g ≤ routine_of (g_l g)
  ∧ (Some (g_q g) ∈ qchans d !!! g_name g ∨ 1 ≤ sends_made g).

Definition quits_ok (w : World) : Prop :=
  Forall (λ g, g_q g < fresh w) (pool w)
  ∧ NoDup (g_q <$> pool w)
  ∧ Forall (signal_ok (disp w)) (pool w).

(** The [Wait] in progress is at an entry that holds the channel [c], and no
    goroutine with that quit channel has a send left to do. *)
Definition stuck_on (f : wait_frame) (c : nat) (w : World) : Prop :=
  mu (disp w) = true
  ∧ waiting w = Some f
  ∧ w_i f < w_len f
  ∧ (qchans (disp w) !!! w_event f) !! w_i f = Some (Some c)
  ∧ Forall (λ g, g_q g = c → sends_left g = 0) (pool w).

(** [g'] is [g] at another program point with the same sends made and left. *)
Definition silent (g g' : goroutine) : Prop :=
  same_frame g g' ∧ sends_left g' = sends_left g ∧ sends_made g' = sends_made g.

(** A listener that returns without a send has been dispatched, and
    Wait("e") has been entered. *)
Definition w_silent_listener : World :=
  default boot (run [CListenerFunc "e" (Func 0); CDispatch "e" ev0;
                     GoStep 0; GoStep 0; GoStep 0; GoStep 0; CWait "e"] boot).

(** ** WaitAll *)

(** The frame of [WaitAll]: the events its range loop has still to visit and
    whether it is inside a call of [Wait]. *)
Record waitall_frame := {
  wa_todo : list string;
  wa_inside : bool
}.

(** Entry of [WaitAll]: the loop ranges over the keys of [d.qchans].  Keys
    are only ever added, by [Dispatch]; the loop is given the keys present at
    the entry (Go may or may not visit a key added while it ranges). *)
Definition WaitAll (w : World) : waitall_frame :=
  {| wa_todo := (map_to_list (qchans (disp w))).*1; wa_inside := false |}.

(** One step of the goroutine running [WaitAll]: it enters [Wait] for the
    next event, or moves inside the [Wait] it has entered.  [None]: held at
    the mutex, blocked on a quit channel, or returned. *)
Definition WaitAll_step (a : waitall_frame) (w : World)
  : option (waitall_frame * World) :=
  if wa_inside a then
    w' ← exec WaitStep w;
    Some ({| wa_todo := wa_todo a;
             wa_inside := bool_decide (is_Some (waiting w')) |}, w')
  else
    match wa_todo a with
    | [] => None
    | e :: rest =>
        w' ← exec (CWait e) w;
        Some ({| wa_todo := rest; wa_inside := true |}, w')
    end.

Definition WaitAll_returned (a : waitall_frame) : Prop :=
  wa_todo a = [] ∧ wa_inside a = false.

(** A move of the process while [WaitAll] runs: a step of [WaitAll] itself,
    or any other call; the [Wait] that [WaitAll] is inside is moved by
    [WaitAll] only. *)
Inductive wa_move :=
  | Own
  | Other (c : call).

Definition is_waitstep (c : call) : bool :=
  match c with WaitStep => true | _ => false end.

Definition wa_exec (m : wa_move) (s : waitall_frame * World)
  : option (waitall_frame * World) :=
  match m with
  | Own => WaitAll_step s.1 s.2
  | Other c =>
      if wa_inside s.1 && is_waitstep c then None
      else (λ w', (s.1, w')) <$> exec c s.2
  end.

Fixpoint wa_run (ms : list wa_move) (s : waitall_frame * World)
  : option (waitall_frame * World) :=
  match ms with
  | [] => Some s
  | m :: ms' => s' ← wa_exec m s; wa_run ms' s'
  end.

Definition dispatches (m : wa_move) : bool :=
  match m with Other c => is_dispatch c | Own => false end.

(** Each event is still to visit, or is the event of the [Wait] that
    [WaitAll] is inside, or has all its quit channels nil. *)
Definition waitall_ok (s : waitall_frame * World) : Prop :=
  wait_ok s.2
  ∧ ∀ E, E ∈ wa_todo s.1
         ∨ (wa_inside s.1 = true ∧ ∃ f, waiting s.2 = Some f ∧ w_event f = E)
         ∨ Forall (λ q, q = None) (qchans (disp s.2) !!! E).

(** The slices of quit channels that exist are not empty. *)
Definition qchans_nonempty (w : World) : Prop :=
  ∀ E l, qchans (disp w) !! E = Some l → l ≠ [].

(** ** The methods step by step *)

(** [Dispatch] and [Resume] are loops, and the goroutines and the other
    callers run while they loop.  Here a call of [Dispatch] is an entry
    (the lock, the pause set of the event, the range expression), one step
    per iteration and a return (the deferred Unlock); a call of [Resume] is
    an entry (the test of the flag, the range over the maps), one step per
    non-blocking send and a return (the flag cleared); and a goroutine that
    has read d.paused as true has still to block in its receive.  Any
    number of calls of [Resume] may be under way; the mutex lets one
    [Dispatch] in.  The functions [Dispatch], [Resume] and [executeListener]
    above are these steps with nothing in between. *)

(** The frame of the [Dispatch] in progress: the listeners its loop has
    still to launch. *)
Record dispatch_frame := {
  df_name : string;
  df_e : Event;
  df_rest : list value
}.

(** The frame of a [Resume] under way: the entries of the maps that were
    there when its range began and that it has not reached yet, and the
    entries that cannot come any more (those, and the later ones it has
    produced). *)
Record resume_frame := {
  rf_todo : list (string * nat);
  rf_seen : list (string * nat)
}.

Record Process := {
  world : World;
  dispatching : option dispatch_frame;     (* the Dispatch that holds the mutex *)
  resuming : list (option resume_frame);   (* the calls of Resume: under way, or returned *)
  arriving : gset nat                      (* goroutines between if d.paused and <-p *)
}.

Definition in_world (w : World) (s : Process) : Process :=
  {| world := w; dispatching := dispatching s; resuming := resuming s;
     arriving := arriving s |}.

Definition set_resuming (rs : list (option resume_frame)) (s : Process) : Process :=
  {| world := world s; dispatching := dispatching s; resuming := rs;
     arriving := arriving s |}.

Definition set_arriving (a : gset nat) (s : Process) : Process :=
  {| world := world s; dispatching := dispatching s; resuming := resuming s;
     arriving := a |}.

(** Lines 62 to 69: the lock, the pause set of the event, and the slice the
    loop ranges over.  [None]: held at d.mu.Lock(). *)
Definition Dispatch_enter (name : string) (e : Event) (s : Process) : option Process :=
  w1 ← Lock (world s);
  Some {| world := ensure_pchans name w1;
          dispatching := Some {| df_name := name; df_e := e;
                                 df_rest := listeners (disp w1) !!! name |};
          resuming := resuming s;
          arriving := arriving s |}.

(** One iteration of the loop of the [Dispatch] in progress (lines 70 to
    76), or its return when the loop is over.  It waits for nothing. *)
Definition Dispatch_step (s : Process) : option Process :=
  f ← dispatching s;
  match df_rest f with
  | l :: rest =>
      Some {| world := launch (df_name f) (df_e f) (world s) l;
              dispatching := Some {| df_name := df_name f; df_e := df_e f;
                                     df_rest := rest |};
              resuming := resuming s;
              arriving := arriving s |}
  | [] =>
      Some {| world := Unlock (world s); dispatching := None;
              resuming := resuming s; arriving := arriving s |}
  end.

(** The goroutine at index [i] reads d.paused as true at its next step. *)
Definition reads_paused (i : nat) (w : World) : bool :=
  bool_decide (g_pc <$> pool w !! i = Some AtPauseCheck) && paused (disp w).

(** A step of the goroutine [i]; one that has found d.paused true is on its
    way to the receive, and is not a receiver yet. *)
Definition go_step (i : nat) (s : Process) : option Process :=
  w' ← executeListener i (world s);
  Some {| world := w'; dispatching := dispatching s; resuming := resuming s;
          arriving := if reads_paused i (world s) then {[i]} ∪ arriving s
                      else arriving s |}.

(** The goroutine [i] blocks in <-p. *)
Definition park (i : nat) (s : Process) : option Process :=
  if bool_decide (i ∈ arriving s) then Some (set_arriving (arriving s ∖ {[i]}) s)
  else None.

(** The goroutine blocked in a receive on the channel [c], if there is one:
    the first of the pool from index [i] on. *)
Fixpoint receiver (a : gset nat) (c : nat) (i : nat) (gs : list goroutine) : option nat :=
  match gs with
  | [] => None
  | g :: gs' =>
      if receiving_on c g && bool_decide (i ∉ a) then Some i
      else receiver a c (S i) gs'
  end.

(** select { case c <- 1: default: } : the value goes to the goroutine
    blocked in a receive on [c]; with none, the default case is taken and
    nothing is kept. *)
Definition select_send (a : gset nat) (c : nat) (w : World) : World :=
  match receiver a c 0 (pool w) with
  | Some i => update_pc i AtSwitch w
  | None => w
  end.

(** Lines 104 to 108: a [Resume] on a dispatcher that is not paused returns
    at once; otherwise its range begins. *)
Definition Resume_enter (s : Process) : option Process :=
  if negb (paused (disp (world s))) then Some s
  else
    let ts := resume_targets (disp (world s)) in
    Some (set_resuming (resuming s ++ [Some {| rf_todo := ts; rf_seen := ts |}]) s).

(** The frame of the [Resume] number [k], while it is under way. *)
Definition frame (k : nat) (s : Process) : option resume_frame :=
  mjoin (resuming s !! k).

(** The [Resume] number [k] produces an entry that was there when its range
    began and is still there, and tries the send.  An entry deleted before
    the range has reached it is not produced.  (The order of a range over a
    map is not specified; the two loops are nested, so that the channels of
    one event come one after the other, which the model does not require:
    it allows every order.) *)
Definition Resume_try (k : nat) (name : string) (c : nat) (s : Process) : option Process :=
  f ← frame k s;
  if bool_decide ((name, c) ∈ rf_todo f ∧ c ∈ pchans (disp (world s)) !!! name) then
    Some {| world := select_send (arriving s) c (world s);
            dispatching := dispatching s;
            resuming := <[k := Some {| rf_todo := filter (λ x, x ≠ (name, c)) (rf_todo f);
                                       rf_seen := rf_seen f |}]> (resuming s);
            arriving := arriving s |}
  else None.

(** The [Resume] number [k] produces an entry recorded since its range
    began, which a range over a map may or may not do, and tries the send.
    No entry is produced twice. *)
Definition Resume_new (k : nat) (name : string) (c : nat) (s : Process) : option Process :=
  f ← frame k s;
  if bool_decide (c ∈ pchans (disp (world s)) !!! name ∧ (name, c) ∉ rf_seen f) then
    Some {| world := select_send (arriving s) c (world s);
            dispatching := dispatching s;
            resuming := <[k := Some {| rf_todo := rf_todo f;
                                       rf_seen := (name, c) :: rf_seen f |}]> (resuming s);
            arriving := arriving s |}
  else None.

(** The entry has been deleted from the map of its event. *)
Definition gone (d : Dispatcher) (x : string * nat) : Prop := x.2 ∉ pchans d !!! x.1.

(** Line 117, once the loops are over, which they are when no entry that is
    still there is left to produce: d.paused = false, and the return. *)
Definition Resume_return (k : nat) (s : Process) : option Process :=
  f ← frame k s;
  if bool_decide (Forall (λ x, x.2 ∉ pchans (disp (world s)) !!! x.1) (rf_todo f)) then
    Some {| world := set_disp (set_paused false (disp (world s))) (world s);
            dispatching := dispatching s;
            resuming := <[k := None]> (resuming s);
            arriving := arriving s |}
  else None.

(** A move of the process: a step of a [Dispatch], of a [Resume] or of a
    goroutine, or a call of one of the other methods, made somewhere
    else. *)
Inductive move :=
  | DispatchEnter (name : string) (e : Event)
  | DispatchStep
  | ResumeEnter
  | ResumeTry (k : nat) (name : string) (c : nat)
  | ResumeNew (k : nat) (name : string) (c : nat)
  | ResumeReturn (k : nat)
  | Park (i : nat)
  | Elsewhere (c : call).

Definition step (m : move) (s : Process) : option Process :=
  match fatal (world s) with
  | Some _ => None
  | None =>
      match m with
      | DispatchEnter name e => Dispatch_enter name e s
      | DispatchStep => Dispatch_step s
      | ResumeEnter => Resume_enter s
      | ResumeTry k name c => Resume_try k name c s
      | ResumeNew k name c => Resume_new k name c s
      | ResumeReturn k => Resume_return k s
      | Park i => park i s
      | Elsewhere (GoStep i) => go_step i s
      | Elsewhere c =>
          if is_dispatch c || is_resume c then None
          else w' ← exec c (world s); Some (in_world w' s)
      end
  end.

Fixpoint steps (ms : list move) (s : Process) : option Process :=
  match ms with
  | [] => Some s
  | m :: ms' => s' ← step m s; steps ms' s'
  end.

(** The process with no call in progress. *)
Definition at_rest (w : World) : Process :=
  {| world := w; dispatching := None; resuming := []; arriving := ∅ |}.

Definition attainable (s : Process) : Prop := ∃ ms, steps ms (at_rest boot) = Some s.

(** No [Dispatch] and no [Resume] is in progress, and no goroutine is on
    its way to its receive. *)
Definition idle (s : Process) : Prop :=
  dispatching s = None ∧ Forall (λ f, f = None) (resuming s) ∧ arriving s = ∅.

Definition enters_dispatch (m : move) : bool :=
  match m with DispatchEnter _ _ => true | _ => false end.

Definition enters_resume (m : move) : bool :=
  match m with ResumeEnter => true | _ => false end.

Definition returns_resume (m : move) : bool :=
  match m with ResumeReturn _ => true | _ => false end.

Definition is_pause (c : call) : bool :=
  match c with CPause => true | _ => false end.

Definition pauses (m : move) : bool :=
  match m with Elsewhere CPause => true | _ => false end.

(** The goroutine [i] is blocked in its receive on the channel [c]. *)
Definition parked_on (c : nat) (s : Process) (i : nat) : Prop :=
  ∃ g, pool (world s) !! i = Some g ∧ g_pc g = AtRecvP ∧ g_p g = c ∧ i ∉ arriving s.

(** What a non-blocking send on [c] does between [s] and [s']: a goroutine
    blocked in its receive on [c] is released, or there is none and
    nothing changes. *)
Definition sent_or_dropped (c : nat) (s s' : Process) : Prop :=
  (∃ i g, parked_on c s i ∧ pool (world s) !! i = Some g
          ∧ world s' = set_pool (<[i := set_pc AtSwitch g]> (pool (world s))) (world s))
  ∨ ((∀ i, ¬ parked_on c s i) ∧ world s' = world s).

(** What a move that belongs to no [Dispatch] does to the world: a call
    made elsewhere, nothing, a non-blocking send, or the flag cleared. *)
Definition quiet (w w' : World) : Prop :=
  (∃ c, is_dispatch c = false ∧ is_resume c = false ∧ exec c w = Some w')
  ∨ w' = w
  ∨ (∃ a c, w' = select_send a c w)
  ∨ w' = set_disp (set_paused false (disp w)) w.

(** The mutex is held exactly while a [Dispatch] or a [Wait] is in progress,
    and never both. *)
Definition lock_ok (s : Process) : Prop :=
  (mu (disp (world s)) = true
   ↔ is_Some (dispatching s) ∨ is_Some (waiting (world s)))
  ∧ ¬ (is_Some (dispatching s) ∧ is_Some (waiting (world s))).

Definition sane (s : Process) : Prop := lock_ok s ∧ gates_ok (world s).

(** How far the [Dispatch] of [name] entered in the world [w0] has got in
    the state [s]: it has launched the listeners [done], those goroutines
    and the older ones have gone their way since, and the quit channels of
    the event have grown by one entry each. *)
Definition dispatch_progress
    (name : string) (e : Event) (w0 : World) (done : list value) (s : Process) : Prop :=
  ∃ rest olds news,
    listeners (disp w0) !!! name = done ++ rest
    ∧ dispatching s = Some {| df_name := name; df_e := e; df_rest := rest |}
    ∧ pool (world s) = olds ++ news
    ∧ Forall2 advance (pool w0) olds
    ∧ Forall2 advance (spawned name e (fresh w0) done) news
    ∧ fresh (world s) = fresh w0 + 2 * length done
    ∧ qchans (disp (world s)) !!! name
      = qchans (disp w0) !!! name ++ (Some ∘ g_q <$> news).

(** How far the [Resume] number [k], which began its range in the state
    [s1] over the entries [ts], has got after the moves [ms]: under way,
    every entry is still to be reached or has been tried; or returned, and
    every entry had been tried before, or was gone by then. *)
Definition resume_progress
    (k : nat) (ts : list (string * nat)) (s1 : Process) (ms : list move) (s : Process)
    : Prop :=
  match resuming s !! k with
  | Some (Some f) =>
      NoDup (rf_todo f)
      ∧ (∀ name c, (name, c) ∈ rf_todo f → (name, c) ∈ ts)
      ∧ (∀ name c, (name, c) ∈ ts → (name, c) ∈ rf_todo f ∨ ResumeTry k name c ∈ ms)
      ∧ ResumeReturn k ∉ ms
  | Some None =>
      ∃ ms1 ms2 sr,
        ms = ms1 ++ ResumeReturn k :: ms2
        ∧ steps ms1 s1 = Some sr
        ∧ ResumeReturn k ∉ ms1
        ∧ ∀ name c, (name, c) ∈ ts →
            ResumeTry k name c ∈ ms1 ∨ gone (disp (world sr)) (name, c)
  | None => False
  end.

(** ** Concrete states of the process *)

(** Two listeners registered for "e", nothing dispatched. *)
Definition s_registered : Process :=
  default (at_rest boot)
    (steps [Elsewhere (CListenerFunc "e" (Func 1));
            Elsewhere (CListener "e" (ListenerImpl 1))] (at_rest boot)).

(** A [Dispatch] of "e" has entered and has not launched anything yet. *)
Definition s_dispatch_entered : Process :=
  default (at_rest boot)
    (steps [Elsewhere (CListenerFunc "e" (Func 1)); DispatchEnter "e" ev0]
           (at_rest boot)).

(** Paused, one goroutine launched and not yet at its pause check. *)
Definition s_paused_launched : Process :=
  default (at_rest boot)
    (steps [Elsewhere (CListenerFunc "e" (Func 1)); Elsewhere CPause;
            DispatchEnter "e" ev0; DispatchStep; DispatchStep] (at_rest boot)).

(** Paused, with the goroutine blocked in its receive. *)
Definition s_paused_parked : Process :=
  default (at_rest boot)
    (steps [Elsewhere (GoStep 0); Park 0] s_paused_launched).

(** The goroutine has read the flag while a [Resume] was under way, after
    the send on its channel: it is blocked in its receive, and the
    dispatcher is not paused. *)
Definition s_left_behind : Process :=
  default (at_rest boot)
    (steps [ResumeEnter; ResumeTry 0 "e" 0; Elsewhere (GoStep 0); Park 0;
            ResumeReturn 0] s_paused_launched).

(** The same, after more calls that do not pause the dispatcher. *)
Definition s_still_behind : Process :=
  default (at_rest boot)
    (steps [ResumeEnter; Elsewhere (CListenerFunc "e" (Func 0)); Elsewhere (CWait "e")]
           s_left_behind).

(** Paused while the goroutine of a listener that makes no send is past its
    pause check, on its way into the listener. *)
Definition s_paused_running : Process :=
  default (at_rest boot)
    (steps [Elsewhere (CListenerFunc "e" (Func 0)); DispatchEnter "e" ev0;
            DispatchStep; DispatchStep; Elsewhere (GoStep 0); Elsewhere CPause]
           (at_rest boot)).

(** Paused, with two listeners registered and nothing dispatched. *)
Definition s_paused_registered : Process :=
  default (at_rest boot)
    (steps [Elsewhere (CListenerFunc "e" (Func 1));
            Elsewhere (CListener "e" (ListenerImpl 1)); Elsewhere CPause]
           (at_rest boot)).

(** The same after a [Dispatch], with its goroutines at their receive. *)
Definition s_paused_dispatched : Process :=
  default (at_rest boot)
    (steps [DispatchEnter "e" ev0; DispatchStep; Elsewhere (GoStep 0); DispatchStep;
            Park 0; Elsewhere (GoStep 1); DispatchStep] s_paused_registered).

(** * Properties *)

Lemma run_cons c cs w : run (c :: cs) w = exec c w ≫= run cs.
Proof. done. Qed.

Example dispatch_two :
  (λ w, (length (pool w), qchans (disp w) !!! "e", elements (pchans (disp w) !!! "e")))
    <$> run [CListenerFunc "e" (Func 1); CListener "e" (ListenerImpl 1);
             CDispatch "e" ev0] boot
  = Some (2, [Some 1; Some 3], [2; 0]).
Proof. vm_compute. reflexivity. Qed.

(** ** Dispatch: what one call launches *)

Lemma spawned_handlers name e base hs : g_l <$> spawned name e base hs = hs.
Proof. revert base. induction hs as [|l hs IH]; intros base; simpl; [done|]. by rewrite IH. Qed.

Lemma spawned_shape name e base hs :
  Forall (λ g, g_name g = name ∧ g_e g = e ∧ g_pc g = AtPauseCheck
               ∧ base ≤ g_p g ∧ g_q g = S (g_p g))
         (spawned name e base hs).
Proof.
  revert base. induction hs as [|l hs IH]; intros base; simpl; constructor.
  - simpl. repeat split; lia.
  - eapply Forall_impl; [apply IH|]. simpl. intros g (?&?&?&?&?). repeat split; auto; lia.
Qed.

Lemma spawned_p_NoDup name e base hs : NoDup (g_p <$> spawned name e base hs).
Proof.
  revert base. induction hs as [|l hs IH]; intros base; simpl; constructor; [|apply IH].
  intros Hin. apply list_elem_of_fmap in Hin as (g & Hp & Hg).
  pose proof (spawned_shape name e (S (S base)) hs) as Hs.
  rewrite Forall_forall in Hs. apply Hs in Hg. lia.
Qed.

Lemma spawned_q_NoDup name e base hs : NoDup (g_q <$> spawned name e base hs).
Proof.
  revert base. induction hs as [|l hs IH]; intros base; simpl; constructor; [|apply IH].
  intros Hin. apply list_elem_of_fmap in Hin as (g & Hq & Hg).
  pose proof (spawned_shape name e (S (S base)) hs) as Hs.
  rewrite Forall_forall in Hs. apply Hs in Hg. lia.
Qed.

(** The state after the loop of [Dispatch], in closed form. *)
Lemma launch_loop name e hs w :
  let w' := foldl (launch name e) w hs in
  let gs := spawned name e (fresh w) hs in
  pool w' = pool w ++ gs
  ∧ fresh w' = fresh w + 2 * length hs
  ∧ waiting w' = waiting w ∧ fatal w' = fatal w
  ∧ mu (disp w') = mu (disp w) ∧ paused (disp w') = paused (disp w)
  ∧ listeners (disp w') = listeners (disp w)
  ∧ pchans (disp w') !!! name = list_to_set (g_p <$> gs) ∪ (pchans (disp w) !!! name)
  ∧ qchans (disp w') !!! name = (qchans (disp w) !!! name) ++ (Some ∘ g_q <$> gs)
  ∧ (∀ n, n ≠ name → pchans (disp w') !! n = pchans (disp w) !! n
                     ∧ qchans (disp w') !! n = qchans (disp w) !! n)
  ∧ (is_Some (pchans (disp w) !! name) → is_Some (pchans (disp w') !! name)).
Proof.
  revert w. induction hs as [|l hs IH]; intros w; simpl.
  - rewrite !app_nil_r. repeat split; try done; try lia. set_solver.
  - specialize (IH (launch name e w l)). simpl in IH.
    destruct IH as (Hp & Hf & Hw & Hfa & Hmu & Hpa & Hl & Hpc & Hqc & Hne & Hsome).
    repeat split.
    + rewrite Hp. by rewrite <- app_assoc.
    + rewrite Hf. lia.
    + done.
    + done.
    + done.
    + done.
    + done.
    + rewrite Hpc. rewrite lookup_total_insert_eq. set_solver.
    + rewrite Hqc. rewrite lookup_total_insert_eq. by rewrite <- app_assoc.
    + destruct (Hne n) as [-> _]; [done|]. by rewrite lookup_insert_ne.
    + destruct (Hne n) as [_ ->]; [done|]. by rewrite lookup_insert_ne.
    + intros _. apply Hsome. rewrite lookup_insert_eq. eauto.
Qed.

Lemma ensure_pchans_total name w n :
  pchans (disp (ensure_pchans name w)) !!! n = pchans (disp w) !!! n.
Proof.
  unfold ensure_pchans. destruct (pchans (disp w) !! name) eqn:E; [done|]. simpl.
  destruct (decide (n = name)) as [->|Hne].
  - rewrite lookup_total_insert_eq. by rewrite lookup_total_alt, E.
  - by rewrite lookup_total_insert_ne.
Qed.

Lemma ensure_pchans_other name w n :
  n ≠ name → pchans (disp (ensure_pchans name w)) !! n = pchans (disp w) !! n.
Proof.
  intros Hne. unfold ensure_pchans. destruct (pchans (disp w) !! name); [done|]. simpl.
  by rewrite lookup_insert_ne.
Qed.

Lemma ensure_pchans_frame name w :
  let w' := ensure_pchans name w in
  pool w' = pool w ∧ fresh w' = fresh w ∧ waiting w' = waiting w ∧ fatal w' = fatal w
  ∧ mu (disp w') = mu (disp w) ∧ paused (disp w') = paused (disp w)
  ∧ listeners (disp w') = listeners (disp w) ∧ qchans (disp w') = qchans (disp w).
Proof. unfold ensure_pchans. by destruct (pchans (disp w) !! name). Qed.

(** The body of [Dispatch] once the lock is taken, in closed form. *)
Lemma Dispatch_inv name e w w' :
  Dispatch name e w = Some w' →
  let hs := listeners (disp w) !!! name in
  let gs := spawned name e (fresh w) hs in
  mu (disp w) = false
  ∧ pool w' = pool w ++ gs
  ∧ fresh w' = fresh w + 2 * length hs
  ∧ waiting w' = waiting w ∧ fatal w' = fatal w
  ∧ mu (disp w') = false ∧ paused (disp w') = paused (disp w)
  ∧ listeners (disp w') = listeners (disp w)
  ∧ pchans (disp w') !!! name = list_to_set (g_p <$> gs) ∪ (pchans (disp w) !!! name)
  ∧ qchans (disp w') !!! name = (qchans (disp w) !!! name) ++ (Some ∘ g_q <$> gs)
  ∧ (∀ n, n ≠ name → pchans (disp w') !! n = pchans (disp w) !! n
                     ∧ qchans (disp w') !! n = qchans (disp w) !! n).
Proof.
  unfold Dispatch, Lock. destruct (mu (disp w)) eqn:Hmu; simpl; [done|].
  intros [= <-].
  set (w1 := set_disp (set_mu true (disp w)) w).
  pose proof (launch_loop name e (listeners (disp w) !!! name) (ensure_pchans name w1)) as H.
  pose proof (ensure_pchans_frame name w1) as He.
  simpl in H, He.
  destruct He as (Ep & Ef & Ew & Efa & Emu & Epa & El & Eq).
  rewrite Ef, Ep, Ew, Efa, El, Eq in H.
  destruct H as (Hp & Hf & Hw & Hfa & _ & Hpa & Hl & Hpc & Hqc & Hne & _).
  simpl. repeat split; try done.
  - by rewrite Hpa, Epa.
  - rewrite ensure_pchans_total in Hpc. done.
  - destruct (Hne n) as [-> _]; [done|]. by rewrite ensure_pchans_other.
  - by destruct (Hne n) as [_ ->].
Qed.

Lemma Dispatch_unlocked name e w : mu (disp w) = false → is_Some (Dispatch name e w).
Proof. intros Hmu. unfold Dispatch, Lock. rewrite Hmu. simpl. eauto. Qed.

(** The mutex is the only thing a call of [Dispatch] ever waits for. *)
Lemma Dispatch_blocks_only_on_mutex name e w :
  Dispatch name e w = None ↔ mu (disp w) = true.
Proof. unfold Dispatch, Lock. by destruct (mu (disp w)). Qed.

Lemma spawned_length name e base hs : length (spawned name e base hs) = length hs.
Proof. revert base. induction hs as [|l hs IH]; intros base; simpl; [done|]. by rewrite IH. Qed.

Lemma spawned_parity name e base hs :
  Forall (λ g, ∃ k, g_p g = base + 2 * k) (spawned name e base hs).
Proof.
  revert base. induction hs as [|l hs IH]; intros base; simpl; constructor.
  - exists 0. simpl. lia.
  - eapply Forall_impl; [apply IH|]. simpl. intros g [k Hk]. exists (S k). lia.
Qed.

Lemma spawned_p_q_disjoint name e base hs c :
  c ∈ g_p <$> spawned name e base hs → c ∈ g_q <$> spawned name e base hs → False.
Proof.
  intros Hp Hq.
  apply list_elem_of_fmap in Hp as (g1 & -> & H1).
  apply list_elem_of_fmap in Hq as (g2 & Heq & H2).
  pose proof (spawned_parity name e base hs) as Hpar.
  pose proof (spawned_shape name e base hs) as Hsh.
  rewrite Forall_forall in Hpar, Hsh.
  destruct (Hpar _ H1) as [k1 E1]. destruct (Hpar _ H2) as [k2 E2].
  destruct (Hsh _ H2) as (_ & _ & _ & _ & E3). lia.
Qed.

(** ** How the pool evolves *)

Lemma advance_refl g : advance g g.
Proof. split; [by repeat split | apply rtc_refl]. Qed.

Lemma advance_trans g1 g2 g3 : advance g1 g2 → advance g2 g3 → advance g1 g3.
Proof.
  intros [(?&?&?&?&?) Hr1] [(?&?&?&?&?) Hr2]. split.
  - repeat split; congruence.
  - by etrans.
Qed.

Lemma advance_set_pc g s : pc_next (g_pc g) s → advance g (set_pc s g).
Proof. intros H. split; [by repeat split | by apply rtc_once]. Qed.

Lemma advance_all_refl gs : Forall2 advance gs gs.
Proof. induction gs; constructor; auto using advance_refl. Qed.

Lemma advance_all_trans gs1 gs2 gs3 :
  Forall2 advance gs1 gs2 → Forall2 advance gs2 gs3 → Forall2 advance gs1 gs3.
Proof. intros H1 H2. eapply Forall2_trans; eauto using advance_trans. Qed.

Lemma alter_advance gs i g s :
  gs !! i = Some g → pc_next (g_pc g) s → Forall2 advance gs (alter (set_pc s) i gs).
Proof.
  revert i. induction gs as [|a gs IH]; intros [|i] Hi Hn; simpl in *; try done.
  - injection Hi as ->. constructor; [by apply advance_set_pc | apply advance_all_refl].
  - constructor; [apply advance_refl | by apply IH].
Qed.

Lemma try_send_advance c gs : Forall2 advance gs (try_send c gs).1.
Proof.
  induction gs as [|g gs IH]; simpl; [constructor|].
  destruct (receiving_on c g) eqn:E; simpl.
  - unfold receiving_on in E. apply bool_decide_eq_true in E as [E _].
    constructor; [|apply advance_all_refl].
    apply advance_set_pc. rewrite E. constructor.
  - constructor; [apply advance_refl | done].
Qed.

Lemma recv_advance c gs gs' : recv c gs = Some gs' → Forall2 advance gs gs'.
Proof.
  revert gs'. induction gs as [|g gs IH]; intros gs'; simpl; [done|].
  destruct (sending_on c g) eqn:E.
  - intros [= <-]. constructor; [|apply advance_all_refl].
    unfold sending_on in E. unfold after_send.
    destruct (g_pc g) as [| | |[|n]| |] eqn:Hpc; try done.
    apply advance_set_pc. rewrite Hpc. constructor.
  - destruct (recv c gs) as [r|]; simpl; [|done].
    intros [= <-]. constructor; [apply advance_refl | by apply IH].
Qed.

Lemma Resume_loop_frame ts w :
  let k := Resume_loop ts w in
  disp k.1 = disp w ∧ waiting k.1 = waiting w ∧ fresh k.1 = fresh w
  ∧ fatal k.1 = fatal w ∧ Forall2 advance (pool w) (pool k.1).
Proof.
  revert w. induction ts as [|[name c] ts IH]; intros w; simpl.
  - repeat split; auto using advance_all_refl.
  - destruct (IH (set_pool (try_send c (pool w)).1 w)) as (Hd & Hw & Hf & Hfa & Hp).
    simpl in *. repeat split; try done.
    eapply advance_all_trans; [apply try_send_advance | exact Hp].
Qed.

Lemma Resume_frame w :
  let w' := (Resume w).1 in
  listeners (disp w') = listeners (disp w) ∧ pchans (disp w') = pchans (disp w)
  ∧ qchans (disp w') = qchans (disp w) ∧ mu (disp w') = mu (disp w)
  ∧ paused (disp w') = false
  ∧ waiting w' = waiting w ∧ fresh w' = fresh w ∧ fatal w' = fatal w
  ∧ Forall2 advance (pool w) (pool w').
Proof.
  unfold Resume. destruct (paused (disp w)) eqn:Hp; simpl.
  - destruct (Resume_loop_frame (resume_targets (disp w)) w) as (Hd & Hw & Hf & Hfa & Hpool).
    simpl in *. rewrite Hd. by repeat split.
  - repeat split; auto using advance_all_refl.
Qed.

Lemma executeListener_pool i w w' :
  executeListener i w = Some w' → Forall2 advance (pool w) (pool w').
Proof.
  intros H. go_cases H g Hg Hpc.
  - injection H as <-. simpl. eapply alter_advance; [done|]. rewrite Hpc.
    destruct (paused (disp w)); constructor.
  - destruct (g_l g) as [|r|[|r]|tag]; injection H as <-; simpl;
      try apply advance_all_refl;
      (eapply alter_advance; [done|]; rewrite Hpc; constructor).
  - injection H as <-. simpl. eapply alter_advance; [done|]. rewrite Hpc. constructor.
  - injection H as <-. simpl. eapply alter_advance; [done|]. rewrite Hpc. constructor.
Qed.

Lemma Wait_step_pool w w' : Wait_step w = Some w' → Forall2 advance (pool w) (pool w').
Proof.
  intros H. wait_cases H f Hf Hlt Hq.
  - destruct (recv n (pool w)) as [gs|] eqn:Hr; simpl in H; [|done].
    injection H as <-. simpl. by eapply recv_advance.
  - injection H as <-. apply advance_all_refl.
  - injection H as <-. apply advance_all_refl.
  - injection H as <-. apply advance_all_refl.
Qed.

(** Every step of the process moves the goroutines already in the pool along
    the control flow of [executeListener] (or leaves them where they are) and
    appends the goroutines the call launches: only [Dispatch] launches any. *)
Lemma exec_pool c w w' :
  exec c w = Some w' →
  ∃ gs, Forall2 advance (pool w) gs ∧ pool w' = gs ++ launched c w.
Proof.
  unfold exec. destruct (fatal w); [done|].
  destruct c as [ev l|ev l|name e| | |ev| |i]; simpl; intros H.
  - injection H as <-. exists (pool w). rewrite app_nil_r. auto using advance_all_refl.
  - injection H as <-. exists (pool w). rewrite app_nil_r. auto using advance_all_refl.
  - exists (pool w). split; [apply advance_all_refl|].
    by destruct (Dispatch_inv _ _ _ _ H) as (_ & Hp & _).
  - injection H as <-. exists (pool w). rewrite app_nil_r. auto using advance_all_refl.
  - injection H as <-. exists (pool (Resume w).1). rewrite app_nil_r. split; [|done].
    apply Resume_frame.
  - unfold Wait, Lock in H. destruct (mu (disp w)); simpl in H; [done|].
    injection H as <-. exists (pool w). rewrite app_nil_r. auto using advance_all_refl.
  - exists (pool w'). rewrite app_nil_r. split; [|done]. by apply Wait_step_pool.
  - exists (pool w'). rewrite app_nil_r. split; [|done]. by eapply executeListener_pool.
Qed.

Lemma run_invariant (P : World → Prop) :
  (∀ c w w', P w → exec c w = Some w' → P w') →
  ∀ cs w w', P w → run cs w = Some w' → P w'.
Proof.
  intros Hstep cs. induction cs as [|c cs IH]; intros w w' HP; simpl.
  - by intros [= <-].
  - destruct (exec c w) as [w1|] eqn:E; simpl; [|done]. eauto.
Qed.

Lemma reachable_invariant (P : World → Prop) :
  P boot → (∀ c w w', P w → exec c w = Some w' → P w') → ∀ w, reachable w → P w.
Proof. intros H0 Hstep w [cs Hcs]. eapply run_invariant; eauto. Qed.

Lemma advance_handlers gs gs' : Forall2 advance gs gs' → g_l <$> gs' = g_l <$> gs.
Proof.
  induction 1 as [|g g' gs gs' Ha _ IH]; csimpl; [done|].
  destruct Ha as [(_ & Hl & _) _]. by rewrite Hl, IH.
Qed.

Lemma exec_no_dispatch_handlers c w w' :
  is_dispatch c = false → exec c w = Some w' → g_l <$> pool w' = g_l <$> pool w.
Proof.
  intros Hc H. apply exec_pool in H as (gs & Hadv & ->).
  destruct c; try done; simpl; rewrite app_nil_r; by apply advance_handlers.
Qed.

Lemma run_no_dispatch_handlers cs w w' :
  Forall (λ c, is_dispatch c = false) cs → run cs w = Some w' →
  g_l <$> pool w' = g_l <$> pool w.
Proof.
  revert w. induction cs as [|c cs IH]; intros w Hcs; simpl.
  - by intros [= <-].
  - inversion Hcs as [|? ? Hc Hcs']; subst.
    destruct (exec c w) as [w1|] eqn:E; simpl; [|done].
    intros H. rewrite (IH _ Hcs' H). by eapply exec_no_dispatch_handlers.
Qed.

(** C6. The goroutines a call of [Dispatch] launches run the listeners that
    were registered for the event when the call was made, one each, in order:
    nothing else decides them.  Registering a listener once the call has
    returned starts nothing, and neither does any later step of the process
    that is not another [Dispatch]: the pool keeps its size and handlers. *)
Theorem Dispatch_ignores_later_registration
    (name : string) (e : Event) (w w1 : World) :
  Dispatch name e w = Some w1 →
  pool w1 = pool w ++ drop (length (pool w)) (pool w1)
  ∧ g_l <$> drop (length (pool w)) (pool w1) = listeners (disp w) !!! name
  ∧ (∀ l, pool (Listener name l w1) = pool w1)
  ∧ (∀ l, pool (ListenerFunc name l w1) = pool w1)
  ∧ (∀ cs w2, Forall (λ c, is_dispatch c = false) cs → run cs w1 = Some w2 →
       length (pool w2) = length (pool w1)
       ∧ g_l <$> pool w2 = g_l <$> pool w1).
Proof.
  intros Hd. destruct (Dispatch_inv _ _ _ _ Hd) as (_ & Hp & _).
  assert (Hdrop : drop (length (pool w)) (pool w1)
                  = spawned name e (fresh w) (listeners (disp w) !!! name)).
  { rewrite Hp. by rewrite drop_app_length. }
  rewrite Hdrop. split; [done|]. split; [apply spawned_handlers|].
  split; [done|]. split; [done|].
  intros cs w2 Hcs Hrun.
  pose proof (run_no_dispatch_handlers _ _ _ Hcs Hrun) as E.
  split; [|done].
  apply (f_equal length) in E. by rewrite !length_fmap in E.
Qed.

(** ** The pause check *)

Lemma pc_next_rank s s' : pc_next s s' → rank s ≤ rank s'.
Proof. destruct 1; simpl; lia. Qed.

Lemma rtc_pc_next_rank s s' : rtc pc_next s s' → rank s ≤ rank s'.
Proof. induction 1 as [|s1 s2 s3 H _ IH]; [done|]. apply pc_next_rank in H. lia. Qed.

Lemma past_check_rank s : past_check s = true ↔ 2 ≤ rank s.
Proof. destruct s; simpl; split; intros; try done; lia. Qed.

Lemma exec_advance c w w' i g :
  exec c w = Some w' → pool w !! i = Some g →
  ∃ g', pool w' !! i = Some g' ∧ advance g g'.
Proof.
  intros H Hi. apply exec_pool in H as (gs & Hadv & ->).
  destruct (Forall2_lookup_l _ _ _ _ _ Hadv Hi) as (g' & Hg' & Ha).
  exists g'. split; [|done]. by apply lookup_app_l_Some.
Qed.

Lemma run_advance cs w w' i g :
  run cs w = Some w' → pool w !! i = Some g →
  ∃ g', pool w' !! i = Some g' ∧ advance g g'.
Proof.
  revert w g. induction cs as [|c cs IH]; intros w g; simpl.
  - intros [= <-] Hi. eauto using advance_refl.
  - destruct (exec c w) as [w1|] eqn:E; simpl; [|done]. intros H Hi.
    destruct (exec_advance _ _ _ _ _ E Hi) as (g1 & Hg1 & Ha1).
    destruct (IH _ _ H Hg1) as (g' & Hg' & Ha'). eauto using advance_trans.
Qed.

Lemma executeListener_force_paused b i w g :
  pool w !! i = Some g → g_pc g ≠ AtPauseCheck →
  executeListener i (force_paused b w) = force_paused b <$> executeListener i w.
Proof.
  intros Hi Hne. unfold executeListener. simpl. rewrite Hi. simpl.
  destruct (g_pc g) as [| | |[|n]| |]; try done.
  by destruct (g_l g) as [|r|[|r]|tag].
Qed.

(** C5. A goroutine evaluates [d.paused] at its first program point only:
    its step from there goes to the blocking receive or to the type switch
    according to the flag; at every other program point its step is the same
    whatever the flag is, so [Pause] changes nothing for it; whatever the
    process does next, the goroutine only moves forward, so it never comes
    back to the check, and the listener body comes after the check; once it
    is past the check it stays past it: it neither blocks on the pause
    channel nor reads the flag again. *)
Theorem paused_flag_read_once (w : World) (i : nat) (g : goroutine) :
  pool w !! i = Some g →
  (g_pc g = AtPauseCheck → fatal w = None →
     ∃ w' g', exec (GoStep i) w = Some w' ∧ pool w' !! i = Some g'
              ∧ g_pc g' = (if paused (disp w) then AtRecvP else AtSwitch))
  ∧ (g_pc g ≠ AtPauseCheck →
     pool (Pause w) = pool w
     ∧ executeListener i (Pause w) = Pause <$> executeListener i w
     ∧ ∀ b, executeListener i (force_paused b w)
            = force_paused b <$> executeListener i w)
  ∧ (∀ cs w', run cs w = Some w' →
       ∃ g', pool w' !! i = Some g' ∧ same_frame g g'
             ∧ rank (g_pc g) ≤ rank (g_pc g')
             ∧ (past_check (g_pc g) = true → past_check (g_pc g') = true))
  ∧ rank AtPauseCheck < rank AtSwitch ∧ (∀ n, rank AtSwitch < rank (InBody n)).
Proof.
  intros Hi. split; [|split; [|split]].
  - intros Hpc Hf. unfold exec. rewrite Hf. unfold executeListener.
    rewrite Hi. simpl. rewrite Hpc.
    eexists _, _. split; [done|]. simpl.
    rewrite list_lookup_alter_eq, Hi. simpl. done.
  - intros Hne. split; [done|]. split.
    + by apply (executeListener_force_paused true i w g).
    + intros b. by apply (executeListener_force_paused b i w g).
  - intros cs w' Hrun.
    destruct (run_advance _ _ _ _ _ Hrun Hi) as (g' & Hg' & Hsame & Hrtc).
    exists g'. apply rtc_pc_next_rank in Hrtc.
    split; [done|]. split; [done|]. split; [lia|].
    rewrite !past_check_rank. lia.
  - simpl. split; [lia|]. intros _. lia.
Qed.

(** ** Resume *)

Lemma resume_targets_elem d name c :
  (name, c) ∈ resume_targets d ↔ ∃ arr, pchans d !! name = Some arr ∧ c ∈ arr.
Proof.
  unfold resume_targets. rewrite list_elem_of_bind. split.
  - intros ([n arr] & Hin & Hm). apply list_elem_of_fmap in Hin as (c' & [= -> ->] & Hc).
    apply elem_of_map_to_list in Hm. apply elem_of_elements in Hc. eauto.
  - intros (arr & Hm & Hc). exists (name, arr). split.
    + apply list_elem_of_fmap. exists c. split; [done|]. by apply elem_of_elements.
    + by apply elem_of_map_to_list.
Qed.

Lemma resume_targets_NoDup d : NoDup (resume_targets d).
Proof.
  unfold resume_targets. apply NoDup_bind.
  - intros [n1 a1] [n2 a2] [n c] H1 H2 Hc1 Hc2.
    apply list_elem_of_fmap in Hc1 as (c1 & [= -> ->] & _).
    apply list_elem_of_fmap in Hc2 as (c2 & [= -> ->] & _).
    apply elem_of_map_to_list in H1, H2. congruence.
  - intros [n arr] _. apply NoDup_fmap_2; [|apply NoDup_elements].
    intros c1 c2 [= ->]. done.
  - apply NoDup_map_to_list.
Qed.

Lemma try_send_delivered c gs :
  (try_send c gs).2 = true ↔ ∃ g, g ∈ gs ∧ g_pc g = AtRecvP ∧ g_p g = c.
Proof.
  induction gs as [|g gs IH]; simpl.
  - split; [done|]. intros (g & Hg & _). by apply not_elem_of_nil in Hg.
  - destruct (receiving_on c g) eqn:E; simpl.
    + unfold receiving_on in E. apply bool_decide_eq_true in E as [E1 E2].
      split; [|done]. intros _. exists g. split; [left|done].
    + rewrite IH. unfold receiving_on in E. apply bool_decide_eq_false in E.
      split.
      * intros (g' & Hg' & H'). exists g'. split; [by right|done].
      * intros (g' & Hg' & H1 & H2). apply elem_of_cons in Hg' as [->|Hg'].
        -- by destruct E.
        -- eauto.
Qed.

Lemma try_send_dropped c gs : (try_send c gs).2 = false → (try_send c gs).1 = gs.
Proof.
  induction gs as [|g gs IH]; simpl; [done|].
  destruct (receiving_on c g); simpl; [done|]. intros H. by rewrite IH.
Qed.

Lemma Resume_loop_app ts1 ts2 w :
  Resume_loop (ts1 ++ ts2) w
  = ((Resume_loop ts2 (Resume_loop ts1 w).1).1,
     (Resume_loop ts1 w).2 ++ (Resume_loop ts2 (Resume_loop ts1 w).1).2).
Proof.
  revert w. induction ts1 as [|[name c] ts1 IH]; intros w; simpl.
  - by destruct (Resume_loop ts2 w).
  - by rewrite IH.
Qed.

Lemma Resume_loop_log ts w : (λ a, a.1) <$> (Resume_loop ts w).2 = ts.
Proof.
  revert w. induction ts as [|[name c] ts IH]; intros w; simpl; [done|]. by rewrite IH.
Qed.

(** The [k]-th attempt of the loop is the non-blocking send on the [k]-th
    target, made in the world the first [k] attempts have left. *)
Lemma Resume_loop_attempt ts w k name c b :
  (Resume_loop ts w).2 !! k = Some (name, c, b) →
  let wk := (Resume_loop (take k ts) w).1 in
  ts !! k = Some (name, c)
  ∧ b = (try_send c (pool wk)).2
  ∧ pool (Resume_loop (take (S k) ts) w).1 = (try_send c (pool wk)).1.
Proof.
  intros Hk. simpl.
  assert (Hts : ts !! k = Some (name, c)).
  { rewrite <- (Resume_loop_log ts w). rewrite list_lookup_fmap, Hk. done. }
  split; [done|].
  rewrite (take_S_r _ _ _ Hts).
  rewrite <- (take_drop_middle _ _ _ Hts) in Hk at 1.
  rewrite !Resume_loop_app in *. simpl in *.
  assert (Hlen : length (Resume_loop (take k ts) w).2 = k).
  { rewrite <- (length_fmap (λ a, a.1)), Resume_loop_log, length_take.
    apply lookup_lt_Some in Hts. lia. }
  rewrite lookup_app_r in Hk by lia. rewrite Hlen, Nat.sub_diag in Hk. simpl in Hk.
  injection Hk as <-. done.
Qed.

(** C8. [Resume] on a dispatcher that is not paused returns at once: the
    world (listeners, pause channels, quit channels, flag, mutex, goroutines)
    is the one it was called in and no send was attempted. *)
Theorem Resume_not_paused_is_noop (w : World) :
  paused (disp w) = false → Resume w = (w, []).
Proof. intros Hp. unfold Resume. by rewrite Hp. Qed.

(** A dropped signal is not kept: the goroutine launched while paused was not
    yet at its receive when [Resume] ran, and after a second [Pause] it blocks
    with no signal waiting for it. *)
Example dropped_signal_is_lost :
  (λ w, (g_pc <$> pool w, paused (disp w), executeListener 0 w))
    <$> run [CListenerFunc "e" (Func 1); CPause; CDispatch "e" ev0;
             CResume; CPause; GoStep 0] boot
  = Some ([AtRecvP], true, None).
Proof. vm_compute. reflexivity. Qed.

(** ** The type switch *)

(** C7. A goroutine whose listener value is of neither recognized kind
    panics with "Invalid listener" at the type switch: its step there kills
    the process, and nothing runs afterwards, so the listener is not skipped
    with the goroutine going on to its end, and nothing else is changed.  On
    a dispatcher that is not paused the type switch is the step right after
    the pause check, so the goroutine panics at its second step. *)
Theorem invalid_listener_panics (w : World) (i : nat) (g : goroutine) :
  pool w !! i = Some g → recognized (g_l g) = false → fatal w = None →
  (g_pc g = AtSwitch →
     exec (GoStep i) w = Some (set_fatal InvalidListener w))
  ∧ (g_pc g = AtPauseCheck → paused (disp w) = false →
     run [GoStep i; GoStep i] w
     = Some (set_fatal InvalidListener (update_pc i AtSwitch w)))
  ∧ (∀ w0 c, exec c (set_fatal InvalidListener w0) = None)
  ∧ disp (set_fatal InvalidListener w) = disp w
  ∧ pool (set_fatal InvalidListener w) = pool w.
Proof.
  intros Hi Hr Hf. split; [|split; [|split]].
  - intros Hpc. unfold exec. rewrite Hf. unfold executeListener.
    rewrite Hi. simpl. rewrite Hpc. by destruct (g_l g) as [|r|f|tag].
  - intros Hpc Hp.
    assert (H1 : exec (GoStep i) w = Some (update_pc i AtSwitch w)).
    { unfold exec. rewrite Hf. unfold executeListener. rewrite Hi. simpl.
      by rewrite Hpc, Hp. }
    assert (H2 : exec (GoStep i) (update_pc i AtSwitch w)
                 = Some (set_fatal InvalidListener (update_pc i AtSwitch w))).
    { unfold exec. simpl. rewrite Hf. unfold executeListener. simpl.
      rewrite list_lookup_alter_eq, Hi. simpl.
      by destruct (g_l g) as [|r|f|tag]. }
    rewrite !run_cons, H1. simpl. by rewrite H2.
  - done.
  - done.
Qed.

(** ** Registration through the public methods *)

Lemma run_invariant_on (Q : call → Prop) (P : World → Prop) :
  (∀ c w w', Q c → P w → exec c w = Some w' → P w') →
  ∀ cs w w', Forall Q cs → P w → run cs w = Some w' → P w'.
Proof.
  intros Hstep cs. induction cs as [|c cs IH]; intros w w' HQ HP; simpl.
  - by intros [= <-].
  - inversion HQ; subst.
    destruct (exec c w) as [w1|] eqn:E; simpl; [|done]. eauto.
Qed.

Lemma executeListener_disp i w w' :
  executeListener i w = Some w' →
  listeners (disp w') = listeners (disp w) ∧ qchans (disp w') = qchans (disp w)
  ∧ mu (disp w') = mu (disp w) ∧ paused (disp w') = paused (disp w)
  ∧ waiting w' = waiting w ∧ fresh w' = fresh w.
Proof.
  intros H. go_cases H g Hg Hpc.
  - by injection H as <-.
  - by destruct (g_l g) as [|r|[|r]|tag]; injection H as <-.
  - by injection H as <-.
  - by injection H as <-.
Qed.

Lemma Wait_step_disp w w' :
  Wait_step w = Some w' →
  listeners (disp w') = listeners (disp w) ∧ pchans (disp w') = pchans (disp w)
  ∧ paused (disp w') = paused (disp w) ∧ fresh w' = fresh w.
Proof.
  intros H. wait_cases H f Hf Hlt Hq.
  - destruct (recv n (pool w)) as [gs|]; simpl in H; [|done]. by injection H as <-.
  - by injection H as <-.
  - by injection H as <-.
  - by injection H as <-.
Qed.

Lemma exec_listeners c w w' :
  exec c w = Some w' →
  listeners (disp w')
  = match c with
    | CListener ev l =>
        <[ev := (listeners (disp w) !!! ev) ++ [box_listener l]]> (listeners (disp w))
    | CListenerFunc ev l =>
        <[ev := (listeners (disp w) !!! ev) ++ [box_func l]]> (listeners (disp w))
    | _ => listeners (disp w)
    end.
Proof.
  unfold exec. destruct (fatal w); [done|].
  destruct c as [ev l|ev l|name e| | |ev| |i]; simpl; intros H.
  - by injection H as <-.
  - by injection H as <-.
  - by destruct (Dispatch_inv _ _ _ _ H) as (_ & _ & _ & _ & _ & _ & _ & Hl & _).
  - by injection H as <-.
  - injection H as <-. apply Resume_frame.
  - unfold Wait, Lock in H. destruct (mu (disp w)); simpl in H; [done|].
    by injection H as <-.
  - by apply Wait_step_disp.
  - by eapply executeListener_disp.
Qed.

Lemma all_recognized_step c w w' :
  registers_nil_listener c = false →
  all_recognized w → exec c w = Some w' → all_recognized w'.
Proof.
  intros Hc (Hl & Hp & Hf) H.
  pose proof (exec_listeners _ _ _ H) as El.
  destruct (exec_pool _ _ _ H) as (gs & Hadv & Epool).
  assert (Hgs : Forall (λ g, recognized (g_l g) = true) gs).
  { apply (Forall_fmap g_l (λ v, recognized v = true)).
    rewrite (advance_handlers _ _ Hadv). by apply Forall_fmap. }
  assert (Hnew : Forall (λ g, recognized (g_l g) = true) (launched c w)).
  { destruct c; simpl; try constructor.
    apply (Forall_fmap g_l (λ v, recognized v = true)).
    rewrite spawned_handlers. apply Hl. }
  split; [|split].
  - intros ev. rewrite El.
    destruct c as [ev' l|ev' l| | | | | |]; try apply Hl.
    + destruct (decide (ev = ev')) as [->|Hne].
      * rewrite lookup_total_insert_eq. apply Forall_app. split; [apply Hl|].
        constructor; [|constructor]. by destruct l.
      * rewrite lookup_total_insert_ne by done. apply Hl.
    + destruct (decide (ev = ev')) as [->|Hne].
      * rewrite lookup_total_insert_eq. apply Forall_app. split; [apply Hl|].
        by constructor; [|constructor].
      * rewrite lookup_total_insert_ne by done. apply Hl.
  - rewrite Epool. apply Forall_app. by split.
  - unfold exec in H. destruct (fatal w) eqn:Ef; [done|].
    destruct c as [ev l|ev l|name e| | |ev| |i]; simpl in H.
    + injection H as <-. simpl. by rewrite Ef.
    + injection H as <-. simpl. by rewrite Ef.
    + destruct (Dispatch_inv _ _ _ _ H) as (_ & _ & _ & _ & Hfa & _). by rewrite Hfa, Ef.
    + injection H as <-. simpl. by rewrite Ef.
    + injection H as <-. destruct (Resume_frame w) as (_&_&_&_&_&_&_&Hfa&_).
      simpl in Hfa. by rewrite Hfa, Ef.
    + unfold Wait, Lock in H. destruct (mu (disp w)); simpl in H; [done|].
      injection H as <-. simpl. by rewrite Ef.
    + wait_cases H f Hwf Hlt Hq.
      * destruct (recv n (pool w)) as [gs'|]; simpl in H; [|done].
        injection H as <-. simpl. by rewrite Ef.
      * injection H as <-. simpl. by rewrite Ef.
      * by injection H as <-.
      * injection H as <-. simpl. by rewrite Ef.
    + go_cases H g Hg Hpc.
      * injection H as <-. simpl. by rewrite Ef.
      * rewrite Forall_forall in Hp.
        assert (Hrec : recognized (g_l g) = true).
        { apply Hp. eapply list_elem_of_lookup_2. exact Hg. }
        destruct (g_l g) as [|r|[|r]|tag]; try done; injection H as <-; simpl;
          by rewrite ?Ef.
      * injection H as <-. simpl. by rewrite Ef.
      * injection H as <-. simpl. by rewrite Ef.
Qed.

(** C9, as stated, fails: a nil [Listener] passes the static type of the
    parameter, is stored as the nil interface, which has no dynamic type,
    and takes the goroutine to the default branch of the type switch. *)
Lemma nil_Listener_reaches_default_branch :
  (λ w, listeners (disp w) !! "e") <$> run [CListener "e" ListenerNil] boot
  = Some (Some [VNil])
  ∧ recognized VNil = false
  ∧ fatal <$> run [CListener "e" ListenerNil; CDispatch "e" ev0;
                   GoStep 0; GoStep 0] boot
    = Some (Some InvalidListener).
Proof. vm_compute. done. Qed.

(** C9, amended. When no nil [Listener] is registered, every value stored by
    [Listener] and [ListenerFunc] has one of the two recognized dynamic types
    (a [ListenerFunc], nil or not, has dynamic type ListenerFunc), so has the
    value of every goroutine ever launched, and the default branch of the
    type switch is never taken: the process never panics with
    "Invalid listener". *)
Theorem public_registration_is_recognized (cs : list call) (w : World) :
  Forall (λ c, registers_nil_listener c = false) cs →
  run cs boot = Some w →
  (∀ ev, Forall (λ v, recognized v = true) (listeners (disp w) !!! ev))
  ∧ Forall (λ g, recognized (g_l g) = true) (pool w)
  ∧ fatal w ≠ Some InvalidListener.
Proof.
  intros Hcs Hrun.
  apply (run_invariant_on (λ c, registers_nil_listener c = false) all_recognized)
    with (cs := cs) (w := boot); try done.
  intros c w1 w2 Hc HP H. by eapply all_recognized_step.
Qed.

(** ** Bookkeeping of the pause channels *)

Lemma nudge_refl g : nudge g g.
Proof. by repeat split. Qed.

Lemma nudge_trans g1 g2 g3 : nudge g1 g2 → nudge g2 g3 → nudge g1 g3.
Proof.
  intros [(?&?&?&?&?) Hr1] [(?&?&?&?&?) Hr2]. split.
  - repeat split; congruence.
  - by rewrite Hr2.
Qed.

Lemma nudge_all_refl gs : Forall2 nudge gs gs.
Proof. induction gs; constructor; auto using nudge_refl. Qed.

Lemma nudge_set_pc g s : g_pc g ≠ Returned → s ≠ Returned → nudge g (set_pc s g).
Proof. intros H1 H2. split; [by repeat split|]. simpl. split; intros; done. Qed.

Lemma alter_nudge gs i g s :
  gs !! i = Some g → g_pc g ≠ Returned → s ≠ Returned →
  Forall2 nudge gs (alter (set_pc s) i gs).
Proof.
  revert i. induction gs as [|a gs IH]; intros [|i] Hi H1 H2; simpl in *; try done.
  - injection Hi as ->. constructor; [by apply nudge_set_pc | apply nudge_all_refl].
  - constructor; [apply nudge_refl | by apply IH].
Qed.

Lemma try_send_nudge c gs : Forall2 nudge gs (try_send c gs).1.
Proof.
  induction gs as [|g gs IH]; simpl; [constructor|].
  destruct (receiving_on c g) eqn:E; simpl.
  - unfold receiving_on in E. apply bool_decide_eq_true in E as [E _].
    constructor; [|apply nudge_all_refl]. apply nudge_set_pc; [by rewrite E|done].
  - constructor; [apply nudge_refl | done].
Qed.

Lemma recv_nudge c gs gs' : recv c gs = Some gs' → Forall2 nudge gs gs'.
Proof.
  revert gs'. induction gs as [|g gs IH]; intros gs'; simpl; [done|].
  destruct (sending_on c g) eqn:E.
  - intros [= <-]. constructor; [|apply nudge_all_refl].
    unfold sending_on in E. unfold after_send.
    destruct (g_pc g) as [| | |[|n]| |] eqn:Hpc; try done.
    apply nudge_set_pc; [by rewrite Hpc|done].
  - destruct (recv c gs) as [r|]; simpl; [|done].
    intros [= <-]. constructor; [apply nudge_refl | by apply IH].
Qed.

Lemma Resume_loop_nudge ts w : Forall2 nudge (pool w) (pool (Resume_loop ts w).1).
Proof.
  revert w. induction ts as [|[name c] ts IH]; intros w; simpl.
  - apply nudge_all_refl.
  - eapply Forall2_trans; [apply nudge_trans|apply try_send_nudge|].
    apply (IH (set_pool (try_send c (pool w)).1 w)).
Qed.

Lemma Resume_nudge w : Forall2 nudge (pool w) (pool (Resume w).1).
Proof.
  unfold Resume. destruct (paused (disp w)); simpl.
  - apply Resume_loop_nudge.
  - apply nudge_all_refl.
Qed.

(** A step of the process is a call of [Dispatch], or the last step of a
    goroutine (the delete), or a step that leaves [pchans] alone and returns
    no goroutine. *)
Lemma exec_gate_cases c w w' :
  exec c w = Some w' →
  (is_dispatch c = false ∧ Forall2 nudge (pool w) (pool w')
   ∧ pchans (disp w') = pchans (disp w) ∧ fresh w' = fresh w)
  ∨ (∃ name e, c = CDispatch name e ∧ Dispatch name e w = Some w')
  ∨ (∃ i g, c = GoStep i ∧ pool w !! i = Some g ∧ g_pc g = AtDelete
            ∧ w' = update_pc i Returned
                     (set_disp (delete_pchan (g_name g) (g_p g) (disp w)) w)).
Proof.
  unfold exec. destruct (fatal w); [done|].
  destruct c as [ev l|ev l|name e| | |ev| |i]; simpl; intros H.
  - left. injection H as <-. auto using nudge_all_refl.
  - left. injection H as <-. auto using nudge_all_refl.
  - right. left. eauto.
  - left. injection H as <-. auto using nudge_all_refl.
  - left. injection H as <-. destruct (Resume_frame w) as (_&Hpc&_&_&_&_&Hf&_).
    auto using Resume_nudge.
  - left. unfold Wait, Lock in H. destruct (mu (disp w)); simpl in H; [done|].
    injection H as <-. auto using nudge_all_refl.
  - left. destruct (Wait_step_disp _ _ H) as (_ & Hpc & _ & Hf).
    split; [done|]. split; [|done].
    wait_cases H f Hwf Hlt Hq.
    + destruct (recv n (pool w)) as [gs|] eqn:Hr; simpl in H; [|done].
      injection H as <-. simpl. by eapply recv_nudge.
    + injection H as <-. apply nudge_all_refl.
    + injection H as <-. apply nudge_all_refl.
    + injection H as <-. apply nudge_all_refl.
  - go_cases H g Hg Hpc.
    + left. injection H as <-. simpl. repeat split; try done.
      eapply alter_nudge; [done|by rewrite Hpc|by destruct (paused (disp w))].
    + left. destruct (g_l g) as [|r|[|r]|tag]; injection H as <-; simpl;
        repeat split; try done; try apply nudge_all_refl;
        (eapply alter_nudge; [done|by rewrite Hpc|done]).
    + left. injection H as <-. simpl. repeat split; try done.
      eapply alter_nudge; [done|by rewrite Hpc|done].
    + right. right. exists i, g. by injection H as <-.
Qed.

Lemma nudge_pchans gs gs' : Forall2 nudge gs gs' → g_p <$> gs' = g_p <$> gs.
Proof.
  induction 1 as [|g g' gs gs' Ha _ IH]; csimpl; [done|].
  destruct Ha as [(_ & _ & _ & Hp & _) _]. by rewrite Hp, IH.
Qed.

Lemma spawned_upper name e base hs :
  Forall (λ g, g_p g < base + 2 * length hs) (spawned name e base hs).
Proof.
  revert base. induction hs as [|l hs IH]; intros base; simpl; constructor.
  - simpl. lia.
  - eapply Forall_impl; [apply IH|]. simpl. intros g Hg. lia.
Qed.

Lemma gates_ok_nudge w w' :
  gates_ok w → Forall2 nudge (pool w) (pool w') →
  pchans (disp w') = pchans (disp w) → fresh w' = fresh w → gates_ok w'.
Proof.
  intros (Ha & Hb & Hc) Hn Hpc Hf. split; [|split].
  - rewrite Hf. apply Forall_lookup. intros i g' Hg'.
    destruct (Forall2_lookup_r _ _ _ _ _ Hn Hg') as (g & Hg & [(_&_&_&Hp&_) _]).
    rewrite Hp. rewrite Forall_lookup in Ha. by eapply Ha.
  - by rewrite (nudge_pchans _ _ Hn).
  - rewrite Hpc. apply Forall_lookup. intros i g' Hg'.
    destruct (Forall2_lookup_r _ _ _ _ _ Hn Hg') as (g & Hg & [(Hname&_&_&Hp&_) Hr]).
    rewrite Hp, Hname, Hr. rewrite Forall_lookup in Hc. by eapply Hc.
Qed.

Lemma gates_ok_Dispatch name e w w' :
  gates_ok w → Dispatch name e w = Some w' → gates_ok w'.
Proof.
  intros (Ha & Hb & Hc) Hd.
  destruct (Dispatch_inv _ _ _ _ Hd) as (_ & Hp & Hf & _ & _ & _ & _ & _ & Hpc & _ & Hne).
  set (gs := spawned name e (fresh w) (listeners (disp w) !!! name)) in *.
  pose proof (spawned_shape name e (fresh w) (listeners (disp w) !!! name)) as Hsh.
  pose proof (spawned_upper name e (fresh w) (listeners (disp w) !!! name)) as Hup.
  fold gs in Hsh, Hup.
  split; [|split].
  - rewrite Hp, Hf. apply Forall_app. split; [|done].
    eapply Forall_impl; [exact Ha|]. simpl. intros g Hg. lia.
  - rewrite Hp, fmap_app. apply NoDup_app. split; [done|]. split; [|apply spawned_p_NoDup].
    intros c Hold Hnew.
    apply list_elem_of_fmap in Hold as (g1 & -> & Hg1).
    apply list_elem_of_fmap in Hnew as (g2 & E & Hg2).
    rewrite Forall_forall in Ha, Hsh.
    specialize (Ha _ Hg1). destruct (Hsh _ Hg2) as (_&_&_&Hge&_). lia.
  - rewrite Hp. apply Forall_app. split.
    + apply Forall_forall. intros g Hg. rewrite Forall_forall in Ha, Hc.
      rewrite <- (Hc _ Hg). specialize (Ha _ Hg).
      destruct (decide (g_name g = name)) as [->|Hn].
      * rewrite Hpc. rewrite elem_of_union, elem_of_list_to_set.
        split; [|by right]. intros [Hnew|Hold]; [|done].
        apply list_elem_of_fmap in Hnew as (g2 & E & Hg2).
        rewrite Forall_forall in Hsh. destruct (Hsh _ Hg2) as (_&_&_&Hge&_). lia.
      * destruct (Hne _ Hn) as [E _]. by rewrite !lookup_total_alt, E.
    + apply Forall_forall. intros g Hg. rewrite Forall_forall in Hsh.
      destruct (Hsh _ Hg) as (Hname & _ & Hpc' & _). rewrite Hname, Hpc, Hpc'.
      split; [done|]. intros _. apply elem_of_union. left.
      apply elem_of_list_to_set, list_elem_of_fmap. eauto.
Qed.

Lemma delete_pchan_total name p d n :
  pchans (delete_pchan name p d) !!! n
  = if decide (n = name) then (pchans d !!! n) ∖ {[p]} else pchans d !!! n.
Proof.
  unfold delete_pchan. simpl. rewrite !lookup_total_alt.
  destruct (decide (n = name)) as [->|Hne].
  - rewrite lookup_alter_eq. destruct (pchans d !! name); simpl; set_solver.
  - by rewrite lookup_alter_ne.
Qed.

Lemma gates_ok_delete i g w :
  gates_ok w → pool w !! i = Some g →
  gates_ok (update_pc i Returned
              (set_disp (delete_pchan (g_name g) (g_p g) (disp w)) w)).
Proof.
  intros (Ha & Hb & Hc) Hi.
  unfold gates_ok, update_pc, set_pool, set_disp. cbn [pool fresh disp].
  assert (Hps : g_p <$> alter (set_pc Returned) i (pool w) = g_p <$> pool w).
  { apply list_eq. intros j. rewrite !list_lookup_fmap.
    destruct (decide (j = i)) as [->|Hne].
    - rewrite list_lookup_alter_eq, Hi. done.
    - by rewrite list_lookup_alter_ne. }
  split; [|split].
  - apply (Forall_fmap g_p (λ p, p < fresh w)). rewrite Hps. by apply Forall_fmap.
  - by rewrite Hps.
  - apply Forall_lookup. intros j g' Hj. rewrite delete_pchan_total.
    destruct (decide (j = i)) as [->|Hne].
    + rewrite list_lookup_alter_eq, Hi in Hj. injection Hj as <-. simpl.
      rewrite decide_True by done. set_solver.
    + rewrite list_lookup_alter_ne in Hj by done.
      rewrite Forall_lookup in Hc. rewrite <- (Hc _ _ Hj).
      destruct (decide (g_name g' = g_name g)) as [E|E]; [|done].
      assert (g_p g' ≠ g_p g).
      { intros Heq. apply Hne. eapply NoDup_lookup; [exact Hb| |].
        - rewrite list_lookup_fmap, Hj. done.
        - rewrite list_lookup_fmap, Hi. simpl. by rewrite Heq. }
      set_solver.
Qed.

Lemma gates_ok_step c w w' : gates_ok w → exec c w = Some w' → gates_ok w'.
Proof.
  intros Hok H. destruct (exec_gate_cases _ _ _ H) as
    [(_ & Hn & Hpc & Hf)|[(name & e & -> & Hd)|(i & g & -> & Hi & Hpc & ->)]].
  - by eapply gates_ok_nudge.
  - by eapply gates_ok_Dispatch.
  - by apply gates_ok_delete.
Qed.

Lemma gates_ok_reachable w : reachable w → gates_ok w.
Proof.
  apply reachable_invariant.
  - split; [|split]; simpl; constructor.
  - intros c w1 w2. apply gates_ok_step.
Qed.

Lemma pchans_below_step c w w' : pchans_below w → exec c w = Some w' → pchans_below w'.
Proof.
  intros Hb H. destruct (exec_gate_cases _ _ _ H) as
    [(_ & _ & Hpc & Hf)|[(name & e & -> & Hd)|(i & g & -> & Hi & Hpc & ->)]].
  - unfold pchans_below. rewrite Hpc, Hf. exact Hb.
  - destruct (Dispatch_inv _ _ _ _ Hd) as (_ & _ & Hf & _ & _ & _ & _ & _ & Hpc & _ & Hne).
    intros n arr c Hn Hc. rewrite Hf.
    destruct (decide (n = name)) as [->|Hneq].
    + rewrite lookup_total_alt, Hn in Hpc. simpl in Hpc. rewrite Hpc in Hc.
      apply elem_of_union in Hc as [Hc|Hc].
      * apply elem_of_list_to_set, list_elem_of_fmap in Hc as (g & -> & Hg).
        pose proof (spawned_upper name e (fresh w) (listeners (disp w) !!! name)) as Hup.
        rewrite Forall_forall in Hup. by apply Hup.
      * rewrite lookup_total_alt in Hc.
        destruct (pchans (disp w) !! name) as [old|] eqn:E; simpl in Hc; [|set_solver].
        specialize (Hb _ _ _ E Hc). lia.
    + destruct (Hne _ Hneq) as [E _]. rewrite E in Hn. specialize (Hb _ _ _ Hn Hc). lia.
  - intros n arr c Hn Hc. simpl in Hn.
    destruct (decide (n = g_name g)) as [->|Hneq].
    + rewrite lookup_alter_eq in Hn.
      destruct (pchans (disp w) !! g_name g) as [old|] eqn:E; simpl in Hn; [|done].
      injection Hn as <-. apply (Hb _ _ _ E). set_solver.
    + rewrite lookup_alter_ne in Hn by done. by apply (Hb _ _ _ Hn).
Qed.

(** In every reachable world the channels of [pchans] are below [fresh]:
    the channels [Dispatch] makes are new to every set. *)
Lemma pchans_below_reachable w : reachable w → pchans_below w.
Proof.
  apply reachable_invariant.
  - intros n arr c Hn. simpl in Hn. by rewrite lookup_empty in Hn.
  - intros c w1 w2. apply pchans_below_step.
Qed.

Lemma hop_refl g : hop g g.
Proof. split; [by repeat split | by left]. Qed.

Lemma hop_all_refl gs : Forall2 hop gs gs.
Proof. induction gs; constructor; auto using hop_refl. Qed.

Lemma woken_refl g : woken g g.
Proof. split; [by repeat split | by left]. Qed.

Lemma woken_all_refl gs : Forall2 woken gs gs.
Proof. induction gs; constructor; auto using woken_refl. Qed.

Lemma woken_trans g1 g2 g3 : woken g1 g2 → woken g2 g3 → woken g1 g3.
Proof.
  intros [(?&?&?&?&?) Hr1] [(?&?&?&?&?) Hr2]. split.
  - repeat split; congruence.
  - destruct Hr1 as [E1|[E1 E1']], Hr2 as [E2|[E2 E2']]; try (left; congruence);
      right; split; congruence.
Qed.

Lemma woken_hop g g' : woken g g' → hop g g'.
Proof.
  intros [Hs [E|[E1 E2]]]; split; auto. right. rewrite E1, E2. constructor.
Qed.

Lemma try_send_woken c gs : Forall2 woken gs (try_send c gs).1.
Proof.
  induction gs as [|g gs IH]; simpl; [constructor|].
  destruct (receiving_on c g) eqn:E; simpl.
  - unfold receiving_on in E. apply bool_decide_eq_true in E as [E _].
    constructor; [|apply woken_all_refl]. split; [by repeat split|]. by right.
  - constructor; [apply woken_refl | done].
Qed.

Lemma Resume_loop_woken ts w : Forall2 woken (pool w) (pool (Resume_loop ts w).1).
Proof.
  revert w. induction ts as [|[name c] ts IH]; intros w; simpl.
  - apply woken_all_refl.
  - eapply Forall2_trans; [apply woken_trans|apply try_send_woken|].
    apply (IH (set_pool (try_send c (pool w)).1 w)).
Qed.

Lemma Resume_woken w : Forall2 woken (pool w) (pool (Resume w).1).
Proof.
  unfold Resume. destruct (paused (disp w)); simpl.
  - apply Resume_loop_woken.
  - apply woken_all_refl.
Qed.

Lemma alter_hop gs i g s :
  gs !! i = Some g → pc_next (g_pc g) s → Forall2 hop gs (alter (set_pc s) i gs).
Proof.
  revert i. induction gs as [|a gs IH]; intros [|i] Hi Hn; simpl in *; try done.
  - injection Hi as ->. constructor; [|apply hop_all_refl].
    split; [by repeat split | by right].
  - constructor; [apply hop_refl | by apply IH].
Qed.

Lemma recv_hop c gs gs' : recv c gs = Some gs' → Forall2 hop gs gs'.
Proof.
  revert gs'. induction gs as [|g gs IH]; intros gs'; simpl; [done|].
  destruct (sending_on c g) eqn:E.
  - intros [= <-]. constructor; [|apply hop_all_refl].
    unfold sending_on in E. unfold after_send.
    destruct (g_pc g) as [| | |[|n]| |] eqn:Hpc; try done.
    split; [by repeat split|]. right. simpl. rewrite Hpc. constructor.
  - destruct (recv c gs) as [r|]; simpl; [|done].
    intros [= <-]. constructor; [apply hop_refl | by apply IH].
Qed.

(** One step of the process moves each goroutine by at most one step of its
    own control flow. *)
Lemma exec_hop c w w' i g :
  exec c w = Some w' → pool w !! i = Some g →
  ∃ g', pool w' !! i = Some g' ∧ hop g g'.
Proof.
  intros H Hi.
  assert (Hall : ∃ gs, Forall2 hop (pool w) gs ∧ pool w' = gs ++ launched c w).
  { unfold exec in H. destruct (fatal w); [done|].
    destruct c as [ev l|ev l|name e| | |ev| |j]; simpl in *.
    - injection H as <-. exists (pool w). rewrite app_nil_r. auto using hop_all_refl.
    - injection H as <-. exists (pool w). rewrite app_nil_r. auto using hop_all_refl.
    - exists (pool w). split; [apply hop_all_refl|].
      by destruct (Dispatch_inv _ _ _ _ H) as (_ & Hp & _).
    - injection H as <-. exists (pool w). rewrite app_nil_r. auto using hop_all_refl.
    - injection H as <-. exists (pool (Resume w).1). rewrite app_nil_r. split; [|done].
      eapply Forall2_impl; [apply Resume_woken|]. apply woken_hop.
    - unfold Wait, Lock in H. destruct (mu (disp w)); simpl in H; [done|].
      injection H as <-. exists (pool w). rewrite app_nil_r. auto using hop_all_refl.
    - exists (pool w'). rewrite app_nil_r. split; [|done].
      wait_cases H f Hwf Hlt Hq.
      + destruct (recv n (pool w)) as [gs|] eqn:Hr; simpl in H; [|done].
        injection H as <-. simpl. by eapply recv_hop.
      + injection H as <-. apply hop_all_refl.
      + injection H as <-. apply hop_all_refl.
      + injection H as <-. apply hop_all_refl.
    - exists (pool w'). rewrite app_nil_r. split; [|done].
      go_cases H g0 Hg Hpc.
      + injection H as <-. simpl. eapply alter_hop; [done|]. rewrite Hpc.
        destruct (paused (disp w)); constructor.
      + destruct (g_l g0) as [|r|[|r]|tag]; injection H as <-; simpl;
          try apply hop_all_refl;
          (eapply alter_hop; [done|]; rewrite Hpc; constructor).
      + injection H as <-. simpl. eapply alter_hop; [done|]. rewrite Hpc. constructor.
      + injection H as <-. simpl. eapply alter_hop; [done|]. rewrite Hpc. constructor. }
  destruct Hall as (gs & Hhop & ->).
  destruct (Forall2_lookup_l _ _ _ _ _ Hhop Hi) as (g' & Hg' & Ha).
  exists g'. split; [|done]. by apply lookup_app_l_Some.
Qed.

(** C3, as stated, fails: the goroutine is past its pause check and inside
    the listener body (blocked in its send on the quit channel), and its
    pause channel 0 is still recorded under the event. *)
Lemma pchan_still_recorded_in_body :
  (λ w, (g_pc <$> pool w, g_p <$> pool w, elements (pchans (disp w) !!! "e")))
    <$> run [CListenerFunc "e" (Func 1); CDispatch "e" ev0; GoStep 0; GoStep 0] boot
  = Some ([InBody 1], [0], [0]).
Proof. vm_compute. reflexivity. Qed.

(** C3, amended. The pause channel of a goroutine launched by [Dispatch]
    stays recorded under its event until the goroutine has returned: through
    the pause check and through the whole listener body.  It is removed by
    the goroutine itself, in its last step, the one after the listener body
    has returned; no other step of the process removes it. *)
Theorem pchan_recorded_until_return (w : World) (i : nat) (g : goroutine) :
  reachable w → pool w !! i = Some g →
  (g_p g ∈ pchans (disp w) !!! g_name g ↔ g_pc g ≠ Returned)
  ∧ (g_pc g = AtDelete → fatal w = None →
       ∃ w', exec (GoStep i) w = Some w'
             ∧ pool w' !! i = Some (set_pc Returned g)
             ∧ g_p g ∉ pchans (disp w') !!! g_name g)
  ∧ (∀ c w', exec c w = Some w' →
       g_p g ∈ pchans (disp w) !!! g_name g →
       g_p g ∉ pchans (disp w') !!! g_name g →
       c = GoStep i ∧ g_pc g = AtDelete)
  ∧ (∀ c w' g', exec c w = Some w' → pool w' !! i = Some g' →
       g_pc g' = AtDelete → g_pc g = AtDelete ∨ g_pc g = InBody 0).
Proof.
  intros Hreach Hi.
  pose proof (gates_ok_reachable _ Hreach) as Hok.
  assert (Hinv : g_p g ∈ pchans (disp w) !!! g_name g ↔ g_pc g ≠ Returned).
  { destruct Hok as (_ & _ & Hc). rewrite Forall_lookup in Hc. by eapply Hc. }
  split; [done|]. split; [|split].
  - intros Hpc Hf.
    assert (He : exec (GoStep i) w
                 = Some (update_pc i Returned
                           (set_disp (delete_pchan (g_name g) (g_p g) (disp w)) w))).
    { unfold exec. rewrite Hf. unfold executeListener. rewrite Hi. simpl. by rewrite Hpc. }
    eexists. split; [exact He|]. split.
    + simpl. by rewrite list_lookup_alter_eq, Hi.
    + unfold update_pc, set_pool, set_disp. cbn [disp].
      rewrite delete_pchan_total, decide_True by done. set_solver.
  - intros c w' He Hin Hout.
    assert (Hok' : gates_ok w') by (by eapply gates_ok_step).
    destruct (exec_hop _ _ _ _ _ He Hi) as (g' & Hg' & (Hname&_&_&Hp&_) & _).
    assert (Hret : g_pc g' = Returned).
    { destruct Hok' as (_ & _ & Hc). rewrite Forall_lookup in Hc.
      specialize (Hc _ _ Hg'). rewrite Hp, Hname in Hc.
      destruct (decide (g_pc g' = Returned)); [done|]. exfalso. by apply Hout, Hc. }
    apply Hinv in Hin.
    destruct (exec_gate_cases _ _ _ He) as
      [(_ & Hn & _)|[(name & e & -> & Hd)|(j & g0 & -> & Hj & Hpc & ->)]].
    + destruct (Forall2_lookup_lr _ _ _ _ _ _ Hn Hi Hg') as [_ Hr]. by apply Hr in Hret.
    + destruct (Dispatch_inv _ _ _ _ Hd) as (_ & Hpool & _).
      rewrite Hpool in Hg'. rewrite (lookup_app_l_Some _ _ _ _ Hi) in Hg'.
      injection Hg' as <-. done.
    + destruct (decide (j = i)) as [->|Hne].
      * rewrite Hi in Hj. injection Hj as <-. done.
      * simpl in Hg'. rewrite list_lookup_alter_ne in Hg' by done.
        rewrite Hi in Hg'. injection Hg' as <-. done.
  - intros c w' g' He Hg' Hpc'.
    destruct (exec_hop _ _ _ _ _ He Hi) as (g2 & Hg2 & _ & Hstep).
    rewrite Hg' in Hg2. injection Hg2 as <-.
    destruct Hstep as [E|Hnext].
    + left. congruence.
    + right. rewrite Hpc' in Hnext. by inversion Hnext.
Qed.

(** ** The quit channels *)

Lemma launches_for_app E gs1 gs2 :
  launches_for E (gs1 ++ gs2) = launches_for E gs1 + launches_for E gs2.
Proof. unfold launches_for. by rewrite fmap_app, filter_app, length_app. Qed.

Lemma advance_names gs gs' : Forall2 advance gs gs' → g_name <$> gs' = g_name <$> gs.
Proof.
  induction 1 as [|g g' gs gs' Ha _ IH]; csimpl; [done|].
  destruct Ha as [(Hn & _) _]. by rewrite Hn, IH.
Qed.

Lemma launches_for_spawned E name e base hs :
  launches_for E (spawned name e base hs) = if decide (name = E) then length hs else 0.
Proof.
  unfold launches_for. revert base. induction hs as [|l hs IH]; intros base; csimpl.
  - by destruct (decide (name = E)).
  - rewrite filter_cons. specialize (IH (S (S base))).
    destruct (decide (name = E)); simpl; by rewrite IH.
Qed.

Lemma Wait_step_qchans_length w w' E :
  Wait_step w = Some w' →
  length (qchans (disp w') !!! E) = length (qchans (disp w) !!! E).
Proof.
  intros H. wait_cases H f Hf Hlt Hq.
  - destruct (recv n (pool w)) as [gs|]; simpl in H; [|done].
    injection H as <-. simpl.
    destruct (decide (E = w_event f)) as [->|Hne].
    + by rewrite lookup_total_insert_eq, length_insert.
    + by rewrite lookup_total_insert_ne.
  - by injection H as <-.
  - by injection H as <-.
  - by injection H as <-.
Qed.

Lemma exec_qchans_length c w w' E :
  exec c w = Some w' →
  length (qchans (disp w') !!! E)
  = length (qchans (disp w) !!! E) + launches_for E (launched c w).
Proof.
  unfold exec. destruct (fatal w); [done|].
  destruct c as [ev l|ev l|name e| | |ev| |i]; simpl; intros H;
    rewrite ?Nat.add_0_r.
  - by injection H as <-.
  - by injection H as <-.
  - destruct (Dispatch_inv _ _ _ _ H) as (_&_&_&_&_&_&_&_&_& Hq & Hne).
    rewrite launches_for_spawned.
    destruct (decide (name = E)) as [<-|Hn].
    + rewrite Hq, length_app, length_fmap. by rewrite spawned_length.
    + destruct (Hne E) as [_ Eq]; [done|]. rewrite !lookup_total_alt, Eq. lia.
  - by injection H as <-.
  - injection H as <-. destruct (Resume_frame w) as (_&_&Hq&_). simpl in Hq. by rewrite Hq.
  - unfold Wait, Lock in H. destruct (mu (disp w)); simpl in H; [done|].
    by injection H as <-.
  - by apply Wait_step_qchans_length.
  - destruct (executeListener_disp _ _ _ H) as (_ & Hq & _). by rewrite Hq.
Qed.

Lemma exec_launches_for c w w' E :
  exec c w = Some w' →
  launches_for E (pool w') = launches_for E (pool w) + launches_for E (launched c w).
Proof.
  intros H. destruct (exec_pool _ _ _ H) as (gs & Hadv & ->).
  rewrite launches_for_app. f_equal. unfold launches_for.
  by rewrite (advance_names _ _ Hadv).
Qed.

(** C10. The step of [Wait] keeps the length of every slice of quit channels
    (it overwrites an entry with nil, never removes one), and so does its
    entry.  In every reachable world the slice of an event is as long as the
    number of goroutines ever launched for that event.  No step of the
    process makes a slice shorter, and a call of [Dispatch] makes the slice of
    its event longer by the number of listeners registered for it. *)
Theorem qchans_length_counts_launches :
  (∀ w w' E, Wait_step w = Some w' →
     length (qchans (disp w') !!! E) = length (qchans (disp w) !!! E))
  ∧ (∀ ev w w', Wait ev w = Some w' → qchans (disp w') = qchans (disp w))
  ∧ (∀ w E, reachable w →
       length (qchans (disp w) !!! E) = launches_for E (pool w))
  ∧ (∀ c w w' E, exec c w = Some w' →
       length (qchans (disp w) !!! E) ≤ length (qchans (disp w') !!! E))
  ∧ (∀ name e w w', Dispatch name e w = Some w' →
       length (qchans (disp w') !!! name)
       = length (qchans (disp w) !!! name) + length (listeners (disp w) !!! name)).
Proof.
  split; [|split; [|split; [|split]]].
  - intros w w' E H. by apply Wait_step_qchans_length.
  - intros ev w w' H. unfold Wait, Lock in H.
    destruct (mu (disp w)); simpl in H; [done|]. by injection H as <-.
  - intros w E Hr. revert E.
    apply (reachable_invariant
             (λ w, ∀ E, length (qchans (disp w) !!! E) = launches_for E (pool w)));
      [| |done].
    + intros E. simpl. by rewrite lookup_total_empty.
    + intros c w1 w2 IH H E.
      rewrite (exec_qchans_length _ _ _ _ H), (exec_launches_for _ _ _ _ H). by rewrite IH.
  - intros c w w' E H. rewrite (exec_qchans_length _ _ _ _ H). lia.
  - intros name e w w' H.
    destruct (Dispatch_inv _ _ _ _ H) as (_&_&_&_&_&_&_&_&_& Hq & _).
    rewrite Hq, length_app, length_fmap. by rewrite spawned_length.
Qed.

(** ** Wait *)

Lemma wait_ok_frame w w' :
  wait_ok w → waiting w' = waiting w → mu (disp w') = mu (disp w) →
  qchans (disp w') = qchans (disp w) → wait_ok w'.
Proof. unfold wait_ok. intros H -> -> ->. done. Qed.

Lemma wait_ok_step c w w' : wait_ok w → exec c w = Some w' → wait_ok w'.
Proof.
  intros Hok. unfold exec. destruct (fatal w); [done|].
  destruct c as [ev l|ev l|name e| | |ev| |i]; simpl; intros H.
  - injection H as <-. by eapply wait_ok_frame.
  - injection H as <-. by eapply wait_ok_frame.
  - destruct (Dispatch_inv _ _ _ _ H) as (Hmu & _ & _ & Hw & _).
    unfold wait_ok in *. rewrite Hw. destruct (waiting w); [|done].
    destruct Hok as (Hmu' & _). congruence.
  - injection H as <-. by eapply wait_ok_frame.
  - injection H as <-. destruct (Resume_frame w) as (_&_&Hq&Hmu&_&Hw&_).
    by eapply wait_ok_frame.
  - unfold Wait, Lock in H. destruct (mu (disp w)); simpl in H; [done|].
    injection H as <-. unfold wait_ok. simpl. repeat split; try done; try lia.
  - wait_cases H f Hf Hlt Hq.
    + destruct (recv n (pool w)) as [gs|]; simpl in H; [|done].
      injection H as <-. unfold wait_ok in *. rewrite Hf in Hok. simpl.
      destruct Hok as (Hmu & Hlen & Hle & Hnil).
      rewrite lookup_total_insert_eq, length_insert.
      repeat split; try done; try lia.
      intros j Hj. destruct (decide (j = w_i f)) as [->|Hne].
      * apply list_lookup_insert_eq. lia.
      * rewrite list_lookup_insert_ne by done. apply Hnil. lia.
    + injection H as <-. unfold wait_ok in *. rewrite Hf in Hok. simpl.
      destruct Hok as (Hmu & Hlen & Hle & Hnil).
      repeat split; try done; try lia.
      intros j Hj. destruct (decide (j = w_i f)) as [->|Hne]; [done|].
      apply Hnil. lia.
    + injection H as <-. unfold wait_ok in *. simpl. by rewrite Hf in *.
    + by injection H as <-.
  - destruct (executeListener_disp _ _ _ H) as (_ & Hq & Hmu & _ & Hw & _).
    by eapply wait_ok_frame.
Qed.

Lemma wait_ok_reachable w : reachable w → wait_ok w.
Proof.
  apply reachable_invariant; [done|]. intros c w1 w2. apply wait_ok_step.
Qed.

Lemma recv_blocked c gs :
  recv c gs = None ↔ ∀ g, g ∈ gs → sending_on c g = false.
Proof.
  induction gs as [|g gs IH]; simpl.
  - split; [|done]. intros _ g Hg. by apply not_elem_of_nil in Hg.
  - destruct (sending_on c g) eqn:E.
    + split; [done|]. intros H. specialize (H g). rewrite E in H.
      discriminate H. by left.
    + rewrite fmap_None, IH. split.
      * intros H g' Hg'. apply elem_of_cons in Hg' as [->|Hg']; auto.
      * intros H g' Hg'. apply H. by right.
Qed.

(** The receive takes the value of the first goroutine of the pool that is
    blocked in a send on [c]; that goroutine has one send fewer to do and the
    others stay as they are. *)
Lemma recv_first c gs gs' :
  recv c gs = Some gs' →
  ∃ k g n, gs !! k = Some g ∧ g_q g = c ∧ g_pc g = InBody (S n)
           ∧ gs' = <[k := set_pc (InBody n) g]> gs.
Proof.
  revert gs'. induction gs as [|g gs IH]; intros gs'; simpl; [done|].
  destruct (sending_on c g) eqn:E.
  - intros [= <-]. unfold sending_on in E. unfold after_send.
    destruct (g_pc g) as [| | |[|n]| |] eqn:Hpc; try done.
    apply bool_decide_eq_true in E. exists 0, g, n. by repeat split.
  - destruct (recv c gs) as [r|]; simpl; [|done]. intros [= <-].
    destruct (IH r eq_refl) as (k & g0 & n & Hk & Hq & Hpc & ->).
    exists (S k), g0, n. by repeat split.
Qed.

Lemma exec_WaitStep w : fatal w = None → exec WaitStep w = Wait_step w.
Proof. intros Hf. unfold exec. by rewrite Hf. Qed.

(** A [Wait] whose remaining entries are all nil runs to its return by
    itself. *)
Lemma Wait_skips_to_return k w f :
  waiting w = Some f → fatal w = None →
  w_len f = length (qchans (disp w) !!! w_event f) →
  Forall (λ q, q = None) (qchans (disp w) !!! w_event f) →
  w_i f + k = w_len f →
  run (replicate (S k) WaitStep) w = Some (set_waiting None (Unlock w)).
Proof.
  revert w f. induction k as [|k IH]; intros w f Hw Hf Hlen Hnil Hk.
  - simpl. rewrite exec_WaitStep by done. unfold Wait_step. rewrite Hw. simpl.
    rewrite decide_False by lia. done.
  - change (replicate (S (S k)) WaitStep) with (WaitStep :: replicate (S k) WaitStep).
    rewrite run_cons, exec_WaitStep by done.
    assert (Hstep : Wait_step w = Some (set_waiting (Some (next_index f)) w)).
    { unfold Wait_step. rewrite Hw. simpl. rewrite decide_True by lia.
      destruct (lookup_lt_is_Some_2 (qchans (disp w) !!! w_event f) (w_i f)) as [q Hq];
        [lia|].
      rewrite Hq. rewrite Forall_lookup in Hnil. by rewrite (Hnil _ _ Hq). }
    rewrite Hstep. cbn [mbind option_bind].
    rewrite (IH (set_waiting (Some (next_index f)) w) (next_index f)); try done.
    simpl. lia.
Qed.

Lemma second_Wait_returns E w :
  waiting w = None → mu (disp w) = false → fatal w = None →
  Forall (λ q, q = None) (qchans (disp w) !!! E) →
  run (CWait E :: replicate (S (length (qchans (disp w) !!! E))) WaitStep) w = Some w.
Proof.
  intros Hw Hmu Hf Hnil. rewrite run_cons.
  assert (He : exec (CWait E) w
               = Some (set_waiting
                         (Some {| w_event := E; w_i := 0;
                                  w_len := length (qchans (disp w) !!! E) |})
                         (set_disp (set_mu true (disp w)) w))).
  { unfold exec. rewrite Hf. unfold Wait, Lock. by rewrite Hmu. }
  rewrite He. cbn [mbind option_bind].
  erewrite Wait_skips_to_return; try done.
  destruct w as [[m l p q pa] po wa fr fa]. simpl in *. by subst.
Qed.

(** One dispatch, one [Wait] that takes the signal, and a second [Wait] that
    finds the entry nil and returns by itself. *)
Example wait_twice :
  (λ w, (qchans (disp w) !!! "e", g_pc <$> pool w, mu (disp w), waiting w))
    <$> run [CListenerFunc "e" (Func 1); CDispatch "e" ev0; GoStep 0; GoStep 0;
             CWait "e"; WaitStep; WaitStep; GoStep 0; GoStep 0;
             CWait "e"; WaitStep; WaitStep] boot
  = Some ([None], [Returned], false, None).
Proof. vm_compute. reflexivity. Qed.

(** [Wait] is held at the entry as long as the listener has not sent. *)
Example wait_blocks_until_signal :
  run [CListenerFunc "e" (Func 1); CDispatch "e" ev0; CWait "e"; WaitStep] boot
  = None.
Proof. vm_compute. reflexivity. Qed.

(** The same event dispatched twice with two listeners: one [Wait] takes
    the four signals. *)
Example wait_after_two_dispatches :
  (λ w, (qchans (disp w) !!! "e", waiting w))
    <$> run [CListenerFunc "e" (Func 1); CListener "e" (ListenerImpl 1);
             CDispatch "e" ev0; CDispatch "e" ev0;
             GoStep 0; GoStep 0; GoStep 1; GoStep 1;
             GoStep 2; GoStep 2; GoStep 3; GoStep 3;
             CWait "e"; WaitStep; WaitStep; WaitStep; WaitStep; WaitStep] boot
  = Some ([None; None; None; None], None).
Proof. vm_compute. reflexivity. Qed.

(** C2. While [Wait] for an event is in progress it holds the mutex and
    goes through the quit channels of the event by increasing index, every
    entry before its index being nil already.  On a non-nil entry it blocks
    as long as no goroutine is sending on that channel; when one is, the
    step takes its value, the goroutine has one send fewer to do, the entry
    is overwritten with nil (nothing else in the slices changes) and the
    index moves on.  A nil entry is skipped without waiting.  At the end of
    the slice [Wait] returns, releasing the mutex, and every entry of the
    slice is nil.  A [Wait] on an event whose entries are all nil therefore
    runs from entry to return by itself, whatever the goroutines do, and
    leaves the world as it was. *)
Theorem Wait_consumes_qchans_in_order (w : World) (f : wait_frame) :
  reachable w → waiting w = Some f →
  let E := w_event f in
  let gates := qchans (disp w) !!! E in
  mu (disp w) = true ∧ w_len f = length gates ∧ w_i f ≤ length gates
  ∧ (∀ j, j < w_i f → gates !! j = Some None)
  ∧ (∀ c, gates !! w_i f = Some (Some c) →
       (Wait_step w = None ↔ ∀ g, g ∈ pool w → sending_on c g = false)
       ∧ (∀ w', Wait_step w = Some w' →
            waiting w' = Some (next_index f)
            ∧ qchans (disp w') !!! E = <[w_i f := None]> gates
            ∧ (∀ E', E' ≠ E → qchans (disp w') !!! E' = qchans (disp w) !!! E')
            ∧ ∃ k g n, pool w !! k = Some g ∧ g_q g = c ∧ g_pc g = InBody (S n)
                       ∧ pool w' = <[k := set_pc (InBody n) g]> (pool w)))
  ∧ (gates !! w_i f = Some None →
       Wait_step w = Some (set_waiting (Some (next_index f)) w))
  ∧ (w_i f = length gates →
       Wait_step w = Some (set_waiting None (Unlock w))
       ∧ Forall (λ q, q = None) gates)
  ∧ (∀ w0 E0, waiting w0 = None → mu (disp w0) = false → fatal w0 = None →
       Forall (λ q, q = None) (qchans (disp w0) !!! E0) →
       run (CWait E0 :: replicate (S (length (qchans (disp w0) !!! E0))) WaitStep) w0
       = Some w0).
Proof.
  intros Hr Hw. simpl.
  pose proof (wait_ok_reachable _ Hr) as Hok. unfold wait_ok in Hok. rewrite Hw in Hok.
  destruct Hok as (Hmu & Hlen & Hle & Hnil).
  split; [done|]. split; [done|]. split; [lia|]. split; [done|].
  split; [|split; [|split]].
  - intros c Hc.
    assert (Hlt : w_i f < w_len f).
    { apply lookup_lt_Some in Hc. lia. }
    assert (Hstep : Wait_step w
              = gs ← recv c (pool w);
                Some (set_waiting (Some (next_index f))
                        (set_pool gs
                           (set_disp
                              (set_qchans
                                 (<[w_event f := <[w_i f := None]>
                                                   (qchans (disp w) !!! w_event f)]>
                                    (qchans (disp w)))
                                 (disp w)) w)))).
    { unfold Wait_step. rewrite Hw. simpl. rewrite decide_True by done. by rewrite Hc. }
    rewrite Hstep. split.
    + rewrite <- recv_blocked. destruct (recv c (pool w)); simpl; split; done.
    + intros w' H'. destruct (recv c (pool w)) as [gs|] eqn:Hrecv; simpl in H'; [|done].
      injection H' as <-. simpl. split; [done|].
      split; [by rewrite lookup_total_insert_eq|].
      split; [intros E' Hne; by rewrite lookup_total_insert_ne|].
      by apply recv_first.
  - intros Hc.
    assert (Hlt : w_i f < w_len f).
    { apply lookup_lt_Some in Hc. lia. }
    unfold Wait_step. rewrite Hw. simpl. rewrite decide_True by done. by rewrite Hc.
  - intros Hend. split.
    + unfold Wait_step. rewrite Hw. simpl. rewrite decide_False by lia. done.
    + apply Forall_lookup. intros j q Hq.
      assert (Hj : j < w_i f). { apply lookup_lt_Some in Hq. lia. }
      rewrite (Hnil _ Hj) in Hq. by injection Hq as <-.
  - intros w0 E0. apply second_Wait_returns.
Qed.

Lemma Wait_consumes_qchans_in_order_witness :
  reachable w_waiting
  ∧ waiting w_waiting = Some {| w_event := "e"; w_i := 0; w_len := 1 |}
  ∧ mu (disp w_waiting) = true.
Proof.
  assert (Hr : reachable w_waiting).
  { exists [CListenerFunc "e" (Func 1); CDispatch "e" ev0; GoStep 0; GoStep 0; CWait "e"].
    vm_compute. reflexivity. }
  assert (Hw : waiting w_waiting = Some {| w_event := "e"; w_i := 0; w_len := 1 |}).
  { vm_compute. reflexivity. }
  split; [exact Hr|]. split; [exact Hw|].
  exact (proj1 (Wait_consumes_qchans_in_order w_waiting _ Hr Hw)).
Defined.

Lemma pchan_recorded_until_return_witness :
  reachable w_in_body
  ∧ pool w_in_body !! 0 = Some g_in_body
  ∧ (g_p g_in_body ∈ pchans (disp w_in_body) !!! g_name g_in_body
     ↔ g_pc g_in_body ≠ Returned).
Proof.
  assert (Hr : reachable w_in_body).
  { exists [CListenerFunc "e" (Func 1); CDispatch "e" ev0; GoStep 0; GoStep 0].
    vm_compute. reflexivity. }
  assert (Hi : pool w_in_body !! 0 = Some g_in_body).
  { vm_compute. reflexivity. }
  split; [exact Hr|]. split; [exact Hi|].
  exact (proj1 (pchan_recorded_until_return w_in_body 0 g_in_body Hr Hi)).
Defined.

Lemma paused_flag_read_once_witness :
  pool w_in_body !! 0 = Some g_in_body
  ∧ ∀ cs w', run cs w_in_body = Some w' →
      ∃ g', pool w' !! 0 = Some g' ∧ same_frame g_in_body g'
            ∧ rank (g_pc g_in_body) ≤ rank (g_pc g')
            ∧ (past_check (g_pc g_in_body) = true → past_check (g_pc g') = true).
Proof.
  assert (Hi : pool w_in_body !! 0 = Some g_in_body) by (vm_compute; reflexivity).
  split; [exact Hi|].
  exact (proj1 (proj2 (proj2 (paused_flag_read_once w_in_body 0 g_in_body Hi)))).
Defined.

Lemma Dispatch_ignores_later_registration_witness :
  Dispatch "e" ev0 w_registered = Some w_dispatched
  ∧ ∀ l, pool (Listener "e" l w_dispatched) = pool w_dispatched.
Proof.
  assert (Hd : Dispatch "e" ev0 w_registered = Some w_dispatched).
  { vm_compute. reflexivity. }
  split; [exact Hd|].
  exact (proj1 (proj2 (proj2
           (Dispatch_ignores_later_registration "e" ev0 w_registered w_dispatched Hd)))).
Defined.

Lemma invalid_listener_panics_witness :
  pool w_nil_listener !! 0 = Some g_nil_listener
  ∧ recognized (g_l g_nil_listener) = false
  ∧ fatal w_nil_listener = None
  ∧ exec (GoStep 0) w_nil_listener = Some (set_fatal InvalidListener w_nil_listener).
Proof.
  assert (Hi : pool w_nil_listener !! 0 = Some g_nil_listener) by (vm_compute; reflexivity).
  assert (Hf : fatal w_nil_listener = None) by (vm_compute; reflexivity).
  split; [exact Hi|]. split; [reflexivity|]. split; [exact Hf|].
  exact (proj1 (invalid_listener_panics w_nil_listener 0 g_nil_listener Hi eq_refl Hf)
               eq_refl).
Defined.

Lemma Resume_not_paused_is_noop_witness :
  paused (disp boot) = false ∧ Resume boot = (boot, []).
Proof. split; [reflexivity|]. exact (Resume_not_paused_is_noop boot eq_refl). Defined.

Lemma public_registration_is_recognized_witness :
  Forall (λ c, registers_nil_listener c = false) calls_without_nil
  ∧ (∃ w, run calls_without_nil boot = Some w
          ∧ fatal w ≠ Some InvalidListener).
Proof.
  assert (Hc : Forall (λ c, registers_nil_listener c = false) calls_without_nil).
  { repeat constructor. }
  split; [exact Hc|].
  exists (default boot (run calls_without_nil boot)).
  assert (Hr : run calls_without_nil boot
               = Some (default boot (run calls_without_nil boot))).
  { vm_compute. reflexivity. }
  split; [exact Hr|].
  exact (proj2 (proj2 (public_registration_is_recognized _ _ Hc Hr))).
Defined.

(** * Further properties *)

(** ** Registration *)

Lemma exec_listeners_for E c w w' :
  exec c w = Some w' →
  listeners (disp w') !!! E
  = listeners (disp w) !!! E ++ option_list (stored_for E c).
Proof.
  intros H. rewrite (exec_listeners _ _ _ H).
  destruct c as [ev l|ev l| | | | | |]; simpl; rewrite ?app_nil_r; try done.
  - destruct (decide (ev = E)) as [->|Hne]; simpl.
    + by rewrite lookup_total_insert_eq.
    + by rewrite lookup_total_insert_ne, app_nil_r.
  - destruct (decide (ev = E)) as [->|Hne]; simpl.
    + by rewrite lookup_total_insert_eq.
    + by rewrite lookup_total_insert_ne, app_nil_r.
Qed.

Lemma run_listeners_for E cs w w' :
  run cs w = Some w' →
  listeners (disp w') !!! E = listeners (disp w) !!! E ++ registered_in E cs.
Proof.
  revert w. induction cs as [|c cs IH]; intros w; simpl.
  - intros [= <-]. by rewrite app_nil_r.
  - destruct (exec c w) as [w1|] eqn:E1; simpl; [|done]. intros H.
    rewrite (IH _ H), (exec_listeners_for _ _ _ _ E1). unfold registered_in. simpl.
    rewrite <- app_assoc. f_equal. by destruct (stored_for E c).
Qed.

(** X1. The listeners of an event are the values registered for it, in the
    order of the calls and with repetitions: after any run of the process the
    slice of [E] is the one before followed by what the run registered for
    [E], and a [Dispatch] of [E] made then launches one goroutine for each of
    them, in that order. *)
Theorem listeners_are_registrations_in_order
    (E : string) (cs : list call) (w w' : World) :
  run cs w = Some w' →
  listeners (disp w') !!! E = listeners (disp w) !!! E ++ registered_in E cs
  ∧ ∀ e w'', Dispatch E e w' = Some w'' →
      g_l <$> drop (length (pool w')) (pool w'')
      = listeners (disp w) !!! E ++ registered_in E cs.
Proof.
  intros Hrun. pose proof (run_listeners_for E _ _ _ Hrun) as Hl.
  split; [done|]. intros e w'' Hd.
  destruct (Dispatch_inv _ _ _ _ Hd) as (_ & Hp & _).
  rewrite Hp, drop_app_length, spawned_handlers. done.
Qed.

(** ** Dispatch at the edges *)

(** X2. [Dispatch] of an event that has no listener launches nothing and
    makes no channel: all it does is give the event an empty set of pause
    channels if it had none; the slices of quit channels get no entry, not
    even an empty one for the event. *)
Theorem Dispatch_without_listeners (name : string) (e : Event) (w : World) :
  mu (disp w) = false → listeners (disp w) !!! name = [] →
  Dispatch name e w = Some (ensure_pchans name w)
  ∧ pool (ensure_pchans name w) = pool w
  ∧ fresh (ensure_pchans name w) = fresh w
  ∧ qchans (disp (ensure_pchans name w)) = qchans (disp w)
  ∧ pchans (disp (ensure_pchans name w)) !!! name = pchans (disp w) !!! name
  ∧ is_Some (pchans (disp (ensure_pchans name w)) !! name)
  ∧ ∀ n, n ≠ name →
      pchans (disp (ensure_pchans name w)) !! n = pchans (disp w) !! n.
Proof.
  intros Hmu Hnil.
  destruct (ensure_pchans_frame name w) as (Hp & Hf & _ & _ & _ & _ & _ & Hq).
  split; [|split; [done|split; [done|split; [done|split; [|split]]]]].
  - unfold Dispatch, Lock. rewrite Hmu. simpl. rewrite Hnil. simpl. f_equal.
    unfold ensure_pchans, Unlock. simpl.
    destruct w as [[m l p q pa] po wa fr fa]. simpl in *. subst m.
    by destruct (p !! name).
  - apply ensure_pchans_total.
  - unfold ensure_pchans. destruct (pchans (disp w) !! name) eqn:E; simpl.
    + rewrite E. eauto.
    + rewrite lookup_insert_eq. eauto.
  - intros n Hne. by apply ensure_pchans_other.
Qed.

Lemma Dispatch_without_listeners_witness :
  mu (disp boot) = false ∧ listeners (disp boot) !!! "e" = []
  ∧ Dispatch "e" ev0 boot = Some (ensure_pchans "e" boot).
Proof.
  split; [reflexivity|]. split; [reflexivity|].
  exact (proj1 (Dispatch_without_listeners "e" ev0 boot eq_refl eq_refl)).
Defined.

(** ** What the goroutines run *)

Lemma listeners_are_registrations_in_order_witness :
  run calls_without_nil boot
  = Some (default boot (run calls_without_nil boot))
  ∧ listeners (disp (default boot (run calls_without_nil boot))) !!! "e"
    = listeners (disp boot) !!! "e" ++ registered_in "e" calls_without_nil.
Proof.
  assert (Hr : run calls_without_nil boot
               = Some (default boot (run calls_without_nil boot))).
  { vm_compute. reflexivity. }
  split; [exact Hr|].
  exact (proj1 (listeners_are_registrations_in_order "e" _ _ _ Hr)).
Defined.

Lemma runs_registered_step c w w' :
  runs_registered w → exec c w = Some w' → runs_registered w'.
Proof.
  unfold runs_registered. intros Hinv H.
  destruct (exec_pool _ _ _ H) as (gs & Hadv & ->).
  apply Forall_app. split.
  - apply Forall_lookup. intros i g' Hg'.
    destruct (Forall2_lookup_r _ _ _ _ _ Hadv Hg') as (g & Hg & [(Hn & Hl & _) _]).
    rewrite Hn, Hl, (exec_listeners_for _ _ _ _ H). apply elem_of_app. left.
    rewrite Forall_lookup in Hinv. by eapply Hinv.
  - destruct c as [| |name e| | | | |]; simpl; try constructor.
    assert (El : listeners (disp w') = listeners (disp w)).
    { by rewrite (exec_listeners _ _ _ H). }
    rewrite El. apply Forall_forall. intros g Hg.
    pose proof (spawned_shape name e (fresh w) (listeners (disp w) !!! name)) as Hs.
    rewrite Forall_forall in Hs. destruct (Hs _ Hg) as (-> & _).
    rewrite <- (spawned_handlers name e (fresh w) (listeners (disp w) !!! name)).
    apply list_elem_of_fmap. eauto.
Qed.

(** X3. In every reachable world each goroutine runs a value that is
    registered for the event it was launched for: a listener never runs for
    another event than the ones it was registered for. *)
Theorem goroutines_run_registered_listeners (w : World) (g : goroutine) :
  reachable w → g ∈ pool w → g_l g ∈ listeners (disp w) !!! g_name g.
Proof.
  intros Hr Hg.
  assert (Hinv : runs_registered w).
  { revert Hr. apply reachable_invariant; [constructor|].
    intros c w1 w2. apply runs_registered_step. }
  unfold runs_registered in Hinv. rewrite Forall_forall in Hinv. by apply Hinv.
Qed.

Lemma goroutines_run_registered_listeners_witness :
  reachable w_in_body ∧ g_in_body ∈ pool w_in_body
  ∧ g_l g_in_body ∈ listeners (disp w_in_body) !!! g_name g_in_body.
Proof.
  assert (Hr : reachable w_in_body).
  { exists [CListenerFunc "e" (Func 1); CDispatch "e" ev0; GoStep 0; GoStep 0].
    vm_compute. reflexivity. }
  assert (Hg : g_in_body ∈ pool w_in_body).
  { apply (list_elem_of_lookup_2 _ 0). vm_compute. reflexivity. }
  split; [exact Hr|]. split; [exact Hg|].
  exact (goroutines_run_registered_listeners _ _ Hr Hg).
Defined.

(** ** Panics *)

(** The steps at which the process can die, with what they die of. *)
Lemma exec_fatal c w w' :
  exec c w = Some w' →
  fatal w' = None
  ∨ (∃ i g, c = GoStep i ∧ pool w !! i = Some g ∧ g_pc g = AtSwitch
            ∧ callable (g_l g) = false
            ∧ fatal w' = Some (if recognized (g_l g) then NilFuncCall else InvalidListener))
  ∨ (∃ f, c = WaitStep ∧ waiting w = Some f ∧ w_i f < w_len f
          ∧ (qchans (disp w) !!! w_event f) !! w_i f = None
          ∧ fatal w' = Some IndexOutOfRange).
Proof.
  unfold exec. destruct (fatal w) eqn:Ef; [done|].
  destruct c as [ev l|ev l|name e| | |ev| |i]; simpl; intros H.
  - left. injection H as <-. done.
  - left. injection H as <-. done.
  - left. destruct (Dispatch_inv _ _ _ _ H) as (_ & _ & _ & _ & Hfa & _). by rewrite Hfa.
  - left. injection H as <-. done.
  - left. injection H as <-. destruct (Resume_frame w) as (_&_&_&_&_&_&_&Hfa&_).
    simpl in Hfa. by rewrite Hfa.
  - left. unfold Wait, Lock in H. destruct (mu (disp w)); simpl in H; [done|].
    injection H as <-. done.
  - unfold Wait_step in H. destruct (waiting w) as [f|] eqn:Hf; simpl in H; [|done].
    destruct (decide (w_i f < w_len f)) as [Hlt|Hlt].
    + destruct ((qchans (disp w) !!! w_event f) !! w_i f) as [[c|]|] eqn:Hq.
      * left. destruct (recv c (pool w)) as [gs|]; simpl in H; [|done].
        injection H as <-. done.
      * left. injection H as <-. done.
      * right. right. exists f. injection H as <-. done.
    + left. injection H as <-. done.
  - unfold executeListener in H.
    destruct (pool w !! i) as [g|] eqn:Hg; simpl in H; [|done].
    destruct (g_pc g) as [| | |[|n]| |] eqn:Hpc; try done.
    + left. injection H as <-. done.
    + destruct (g_l g) as [|r|[|r]|tag] eqn:Hl; injection H as <-;
        try (left; done);
        right; left; exists i, g; rewrite Hl; done.
    + left. injection H as <-. done.
    + left. injection H as <-. done.
Qed.

(** X5. The index the loop of [Wait] uses is always within the slice of its
    event: in every reachable world the entry a [Wait] in progress is about
    to read and overwrite exists, and the process has never died of an index
    out of range. *)
Theorem Wait_index_in_range (w : World) :
  reachable w →
  fatal w ≠ Some IndexOutOfRange
  ∧ ∀ f, waiting w = Some f → w_i f < w_len f →
      is_Some ((qchans (disp w) !!! w_event f) !! w_i f).
Proof.
  intros Hr.
  assert (Hinv : wait_ok w ∧ fatal w ≠ Some IndexOutOfRange).
  { apply (reachable_invariant (λ w, wait_ok w ∧ fatal w ≠ Some IndexOutOfRange));
      [done| |done].
    intros c w1 w2 [Hok Hf] H. split; [by eapply wait_ok_step|].
    destruct (exec_fatal _ _ _ H) as [E|[(i & g & _ & _ & _ & _ & E)|(f & _ & Hw & Hlt & Hq & _)]].
    - by rewrite E.
    - rewrite E. by destruct (recognized (g_l g)).
    - exfalso. unfold wait_ok in Hok. rewrite Hw in Hok.
      destruct Hok as (_ & Hlen & _). apply lookup_ge_None in Hq. lia. }
  destruct Hinv as [Hok Hf]. split; [done|].
  intros f Hw Hlt. unfold wait_ok in Hok. rewrite Hw in Hok.
  destruct Hok as (_ & Hlen & _). apply lookup_lt_is_Some. lia.
Qed.

Lemma Wait_index_in_range_witness :
  reachable w_waiting ∧ fatal w_waiting ≠ Some IndexOutOfRange.
Proof.
  assert (Hr : reachable w_waiting).
  { exists [CListenerFunc "e" (Func 1); CDispatch "e" ev0; GoStep 0; GoStep 0; CWait "e"].
    vm_compute. reflexivity. }
  split; [exact Hr|]. exact (proj1 (Wait_index_in_range w_waiting Hr)).
Defined.

Lemma sound_step c w w' :
  registers_nil c = false → sound w → exec c w = Some w' → sound w'.
Proof.
  intros Hc (Hl & Hrun & Hok & Hf) H.
  assert (Hrun' : runs_registered w') by (by eapply runs_registered_step).
  assert (Hok' : wait_ok w') by (by eapply wait_ok_step).
  split; [|split; [done|split; [done|]]].
  - intros ev. rewrite (exec_listeners_for _ _ _ _ H). apply Forall_app. split; [apply Hl|].
    destruct c as [ev' [|r]|ev' [|r]| | | | | |]; simpl; try done; try constructor;
      destruct (decide (ev' = ev)); simpl; repeat constructor.
  - destruct (exec_fatal _ _ _ H) as [E|[(i & g & _ & Hg & _ & Hcall & _)|(f & _ & Hw & Hlt & Hq & _)]].
    + done.
    + exfalso. unfold runs_registered in Hrun. rewrite Forall_lookup in Hrun.
      specialize (Hrun _ _ Hg). specialize (Hl (g_name g)).
      rewrite Forall_forall in Hl. specialize (Hl _ Hrun). congruence.
    + exfalso. unfold wait_ok in Hok. rewrite Hw in Hok.
      destruct Hok as (_ & Hlen & _). apply lookup_ge_None in Hq. lia.
Qed.

(** X6. As long as no nil value is registered (neither a nil [Listener] nor
    a nil [ListenerFunc]), none of the panics of the dispatcher's own
    statements is reached, whatever is dispatched, paused, resumed and
    waited for: the type switch never takes its default branch, the
    function it calls is never nil, and [Wait] never indexes its slice out
    of range.  (What a listener does once called, a panic of its own
    included, and what the Go runtime does about unsynchronised accesses to
    the maps, are not in the model.) *)
Theorem no_nil_registration_no_dispatcher_panic (cs : list call) (w : World) :
  Forall (λ c, registers_nil c = false) cs →
  run cs boot = Some w →
  fatal w ≠ Some InvalidListener
  ∧ fatal w ≠ Some NilFuncCall
  ∧ fatal w ≠ Some IndexOutOfRange
  ∧ (∀ ev, Forall (λ v, callable v = true) (listeners (disp w) !!! ev))
  ∧ Forall (λ g, callable (g_l g) = true) (pool w).
Proof.
  intros Hcs Hrun.
  assert (Hs : sound w).
  { apply (run_invariant_on (λ c, registers_nil c = false) sound)
      with (cs := cs) (w := boot); try done.
    - intros c w1 w2 Hc HP H. by eapply sound_step.
    - split; [|split; [constructor|done]].
      intros ev. simpl. rewrite lookup_total_empty. constructor. }
  destruct Hs as (Hl & Hrr & _ & Hf). rewrite Hf.
  split; [done|]. split; [done|]. split; [done|]. split; [done|].
  unfold runs_registered in Hrr. rewrite Forall_forall in Hrr |- *.
  intros g Hg. specialize (Hl (g_name g)). rewrite Forall_forall in Hl.
  apply Hl. by apply Hrr.
Qed.

Lemma no_nil_registration_no_dispatcher_panic_witness :
  Forall (λ c, registers_nil c = false)
         [CListenerFunc "e" (Func 1); CDispatch "e" ev0; GoStep 0; GoStep 0]
  ∧ run [CListenerFunc "e" (Func 1); CDispatch "e" ev0; GoStep 0; GoStep 0] boot
    = Some w_in_body
  ∧ fatal w_in_body ≠ Some NilFuncCall.
Proof.
  assert (Hc : Forall (λ c, registers_nil c = false)
                 [CListenerFunc "e" (Func 1); CDispatch "e" ev0; GoStep 0; GoStep 0]).
  { repeat constructor. }
  assert (Hr : run [CListenerFunc "e" (Func 1); CDispatch "e" ev0; GoStep 0; GoStep 0] boot
               = Some w_in_body).
  { vm_compute. reflexivity. }
  split; [exact Hc|]. split; [exact Hr|].
  exact (proj1 (proj2 (no_nil_registration_no_dispatcher_panic _ _ Hc Hr))).
Defined.

(** ** Pause *)

Lemma executeListener_moves i w w' :
  executeListener i w = Some w' →
  ∃ g, pool w !! i = Some g
       ∧ (pool w' = pool w
          ∨ ∃ s, pool w' = alter (set_pc s) i (pool w)
                 ∧ ((g_pc g = AtPauseCheck
                     ∧ s = if paused (disp w) then AtRecvP else AtSwitch)
                    ∨ (past_check (g_pc g) = true ∧ past_check s = true))).
Proof.
  intros H. unfold executeListener in H.
  destruct (pool w !! i) as [g|] eqn:Hg; simpl in H; [|done].
  exists g. split; [done|].
  destruct (g_pc g) as [| | |[|n]| |] eqn:Hpc; try done.
  - injection H as <-. right. eexists. split; [done|]. by left.
  - destruct (g_l g) as [|r|[|r]|tag]; injection H as <-; simpl; auto;
      right; eexists; (split; [done|]); by right.
  - injection H as <-. right. eexists. split; [done|]. by right.
  - injection H as <-. right. eexists. split; [done|]. by right.
Qed.

Lemma paused_holds_step c w w' :
  is_resume c = false → paused (disp w) = true → exec c w = Some w' →
  paused (disp w') = true
  ∧ ∀ i g', pool w' !! i = Some g' → past_check (g_pc g') = true →
      ∃ g, pool w !! i = Some g ∧ past_check (g_pc g) = true.
Proof.
  intros Hc Hp. unfold exec. destruct (fatal w); [done|].
  destruct c as [ev l|ev l|name e| | |ev| |j]; simpl; intros H; try done.
  - injection H as <-. split; [done|]. eauto.
  - injection H as <-. split; [done|]. eauto.
  - destruct (Dispatch_inv _ _ _ _ H) as (_ & Hpool & _ & _ & _ & _ & Hpa & _).
    split; [by rewrite Hpa|]. intros i g' Hg' Hpast. rewrite Hpool in Hg'.
    apply lookup_app_Some in Hg' as [Hg'|[_ Hg']]; [eauto|].
    apply list_elem_of_lookup_2 in Hg'.
    pose proof (spawned_shape name e (fresh w) (listeners (disp w) !!! name)) as Hs.
    rewrite Forall_forall in Hs. destruct (Hs _ Hg') as (_ & _ & Hpc & _).
    rewrite Hpc in Hpast. done.
  - injection H as <-. split; [done|]. eauto.
  - unfold Wait, Lock in H. destruct (mu (disp w)); simpl in H; [done|].
    injection H as <-. split; [done|]. eauto.
  - destruct (Wait_step_disp _ _ H) as (_ & _ & Hpa & _). split; [by rewrite Hpa|].
    unfold Wait_step in H. destruct (waiting w) as [f|] eqn:Hf; simpl in H; [|done].
    destruct (decide (w_i f < w_len f)) as [Hlt|Hlt].
    + destruct ((qchans (disp w) !!! w_event f) !! w_i f) as [[c|]|] eqn:Hq.
      * destruct (recv c (pool w)) as [gs|] eqn:Hr; simpl in H; [|done].
        injection H as <-. simpl.
        destruct (recv_first _ _ _ Hr) as (k & g0 & n & Hk & _ & Hpc0 & ->).
        intros i g' Hg' Hpast. destruct (decide (i = k)) as [->|Hne].
        -- exists g0. split; [done|]. by rewrite Hpc0.
        -- rewrite list_lookup_insert_ne in Hg' by done. eauto.
      * injection H as <-. eauto.
      * injection H as <-. eauto.
    + injection H as <-. eauto.
  - destruct (executeListener_disp _ _ _ H) as (_ & _ & _ & Hpa & _).
    split; [by rewrite Hpa|].
    destruct (executeListener_moves _ _ _ H) as (g & Hg & [->|(s & -> & Hs)]); [eauto|].
    intros i g' Hg' Hpast. destruct (decide (i = j)) as [->|Hne].
    + rewrite list_lookup_alter_eq, Hg in Hg'. injection Hg' as <-. simpl in Hpast.
      destruct Hs as [[_ ->]|[Hgp _]]; [by rewrite Hp in Hpast|]. eauto.
    + rewrite list_lookup_alter_ne in Hg' by done. eauto.
Qed.

(** While the dispatcher is paused and no [Resume] is called, the flag
    stays set and the goroutines past the check afterwards are goroutines
    that were past it already. *)
Lemma paused_holds_run (cs : list call) (w w' : World) :
  paused (disp w) = true →
  Forall (λ c, is_resume c = false) cs →
  run cs w = Some w' →
  paused (disp w') = true
  ∧ ∀ i g', pool w' !! i = Some g' → past_check (g_pc g') = true →
      ∃ g, pool w !! i = Some g ∧ past_check (g_pc g) = true.
Proof.
  revert w. induction cs as [|c cs IH]; intros w Hp Hcs; simpl.
  - intros [= <-]. eauto.
  - inversion Hcs as [|? ? Hc Hcs']; subst.
    destruct (exec c w) as [w1|] eqn:E; simpl; [|done]. intros Hrun.
    destruct (paused_holds_step _ _ _ Hc Hp E) as [Hp1 H1].
    destruct (IH _ Hp1 Hcs' Hrun) as [Hp' H']. split; [done|].
    intros i g' Hg' Hpast. destruct (H' _ _ Hg' Hpast) as (g1 & Hg1 & Hpast1). eauto.
Qed.

(** ** Resume and the blocked goroutines *)







(** ** The sets of pause channels *)

Lemma nudge_elem gs gs' g :
  Forall2 nudge gs gs' → g ∈ gs →
  ∃ g', g' ∈ gs' ∧ g_name g' = g_name g ∧ g_p g' = g_p g.
Proof.
  intros Hn Hg. apply list_elem_of_lookup in Hg as [i Hi].
  destruct (Forall2_lookup_l _ _ _ _ _ Hn Hi) as (g' & Hg' & [(Hname&_&_&Hp&_) _]).
  exists g'. split; [by eapply list_elem_of_lookup_2|done].
Qed.

Lemma pchans_owned_step c w w' : pchans_owned w → exec c w = Some w' → pchans_owned w'.
Proof.
  intros Hown H. destruct (exec_gate_cases _ _ _ H) as
    [(_ & Hn & Hpc & _)|[(name & e & -> & Hd)|(i & g & -> & Hi & Hpc & ->)]].
  - intros n ch Hch. rewrite Hpc in Hch.
    destruct (Hown _ _ Hch) as (g & Hg & <- & <-). by eapply nudge_elem.
  - destruct (Dispatch_inv _ _ _ _ Hd) as (_ & Hp & _ & _ & _ & _ & _ & _ & Hpc & _ & Hne).
    intros n ch Hch. rewrite Hp.
    assert (Hold : ch ∈ pchans (disp w) !!! n →
                   ∃ g, g ∈ pool w ++ spawned name e (fresh w) (listeners (disp w) !!! name)
                        ∧ g_name g = n ∧ g_p g = ch).
    { intros Ho. destruct (Hown _ _ Ho) as (g & Hg & ? & ?). exists g.
      split; [|done]. apply elem_of_app. by left. }
    destruct (decide (n = name)) as [->|Hneq].
    + rewrite Hpc in Hch. apply elem_of_union in Hch as [Hnew|Ho]; [|by apply Hold].
      apply elem_of_list_to_set, list_elem_of_fmap in Hnew as (g & -> & Hg).
      exists g. split; [apply elem_of_app; by right|]. split; [|done].
      pose proof (spawned_shape name e (fresh w) (listeners (disp w) !!! name)) as Hs.
      rewrite Forall_forall in Hs. by destruct (Hs _ Hg) as (? & _).
    + apply Hold. destruct (Hne _ Hneq) as [E _].
      by rewrite !lookup_total_alt, E in *.
  - intros n ch Hch. unfold update_pc, set_pool, set_disp in *. cbn [pool disp] in *.
    rewrite delete_pchan_total in Hch.
    assert (Ho : ch ∈ pchans (disp w) !!! n).
    { destruct (decide (n = g_name g)); set_solver. }
    destruct (Hown _ _ Ho) as (g0 & Hg0 & <- & <-).
    apply list_elem_of_lookup in Hg0 as [j Hj].
    destruct (decide (j = i)) as [->|Hneq].
    + exists (set_pc Returned g0). split; [|done].
      apply (list_elem_of_lookup_2 _ i). by rewrite list_lookup_alter_eq, Hj.
    + exists g0. split; [|done].
      apply (list_elem_of_lookup_2 _ j). by rewrite list_lookup_alter_ne.
Qed.

(** X9. In every reachable world the set of pause channels of an event holds
    exactly the pause channels of the goroutines launched for that event that
    have not returned: nothing else gets in, and nothing stays behind.  So
    once the goroutines of an event have all returned its set is empty. *)
Theorem pchans_are_the_live_goroutines (w : World) (n : string) :
  reachable w →
  (∀ c, c ∈ pchans (disp w) !!! n
        ↔ ∃ g, g ∈ pool w ∧ g_name g = n ∧ g_p g = c ∧ g_pc g ≠ Returned)
  ∧ ((∀ g, g ∈ pool w → g_name g = n → g_pc g = Returned) →
     pchans (disp w) !!! n = ∅).
Proof.
  intros Hr.
  assert (Hown : pchans_owned w).
  { revert Hr. apply reachable_invariant.
    - intros n0 c Hc. simpl in Hc. rewrite lookup_total_empty in Hc. set_solver.
    - intros c w1 w2. apply pchans_owned_step. }
  destruct (gates_ok_reachable _ Hr) as (_ & Hnd & Hin). rewrite Forall_forall in Hin.
  assert (Hiff : ∀ c, c ∈ pchans (disp w) !!! n
                      ↔ ∃ g, g ∈ pool w ∧ g_name g = n ∧ g_p g = c ∧ g_pc g ≠ Returned).
  { intros c. split.
    - intros Hc. destruct (Hown _ _ Hc) as (g & Hg & <- & <-).
      exists g. repeat split; try done. by apply (Hin _ Hg).
    - intros (g & Hg & <- & <- & Hpc). by apply (Hin _ Hg). }
  split; [done|]. intros Hall. apply set_eq. intros c. rewrite Hiff. split.
  - intros (g & Hg & Hn & _ & Hpc). exfalso. by apply Hpc, Hall.
  - set_solver.
Qed.

Lemma pchans_are_the_live_goroutines_witness :
  reachable w_in_body
  ∧ (0 ∈ pchans (disp w_in_body) !!! "e"
     ↔ ∃ g, g ∈ pool w_in_body ∧ g_name g = "e" ∧ g_p g = 0 ∧ g_pc g ≠ Returned).
Proof.
  assert (Hr : reachable w_in_body).
  { exists [CListenerFunc "e" (Func 1); CDispatch "e" ev0; GoStep 0; GoStep 0].
    vm_compute. reflexivity. }
  split; [exact Hr|].
  exact (proj1 (pchans_are_the_live_goroutines w_in_body "e" Hr) 0).
Defined.

(** ** Signals on the quit channels *)

Lemma spawned_q_upper name e base hs :
  Forall (λ g, g_q g < base + 2 * length hs) (spawned name e base hs).
Proof.
  revert base. induction hs as [|l hs IH]; intros base; simpl; constructor.
  - simpl. lia.
  - eapply Forall_impl; [apply IH|]. simpl. intros g Hg. lia.
Qed.

Lemma spawned_q_lower name e base hs :
  Forall (λ g, base ≤ g_q g) (spawned name e base hs).
Proof.
  eapply Forall_impl; [apply spawned_shape|]. simpl. intros g (_&_&_&?&?). lia.
Qed.

Lemma elem_of_insert_other {A} (l : list A) i x y z :
  x ∈ l → l !! i = Some y → x ≠ y → x ∈ <[i := z]> l.
Proof.
  intros Hx Hi Hne. apply list_elem_of_lookup in Hx as [j Hj].
  destruct (decide (j = i)) as [->|Hji]; [congruence|].
  apply (list_elem_of_lookup_2 _ j). by rewrite list_lookup_insert_ne.
Qed.

(** A step of a goroutine makes no send: the sends are taken by [Wait]. *)
Lemma executeListener_sends i w w' j g g' :
  executeListener i w = Some w' → pool w !! j = Some g → pool w' !! j = Some g' →
  same_frame g g' ∧ sends_left g' = sends_left g ∧ sends_made g' = sends_made g.
Proof.
  intros H Hj Hj'. unfold executeListener in H.
  destruct (pool w !! i) as [g0|] eqn:Hg; simpl in H; [|done].
  assert (Hsame : g' = g → same_frame g g' ∧ sends_left g' = sends_left g
                           ∧ sends_made g' = sends_made g).
  { intros ->. by repeat split. }
  assert (Halter : ∀ s, pool w' = alter (set_pc s) i (pool w) →
            (sends_left (set_pc s g0) = sends_left g0
             ∧ sends_made (set_pc s g0) = sends_made g0) →
            same_frame g g' ∧ sends_left g' = sends_left g
            ∧ sends_made g' = sends_made g).
  { intros s Hp [Hs1 Hs2]. rewrite Hp in Hj'.
    destruct (decide (j = i)) as [->|Hne].
    - rewrite list_lookup_alter_eq, Hj in Hj'. injection Hj' as <-.
      rewrite Hg in Hj. injection Hj as <-. by repeat split.
    - rewrite list_lookup_alter_ne in Hj' by done. apply Hsame. congruence. }
  unfold sends_left, sends_made in Halter.
  destruct (g_pc g0) as [| | |[|n]| |] eqn:Hpc; try done.
  - injection H as <-. apply (Halter _ eq_refl). simpl.
    by destruct (paused (disp w)).
  - destruct (g_l g0) as [|r|[|r]|tag] eqn:Hl; injection H as <-;
      try (apply Hsame; simpl in Hj'; congruence);
      apply (Halter _ eq_refl); simpl; rewrite ?Hl; simpl; split; lia.
  - injection H as <-. apply (Halter _ eq_refl). simpl. split; lia.
  - injection H as <-. by apply (Halter _ eq_refl).
Qed.

Lemma woken_sends g g' :
  woken g g' → sends_left g' = sends_left g ∧ sends_made g' = sends_made g.
Proof.
  intros [(_ & Hl & _) [E|[E1 E2]]]; unfold sends_left, sends_made.
  - by rewrite E, Hl.
  - by rewrite E1, E2, Hl.
Qed.

Lemma silent_refl g : silent g g.
Proof. unfold silent, same_frame. by repeat split. Qed.

Lemma silent_all_refl gs : Forall2 silent gs gs.
Proof. induction gs; constructor; auto using silent_refl. Qed.

Lemma silent_q gs gs' : Forall2 silent gs gs' → g_q <$> gs' = g_q <$> gs.
Proof.
  induction 1 as [|g g' gs gs' Ha _ IH]; csimpl; [done|].
  destruct Ha as [(_ & _ & _ & _ & Hq) _]. by rewrite Hq, IH.
Qed.

Lemma executeListener_silent i w w' :
  executeListener i w = Some w' → Forall2 silent (pool w) (pool w').
Proof.
  intros H. apply Forall2_same_length_lookup_2.
  - eapply Forall2_length, executeListener_pool, H.
  - intros j g g' Hj Hj'. by eapply executeListener_sends.
Qed.

Lemma Resume_silent w : Forall2 silent (pool w) (pool (Resume w).1).
Proof.
  eapply Forall2_impl; [apply Resume_woken|].
  intros g g' Hw. destruct (woken_sends _ _ Hw) as [? ?].
  destruct Hw as [Hs _]. split; [exact Hs|by split].
Qed.

Lemma quits_ok_silent w w' :
  quits_ok w → fresh w' = fresh w → qchans (disp w') = qchans (disp w) →
  Forall2 silent (pool w) (pool w') → quits_ok w'.
Proof.
  intros (Ha & Hb & Hc) Hf Hq Hs. split; [|split].
  - rewrite Hf. apply Forall_lookup. intros i g' Hg'.
    destruct (Forall2_lookup_r _ _ _ _ _ Hs Hg') as (g & Hg & (_&_&_&_&E) & _).
    rewrite E. rewrite Forall_lookup in Ha. by eapply Ha.
  - by rewrite (silent_q _ _ Hs).
  - apply Forall_lookup. intros i g' Hg'.
    destruct (Forall2_lookup_r _ _ _ _ _ Hs Hg') as (g & Hg & (Hn&Hl&_&_&E) & Hleft & Hmade).
    rewrite Forall_lookup in Hc. destruct (Hc _ _ Hg) as [H1 H2].
    unfold signal_ok. by rewrite Hleft, Hmade, Hl, Hn, E, Hq.
Qed.

Lemma quits_ok_Dispatch name e w w' :
  quits_ok w → Dispatch name e w = Some w' → quits_ok w'.
Proof.
  intros (Ha & Hb & Hc) Hd.
  destruct (Dispatch_inv _ _ _ _ Hd) as (_ & Hp & Hf & _ & _ & _ & _ & _ & _ & Hq & Hne).
  set (gs := spawned name e (fresh w) (listeners (disp w) !!! name)) in *.
  pose proof (spawned_shape name e (fresh w) (listeners (disp w) !!! name)) as Hsh.
  pose proof (spawned_q_upper name e (fresh w) (listeners (disp w) !!! name)) as Hup.
  pose proof (spawned_q_lower name e (fresh w) (listeners (disp w) !!! name)) as Hlo.
  fold gs in Hsh, Hup, Hlo.
  split; [|split].
  - rewrite Hp, Hf. apply Forall_app. split; [|done].
    eapply Forall_impl; [exact Ha|]. simpl. intros g Hg. lia.
  - rewrite Hp, fmap_app. apply NoDup_app. split; [done|]. split; [|apply spawned_q_NoDup].
    intros c Hold Hnew.
    apply list_elem_of_fmap in Hold as (g1 & -> & Hg1).
    apply list_elem_of_fmap in Hnew as (g2 & E & Hg2).
    rewrite Forall_forall in Ha, Hlo.
    specialize (Ha _ Hg1). specialize (Hlo _ Hg2). lia.
  - rewrite Hp. apply Forall_app. split.
    + apply Forall_forall. intros g Hg. rewrite Forall_forall in Hc.
      destruct (Hc _ Hg) as [H1 H2]. split; [done|].
      destruct H2 as [H2|H2]; [left|by right].
      destruct (decide (g_name g = name)) as [E|Hn].
      * rewrite E in *. rewrite Hq. apply elem_of_app. by left.
      * destruct (Hne _ Hn) as [_ E]. by rewrite !lookup_total_alt, E in *.
    + apply Forall_forall. intros g Hg. rewrite Forall_forall in Hsh.
      destruct (Hsh _ Hg) as (Hname & _ & Hpc & _). split.
      * unfold sends_left. by rewrite Hpc.
      * left. rewrite Hname, Hq. apply elem_of_app. right.
        apply list_elem_of_fmap. exists g. done.
Qed.

Lemma quits_ok_step c w w' : quits_ok w → exec c w = Some w' → quits_ok w'.
Proof.
  intros Hok. unfold exec. destruct (fatal w); [done|].
  destruct c as [ev l|ev l|name e| | |ev| |i]; simpl; intros H.
  - injection H as <-. eapply quits_ok_silent; eauto using silent_all_refl.
  - injection H as <-. eapply quits_ok_silent; eauto using silent_all_refl.
  - by eapply quits_ok_Dispatch.
  - injection H as <-. eapply quits_ok_silent; eauto using silent_all_refl.
  - injection H as <-. destruct (Resume_frame w) as (_&_&Hq&_&_&_&Hf&_).
    eapply quits_ok_silent; eauto using Resume_silent.
  - unfold Wait, Lock in H. destruct (mu (disp w)); simpl in H; [done|].
    injection H as <-. eapply quits_ok_silent; eauto using silent_all_refl.
  - unfold Wait_step in H. destruct (waiting w) as [f|] eqn:Hf; simpl in H; [|done].
    destruct (decide (w_i f < w_len f)) as [Hlt|Hlt].
    + destruct ((qchans (disp w) !!! w_event f) !! w_i f) as [[c|]|] eqn:Hq.
      * destruct (recv c (pool w)) as [gs|] eqn:Hr; simpl in H; [|done].
        injection H as <-.
        destruct (recv_first _ _ _ Hr) as (k & g0 & n & Hk & Hq0 & Hpc0 & ->).
        destruct Hok as (Ha & Hb & Hc).
        assert (Hqs : g_q <$> <[k:=set_pc (InBody n) g0]> (pool w) = g_q <$> pool w).
        { rewrite list_fmap_insert. simpl. apply list_insert_id.
          by rewrite list_lookup_fmap, Hk. }
        unfold quits_ok. simpl. split; [|split].
        -- apply (Forall_fmap g_q (λ q, q < fresh w)). rewrite Hqs. by apply Forall_fmap.
        -- by rewrite Hqs.
        -- apply Forall_lookup. intros j g' Hj. rewrite Forall_lookup in Hc.
           destruct (decide (j = k)) as [->|Hne].
           ++ rewrite list_lookup_insert_eq in Hj by (by eapply lookup_lt_Some).
              injection Hj as <-. destruct (Hc _ _ Hk) as [H1 _].
              unfold sends_left in H1. rewrite Hpc0 in H1.
              split; [unfold sends_left; simpl; lia|].
              right. unfold sends_made. simpl. lia.
           ++ rewrite list_lookup_insert_ne in Hj by done.
              destruct (Hc _ _ Hj) as [H1 H2]. split; [done|].
              destruct H2 as [H2|H2]; [left|by right]. unfold set_qchans. simpl.
              destruct (decide (g_name g' = w_event f)) as [E|E].
              ** rewrite E, lookup_total_insert_eq. rewrite E in H2.
                 eapply elem_of_insert_other; [exact H2|exact Hq|].
                 intros [= Heq]. apply Hne.
                 eapply NoDup_lookup; [exact Hb| |].
                 --- rewrite list_lookup_fmap, Hj. done.
                 --- rewrite list_lookup_fmap, Hk. simpl. congruence.
              ** by rewrite lookup_total_insert_ne.
      * injection H as <-. eapply quits_ok_silent; eauto using silent_all_refl.
      * injection H as <-. eapply quits_ok_silent; eauto using silent_all_refl.
    + injection H as <-. eapply quits_ok_silent; eauto using silent_all_refl.
  - destruct (executeListener_disp _ _ _ H) as (_ & Hq & _ & _ & _ & Hf).
    eapply quits_ok_silent; eauto using executeListener_silent.
Qed.

Lemma quits_ok_reachable w : reachable w → quits_ok w.
Proof.
  apply reachable_invariant.
  - split; [|split]; simpl; constructor.
  - intros c w1 w2. apply quits_ok_step.
Qed.

(** X10. In every reachable world a goroutine whose quit channel is no
    longer in the slice of its event has sent on it at least once: an entry
    becomes nil only by [Wait] taking a value from the goroutine it belongs
    to.  So when all the entries of an event are nil, as they are when [Wait]
    returns, every goroutine launched for the event has signalled. *)
Theorem nil_entry_means_signalled (w : World) (g : goroutine) :
  reachable w → g ∈ pool w →
  (Some (g_q g) ∈ qchans (disp w) !!! g_name g ∨ 1 ≤ sends_made g)
  ∧ (Forall (λ q, q = None) (qchans (disp w) !!! g_name g) → 1 ≤ sends_made g)
  ∧ sends_made g ≤ routine_of (g_l g).
Proof.
  intros Hr Hg. destruct (quits_ok_reachable _ Hr) as (_ & _ & Hc).
  rewrite Forall_forall in Hc. destruct (Hc _ Hg) as [H1 H2].
  split; [done|]. split.
  - intros Hnil. destruct H2 as [H2|H2]; [|done].
    rewrite Forall_forall in Hnil. by specialize (Hnil _ H2).
  - unfold sends_made, sends_left in *. destruct (g_pc g); lia.
Qed.

Lemma nil_entry_means_signalled_witness :
  reachable w_in_body ∧ g_in_body ∈ pool w_in_body
  ∧ (Some (g_q g_in_body) ∈ qchans (disp w_in_body) !!! g_name g_in_body
     ∨ 1 ≤ sends_made g_in_body).
Proof.
  assert (Hr : reachable w_in_body).
  { exists [CListenerFunc "e" (Func 1); CDispatch "e" ev0; GoStep 0; GoStep 0].
    vm_compute. reflexivity. }
  assert (Hg : g_in_body ∈ pool w_in_body).
  { apply (list_elem_of_lookup_2 _ 0). vm_compute. reflexivity. }
  split; [exact Hr|]. split; [exact Hg|].
  exact (proj1 (nil_entry_means_signalled _ _ Hr Hg)).
Defined.

(** ** A listener that does not signal *)

Lemma stuck_on_silent f c w w' :
  stuck_on f c w → mu (disp w') = mu (disp w) → waiting w' = waiting w →
  qchans (disp w') = qchans (disp w) → Forall2 silent (pool w) (pool w') →
  stuck_on f c w' ∧ qchans (disp w') = qchans (disp w).
Proof.
  intros (Hmu & Hw & Hlt & Hq & Hall) Emu Ew Eq Hs. split; [|done].
  unfold stuck_on. rewrite Emu, Ew, Eq. repeat split; try done.
  apply Forall_lookup. intros i g' Hg'.
  destruct (Forall2_lookup_r _ _ _ _ _ Hs Hg') as (g & Hg & (_&_&_&_&E) & Hleft & _).
  rewrite E, Hleft. rewrite Forall_lookup in Hall. by eapply Hall.
Qed.

Lemma stuck_on_blocked f c w :
  stuck_on f c w →
  Wait_step w = None ∧ (∀ name e, Dispatch name e w = None) ∧ (∀ ev, Wait ev w = None).
Proof.
  intros (Hmu & Hw & Hlt & Hq & Hall). split; [|split].
  - unfold Wait_step. rewrite Hw. simpl. rewrite decide_True by done. rewrite Hq.
    destruct (recv c (pool w)) as [gs|] eqn:Hr; simpl; [|done]. exfalso.
    destruct (recv_first _ _ _ Hr) as (j & g0 & n & Hj & Hq0 & Hpc0 & _).
    rewrite Forall_lookup in Hall. specialize (Hall _ _ Hj Hq0).
    unfold sends_left in Hall. rewrite Hpc0 in Hall. done.
  - intros name e. by apply Dispatch_blocks_only_on_mutex.
  - intros ev. unfold Wait, Lock. by rewrite Hmu.
Qed.

Lemma stuck_on_step f c k w w' :
  stuck_on f c w → exec k w = Some w' →
  stuck_on f c w' ∧ qchans (disp w') = qchans (disp w).
Proof.
  intros Hst. destruct (stuck_on_blocked _ _ _ Hst) as (Hws & Hd & Hwt).
  unfold exec. destruct (fatal w); [done|].
  destruct k as [ev l|ev l|name e| | |ev| |i]; simpl; intros H.
  - injection H as <-. eapply stuck_on_silent; eauto using silent_all_refl.
  - injection H as <-. eapply stuck_on_silent; eauto using silent_all_refl.
  - by rewrite Hd in H.
  - injection H as <-. eapply stuck_on_silent; eauto using silent_all_refl.
  - injection H as <-. destruct (Resume_frame w) as (_&_&Eq&Emu&_&Ew&_).
    eapply stuck_on_silent; eauto using Resume_silent.
  - by rewrite Hwt in H.
  - by rewrite Hws in H.
  - destruct (executeListener_disp _ _ _ H) as (_ & Eq & Emu & _ & Ew & _).
    eapply stuck_on_silent; eauto using executeListener_silent.
Qed.

Lemma stuck_on_run f c cs w w' :
  stuck_on f c w → run cs w = Some w' →
  stuck_on f c w' ∧ qchans (disp w') = qchans (disp w).
Proof.
  revert w. induction cs as [|k cs IH]; intros w Hst; simpl.
  - by intros [= <-].
  - destruct (exec k w) as [w1|] eqn:E; simpl; [|done]. intros Hrun.
    destruct (stuck_on_step _ _ _ _ _ Hst E) as [Hst1 Hq1].
    destruct (IH _ Hst1 Hrun) as [Hst' Hq']. split; [done|]. by rewrite Hq', Hq1.
Qed.

(** X11. If the [Wait] in progress is at an entry whose channel no goroutine
    will send on any more (its listener has made all its sends, or makes
    none), nothing the process does gets it any further: after every run the
    same [Wait] is at the same entry and still holds the mutex, so it never
    returns and no [Dispatch] and no other [Wait] goes through. *)
Theorem Wait_stuck_forever
    (f : wait_frame) (c : nat) (cs : list call) (w w' : World) :
  mu (disp w) = true →
  waiting w = Some f →
  w_i f < w_len f →
  (qchans (disp w) !!! w_event f) !! w_i f = Some (Some c) →
  Forall (λ g, g_q g = c → sends_left g = 0) (pool w) →
  run cs w = Some w' →
  waiting w' = Some f
  ∧ mu (disp w') = true
  ∧ qchans (disp w') = qchans (disp w)
  ∧ Wait_step w' = None
  ∧ (∀ name e, Dispatch name e w' = None)
  ∧ (∀ ev, Wait ev w' = None).
Proof.
  intros Hmu Hw Hlt Hq Hall Hrun.
  assert (Hst : stuck_on f c w) by done.
  destruct (stuck_on_run _ _ _ _ _ Hst Hrun) as [Hst' Hq'].
  destruct (stuck_on_blocked _ _ _ Hst') as (H1 & H2 & H3).
  destruct Hst' as (Hmu' & Hw' & _). done.
Qed.

Lemma Wait_stuck_forever_witness :
  mu (disp w_silent_listener) = true
  ∧ waiting w_silent_listener = Some {| w_event := "e"; w_i := 0; w_len := 1 |}
  ∧ (qchans (disp w_silent_listener) !!! "e") !! 0 = Some (Some 1)
  ∧ g_pc <$> pool w_silent_listener = [Returned]
  ∧ run [CPause; CResume; CListenerFunc "e" (Func 1)] w_silent_listener
    = Some (default boot
              (run [CPause; CResume; CListenerFunc "e" (Func 1)] w_silent_listener))
  ∧ Wait_step (default boot
                 (run [CPause; CResume; CListenerFunc "e" (Func 1)] w_silent_listener))
    = None.
Proof.
  assert (Hmu : mu (disp w_silent_listener) = true) by (vm_compute; reflexivity).
  assert (Hw : waiting w_silent_listener
               = Some {| w_event := "e"; w_i := 0; w_len := 1 |})
    by (vm_compute; reflexivity).
  assert (Hq : (qchans (disp w_silent_listener) !!! "e") !! 0 = Some (Some 1))
    by (vm_compute; reflexivity).
  assert (Hall : Forall (λ g, g_q g = 1 → sends_left g = 0) (pool w_silent_listener)).
  { vm_compute. repeat constructor. }
  assert (Hr : run [CPause; CResume; CListenerFunc "e" (Func 1)] w_silent_listener
               = Some (default boot
                         (run [CPause; CResume; CListenerFunc "e" (Func 1)]
                              w_silent_listener)))
    by (vm_compute; reflexivity).
  split; [exact Hmu|]. split; [exact Hw|]. split; [exact Hq|].
  split; [vm_compute; reflexivity|]. split; [exact Hr|].
  exact (proj1 (proj2 (proj2 (proj2
           (Wait_stuck_forever _ 1 _ _ _ Hmu Hw (le_n 1) Hq Hall Hr))))).
Defined.

(** ** WaitAll *)

Lemma exec_keeps_nil c w w' E :
  is_dispatch c = false → exec c w = Some w' →
  Forall (λ q, q = None) (qchans (disp w) !!! E) →
  Forall (λ q, q = None) (qchans (disp w') !!! E).
Proof.
  intros Hc. unfold exec. destruct (fatal w); [done|].
  destruct c as [ev l|ev l|name e| | |ev| |i]; simpl; intros H Hnil; try done.
  - by injection H as <-.
  - by injection H as <-.
  - by injection H as <-.
  - injection H as <-. destruct (Resume_frame w) as (_&_&Eq&_). simpl in Eq. by rewrite Eq.
  - unfold Wait, Lock in H. destruct (mu (disp w)); simpl in H; [done|].
    by injection H as <-.
  - unfold Wait_step in H. destruct (waiting w) as [f|] eqn:Hf; simpl in H; [|done].
    destruct (decide (w_i f < w_len f)) as [Hlt|Hlt].
    + destruct ((qchans (disp w) !!! w_event f) !! w_i f) as [[c|]|] eqn:Hq.
      * destruct (recv c (pool w)) as [gs|]; simpl in H; [|done].
        injection H as <-. simpl.
        destruct (decide (E = w_event f)) as [->|Hne].
        -- rewrite lookup_total_insert_eq. apply Forall_insert; [done|done].
        -- by rewrite lookup_total_insert_ne.
      * by injection H as <-.
      * by injection H as <-.
    + by injection H as <-.
  - destruct (executeListener_disp _ _ _ H) as (_ & Eq & _). by rewrite Eq.
Qed.

Lemma exec_keeps_waiting c w w' f :
  wait_ok w → waiting w = Some f → is_waitstep c = false → exec c w = Some w' →
  waiting w' = Some f.
Proof.
  intros Hok Hw Hc. unfold wait_ok in Hok. rewrite Hw in Hok. destruct Hok as (Hmu & _).
  unfold exec. destruct (fatal w); [done|].
  destruct c as [ev l|ev l|name e| | |ev| |i]; simpl; intros H; try done.
  - by injection H as <-.
  - by injection H as <-.
  - apply Dispatch_inv in H as (Hfree & _). congruence.
  - by injection H as <-.
  - injection H as <-. destruct (Resume_frame w) as (_&_&_&_&_&Ew&_). simpl in Ew.
    by rewrite Ew.
  - unfold Wait, Lock in H. rewrite Hmu in H. done.
  - destruct (executeListener_disp _ _ _ H) as (_ & _ & _ & _ & Ew & _). by rewrite Ew.
Qed.

(** What a step of the [Wait] in progress does to its frame. *)
Lemma WaitStep_frame w w' f :
  wait_ok w → waiting w = Some f → exec WaitStep w = Some w' →
  (∃ f', waiting w' = Some f' ∧ w_event f' = w_event f)
  ∨ (waiting w' = None ∧ Forall (λ q, q = None) (qchans (disp w') !!! w_event f)).
Proof.
  intros Hok Hw. unfold wait_ok in Hok. rewrite Hw in Hok.
  destruct Hok as (_ & Hlen & Hle & Hnil).
  unfold exec. destruct (fatal w); [done|]. unfold Wait_step. rewrite Hw. simpl.
  destruct (decide (w_i f < w_len f)) as [Hlt|Hlt].
  - destruct ((qchans (disp w) !!! w_event f) !! w_i f) as [[c|]|] eqn:Hq.
    + destruct (recv c (pool w)) as [gs|]; simpl; [|done].
      intros [= <-]. left. eexists. split; [done|done].
    + intros [= <-]. left. eexists. split; [done|done].
    + intros [= <-]. left. eexists. split; [done|done].
  - intros [= <-]. right. split; [done|]. simpl.
    apply Forall_lookup. intros j q Hj.
    assert (Hji : j < w_i f). { apply lookup_lt_Some in Hj. lia. }
    rewrite (Hnil _ Hji) in Hj. by injection Hj as <-.
Qed.

Lemma waitall_ok_step m s s' :
  dispatches m = false → waitall_ok s → wa_exec m s = Some s' → waitall_ok s'.
Proof.
  destruct s as [a w]. intros Hm [Hok Hall]. simpl in *.
  destruct m as [|c]; simpl.
  - unfold WaitAll_step. destruct (wa_inside a) eqn:Hin.
    + destruct (exec WaitStep w) as [w'|] eqn:E; simpl; [|done]. intros [= <-].
      split; [by eapply wait_ok_step|]. simpl. intros Ev.
      destruct (Hall Ev) as [Ht|[(_ & f & Hw & Hev)|Hnil]].
      * by left.
      * right. destruct (WaitStep_frame _ _ _ Hok Hw E) as [(f' & Hw' & Hev')|[Hw' Hnil]].
        -- left. rewrite Hw'. split; [by apply bool_decide_eq_true_2|].
           exists f'. split; [done|]. congruence.
        -- right. by rewrite <- Hev.
      * right. right. by apply (exec_keeps_nil WaitStep w).
    + destruct (wa_todo a) as [|e rest] eqn:Ht; [done|].
      destruct (exec (CWait e) w) as [w'|] eqn:E; simpl; [|done]. intros [= <-].
      split; [by eapply wait_ok_step|]. simpl. intros Ev.
      destruct (Hall Ev) as [Hin'|[(? & _)|Hnil]]; [|done|].
      * apply elem_of_cons in Hin' as [->|Hin']; [|by left].
        right. left. split; [done|].
        unfold exec in E. destruct (fatal w); [done|]. simpl in E.
        unfold Wait, Lock in E. destruct (mu (disp w)); simpl in E; [done|].
        injection E as <-. simpl. eauto.
      * right. right. by apply (exec_keeps_nil (CWait e) w).
  - destruct (wa_inside a && is_waitstep c) eqn:Hg; [done|].
    destruct (exec c w) as [w'|] eqn:E; simpl; [|done]. intros [= <-].
    split; [by eapply wait_ok_step|]. simpl. intros Ev.
    destruct (Hall Ev) as [Ht|[(Hin & f & Hw & Hev)|Hnil]].
    + by left.
    + right. left. split; [done|]. exists f. split; [|done].
      rewrite Hin in Hg. simpl in Hg. by eapply exec_keeps_waiting.
    + right. right. by apply (exec_keeps_nil c w).
Qed.

Lemma wa_exec_reachable m a w a' w' :
  reachable w → wa_exec m (a, w) = Some (a', w') → reachable w'.
Proof.
  intros [cs Hcs] H.
  assert (Hc : ∃ c, exec c w = Some w').
  { destruct m as [|c]; simpl in H.
    - unfold WaitAll_step in H. destruct (wa_inside a).
      + destruct (exec WaitStep w) as [w1|] eqn:E; simpl in H; [|done].
        injection H as _ <-. eauto.
      + destruct (wa_todo a) as [|e rest]; [done|].
        destruct (exec (CWait e) w) as [w1|] eqn:E; simpl in H; [|done].
        injection H as _ <-. eauto.
    - destruct (wa_inside a && is_waitstep c); [done|].
      destruct (exec c w) as [w1|] eqn:E; simpl in H; [|done].
      injection H as _ <-. eauto. }
  destruct Hc as [c Hc]. exists (cs ++ [c]).
  clear H. revert Hcs. generalize boot. induction cs as [|k cs IH]; intros w0; simpl.
  - intros [= ->]. by rewrite Hc.
  - destruct (exec k w0) as [w1|]; simpl; [|done]. apply IH.
Qed.

Lemma wa_run_invariant ms s s' :
  Forall (λ m, dispatches m = false) ms →
  waitall_ok s ∧ reachable s.2 → wa_run ms s = Some s' →
  waitall_ok s' ∧ reachable s'.2.
Proof.
  revert s. induction ms as [|m ms IH]; intros s Hms [Hok Hr]; simpl.
  - by intros [= <-].
  - inversion Hms as [|? ? Hm Hms']; subst.
    destruct (wa_exec m s) as [s1|] eqn:E; simpl; [|done]. apply IH; [done|].
    split; [by eapply waitall_ok_step|].
    destruct s as [a w], s1 as [a1 w1]. by eapply wa_exec_reachable.
Qed.

(** X12. [WaitAll] waits for every event that has quit channels.  Started
    in a reachable world and run to its return, with whatever else the
    process does meanwhile except for new calls of [Dispatch], it leaves
    every quit channel of every event nil, and every goroutine ever
    launched has by then sent on its quit channel. *)
Theorem WaitAll_waits_for_everything
    (ms : list wa_move) (w w' : World) (a' : waitall_frame) :
  reachable w →
  Forall (λ m, dispatches m = false) ms →
  wa_run ms (WaitAll w, w) = Some (a', w') →
  WaitAll_returned a' →
  (∀ E, Forall (λ q, q = None) (qchans (disp w') !!! E))
  ∧ ∀ g, g ∈ pool w' → 1 ≤ sends_made g.
Proof.
  intros Hr Hms Hrun [Htodo Hin].
  assert (H0 : waitall_ok (WaitAll w, w)).
  { split; [by apply wait_ok_reachable|]. simpl. intros E.
    destruct (qchans (disp w) !! E) as [l|] eqn:Hl.
    - left. apply list_elem_of_fmap. exists (E, l). split; [done|].
      by apply elem_of_map_to_list.
    - right. right. rewrite lookup_total_alt, Hl. constructor. }
  destruct (wa_run_invariant _ _ _ Hms (conj H0 Hr) Hrun) as [[_ Hall] Hr'].
  simpl in *.
  assert (Hnil : ∀ E, Forall (λ q, q = None) (qchans (disp w') !!! E)).
  { intros E. destruct (Hall E) as [Ht|[(Hi & _)|Hn]]; [|congruence|done].
    rewrite Htodo in Ht. by apply not_elem_of_nil in Ht. }
  split; [done|]. intros g Hg.
  destruct (quits_ok_reachable _ Hr') as (_ & _ & Hc).
  rewrite Forall_forall in Hc. destruct (Hc _ Hg) as [_ [Hq|Hs]]; [|done].
  specialize (Hnil (g_name g)). rewrite Forall_forall in Hnil.
  by specialize (Hnil _ Hq).
Qed.

Lemma WaitAll_waits_for_everything_witness :
  reachable w_in_body
  ∧ Forall (λ m, dispatches m = false) [Own; Other CPause; Own; Own]
  ∧ wa_run [Own; Other CPause; Own; Own] (WaitAll w_in_body, w_in_body)
    = Some (default (WaitAll boot, boot)
              (wa_run [Own; Other CPause; Own; Own] (WaitAll w_in_body, w_in_body)))
  ∧ WaitAll_returned
      (default (WaitAll boot, boot)
         (wa_run [Own; Other CPause; Own; Own] (WaitAll w_in_body, w_in_body))).1
  ∧ Forall (λ q, q = None)
      (qchans (disp (default (WaitAll boot, boot)
                       (wa_run [Own; Other CPause; Own; Own]
                               (WaitAll w_in_body, w_in_body))).2) !!! "e").
Proof.
  assert (Hr : reachable w_in_body).
  { exists [CListenerFunc "e" (Func 1); CDispatch "e" ev0; GoStep 0; GoStep 0].
    vm_compute. reflexivity. }
  assert (Hms : Forall (λ m, dispatches m = false) [Own; Other CPause; Own; Own]).
  { repeat constructor. }
  set (s := default (WaitAll boot, boot)
              (wa_run [Own; Other CPause; Own; Own] (WaitAll w_in_body, w_in_body))).
  assert (Hrun : wa_run [Own; Other CPause; Own; Own] (WaitAll w_in_body, w_in_body)
                 = Some (s.1, s.2)).
  { vm_compute. reflexivity. }
  assert (Hret : WaitAll_returned s.1).
  { split; vm_compute; reflexivity. }
  split; [exact Hr|]. split; [exact Hms|].
  split; [vm_compute; reflexivity|]. split; [exact Hret|].
  exact (proj1 (WaitAll_waits_for_everything _ _ _ _ Hr Hms Hrun Hret) "e").
Defined.

Lemma qchans_length_reachable w E :
  reachable w → length (qchans (disp w) !!! E) = launches_for E (pool w).
Proof.
  intros Hr. revert E.
  apply (reachable_invariant
           (λ w, ∀ E, length (qchans (disp w) !!! E) = launches_for E (pool w)));
    [| |done].
  - intros E. simpl. by rewrite lookup_total_empty.
  - intros c w1 w2 IH H E.
    rewrite (exec_qchans_length _ _ _ _ H), (exec_launches_for _ _ _ _ H). by rewrite IH.
Qed.

Lemma launch_loop_nonempty name e hs w :
  qchans_nonempty w → qchans_nonempty (foldl (launch name e) w hs).
Proof.
  revert w. induction hs as [|l hs IH]; intros w Hne; simpl; [done|].
  apply IH. intros E ls Hl. simpl in Hl.
  destruct (decide (E = name)) as [->|Hn].
  - rewrite lookup_insert_eq in Hl. injection Hl as <-. intros Hnil.
    by apply app_eq_nil in Hnil as [_ ?].
  - rewrite lookup_insert_ne in Hl by done. by eapply Hne.
Qed.

Lemma qchans_nonempty_step c w w' :
  qchans_nonempty w → exec c w = Some w' → qchans_nonempty w'.
Proof.
  intros Hne. unfold exec. destruct (fatal w); [done|].
  destruct c as [ev l|ev l|name e| | |ev| |i]; simpl; intros H.
  - by injection H as <-.
  - by injection H as <-.
  - unfold Dispatch, Lock in H. destruct (mu (disp w)); simpl in H; [done|].
    injection H as <-.
    assert (H1 : qchans_nonempty
                   (foldl (launch name e)
                      (ensure_pchans name (set_disp (set_mu true (disp w)) w))
                      (listeners (disp w) !!! name))).
    { apply launch_loop_nonempty. unfold qchans_nonempty.
      destruct (ensure_pchans_frame name (set_disp (set_mu true (disp w)) w))
        as (_&_&_&_&_&_&_&Eq).
      simpl in Eq. rewrite Eq. exact Hne. }
    exact H1.
  - by injection H as <-.
  - injection H as <-. destruct (Resume_frame w) as (_&_&Eq&_). simpl in Eq.
    unfold qchans_nonempty. by rewrite Eq.
  - unfold Wait, Lock in H. destruct (mu (disp w)); simpl in H; [done|].
    by injection H as <-.
  - unfold Wait_step in H. destruct (waiting w) as [f|] eqn:Hf; simpl in H; [|done].
    destruct (decide (w_i f < w_len f)) as [Hlt|Hlt].
    + destruct ((qchans (disp w) !!! w_event f) !! w_i f) as [[c|]|] eqn:Hq.
      * destruct (recv c (pool w)) as [gs|]; simpl in H; [|done].
        injection H as <-. simpl. intros E l Hl. simpl in Hl.
        destruct (decide (E = w_event f)) as [->|Hn].
        -- rewrite lookup_insert_eq in Hl. injection Hl as <-. intros Hnil.
           apply (f_equal length) in Hnil. rewrite length_insert in Hnil.
           apply lookup_lt_Some in Hq. simpl in Hnil. lia.
        -- rewrite lookup_insert_ne in Hl by done. by eapply Hne.
      * by injection H as <-.
      * by injection H as <-.
    + by injection H as <-.
  - destruct (executeListener_disp _ _ _ H) as (_ & Eq & _). unfold qchans_nonempty.
    by rewrite Eq.
Qed.

(** X13. [WaitAll] ranges over exactly the events for which a goroutine has
    been launched: in every reachable world an event is a key of [d.qchans]
    if and only if some goroutine was launched for it.  An event that was
    never dispatched, or only while it had no listener, is not waited for. *)
Theorem WaitAll_ranges_over_launched_events (w : World) (E : string) :
  reachable w →
  (E ∈ wa_todo (WaitAll w) ↔ 0 < launches_for E (pool w))
  ∧ (E ∈ wa_todo (WaitAll w) ↔ ∃ g, g ∈ pool w ∧ g_name g = E).
Proof.
  intros Hr.
  assert (Hne : qchans_nonempty w).
  { revert Hr. apply reachable_invariant.
    - intros E0 l Hl. simpl in Hl. by rewrite lookup_empty in Hl.
    - intros c w1 w2. apply qchans_nonempty_step. }
  pose proof (qchans_length_reachable w E Hr) as Hlen.
  assert (H1 : E ∈ wa_todo (WaitAll w) ↔ 0 < launches_for E (pool w)).
  { rewrite <- Hlen. simpl. rewrite lookup_total_alt. split.
    - intros Hin. apply list_elem_of_fmap in Hin as ([E' l] & -> & Hl).
      apply elem_of_map_to_list in Hl. simpl. rewrite Hl. simpl.
      specialize (Hne _ _ Hl). destruct l; [done|simpl; lia].
    - intros Hpos. destruct (qchans (disp w) !! E) as [l|] eqn:Hl; simpl in Hpos; [|lia].
      apply list_elem_of_fmap. exists (E, l). split; [done|].
      by apply elem_of_map_to_list. }
  split; [done|]. rewrite H1. unfold launches_for. split.
  - intros Hpos.
    destruct (filter (λ n, n = E) (g_name <$> pool w)) as [|n ns] eqn:Hf; [simpl in Hpos; lia|].
    assert (Hn : n ∈ filter (λ n, n = E) (g_name <$> pool w)) by (rewrite Hf; left).
    apply list_elem_of_filter in Hn as [-> Hn].
    apply list_elem_of_fmap in Hn as (g & ? & ?). eauto.
  - intros (g & Hg & Hn).
    assert (Hin : E ∈ filter (λ n, n = E) (g_name <$> pool w)).
    { apply list_elem_of_filter. split; [done|]. apply list_elem_of_fmap. eauto. }
    destruct (filter (λ n, n = E) (g_name <$> pool w)); [by apply not_elem_of_nil in Hin|].
    simpl. lia.
Qed.

Lemma WaitAll_ranges_over_launched_events_witness :
  reachable w_in_body
  ∧ ("e" ∈ wa_todo (WaitAll w_in_body) ↔ 0 < launches_for "e" (pool w_in_body)).
Proof.
  assert (Hr : reachable w_in_body).
  { exists [CListenerFunc "e" (Func 1); CDispatch "e" ev0; GoStep 0; GoStep 0].
    vm_compute. reflexivity. }
  split; [exact Hr|].
  exact (proj1 (WaitAll_ranges_over_launched_events w_in_body "e" Hr)).
Defined.

(** * The methods step by step *)

Lemma steps_cons m ms s : steps (m :: ms) s = step m s ≫= steps ms.
Proof. done. Qed.

Lemma steps_app ms1 ms2 s : steps (ms1 ++ ms2) s = steps ms1 s ≫= steps ms2.
Proof.
  revert s. induction ms1 as [|m ms1 IH]; intros s; simpl; [done|].
  destruct (step m s) as [s1|]; simpl; [apply IH|done].
Qed.

Lemma steps_snoc ms m s s' :
  steps (ms ++ [m]) s = Some s' ↔ ∃ s1, steps ms s = Some s1 ∧ step m s1 = Some s'.
Proof.
  rewrite steps_app. destruct (steps ms s) as [s1|]; simpl.
  - destruct (step m s1) as [s2|] eqn:E; simpl.
    + split; [intros [= <-]; eauto|]. intros (s3 & [= <-] & H). by rewrite E in H.
    + split; [done|]. intros (s3 & [= <-] & H). by rewrite E in H.
  - split; [done|]. by intros (s3 & H & _).
Qed.

Lemma launch_fatal name e w l : fatal (launch name e w l) = fatal w.
Proof. done. Qed.

(** ** The non-blocking send *)

Lemma receiver_Some a c i gs j :
  receiver a c i gs = Some j →
  i ≤ j ∧ j ∉ a ∧ ∃ g, gs !! (j - i) = Some g ∧ g_pc g = AtRecvP ∧ g_p g = c.
Proof.
  revert i. induction gs as [|g gs IH]; intros i; simpl; [done|].
  destruct (receiving_on c g && bool_decide (i ∉ a)) eqn:E.
  - intros [= <-]. apply andb_true_iff in E as [E1 E2].
    unfold receiving_on in E1. apply bool_decide_eq_true in E1 as [E1 E1'].
    apply bool_decide_eq_true in E2. rewrite Nat.sub_diag.
    split; [lia|]. split; [done|]. by exists g.
  - intros H. destruct (IH _ H) as (Hle & Hj & g' & Hg' & Hpc & Hp).
    split; [lia|]. split; [done|]. exists g'.
    replace (j - i) with (S (j - S i)) by lia. done.
Qed.

Lemma receiver_None a c i gs :
  receiver a c i gs = None →
  ∀ k g, gs !! k = Some g → g_pc g = AtRecvP → g_p g = c → i + k ∈ a.
Proof.
  revert i. induction gs as [|g gs IH]; intros i; simpl; [done|].
  destruct (receiving_on c g && bool_decide (i ∉ a)) eqn:E; [done|].
  intros H [|k] g' Hg' Hpc Hp; simpl in Hg'.
  - injection Hg' as ->. rewrite Nat.add_0_r.
    apply andb_false_iff in E as [E|E].
    + unfold receiving_on in E. apply bool_decide_eq_false in E. by destruct E.
    + apply bool_decide_eq_false in E. destruct (decide (i ∈ a)); [done|]. by destruct E.
  - replace (i + S k) with (S i + k) by lia. by eapply IH.
Qed.

Lemma alter_as_insert {A} (f : A → A) (i : nat) (l : list A) (x : A) :
  l !! i = Some x → alter f i l = <[i := f x]> l.
Proof.
  revert i. induction l as [|y l IH]; intros [|i] H; simpl in *; try done.
  - by injection H as ->.
  - f_equal. by apply IH.
Qed.

(** The send reaches a goroutine blocked in its receive on the channel, or
    there is none and the world is as it was. *)
Lemma select_send_cases a c w :
  (∃ i g, pool w !! i = Some g ∧ g_pc g = AtRecvP ∧ g_p g = c ∧ i ∉ a
          ∧ select_send a c w = update_pc i AtSwitch w)
  ∨ ((∀ i g, pool w !! i = Some g → g_pc g = AtRecvP → g_p g = c → i ∈ a)
     ∧ select_send a c w = w).
Proof.
  unfold select_send. destruct (receiver a c 0 (pool w)) as [j|] eqn:E.
  - left. destruct (receiver_Some _ _ _ _ _ E) as (_ & Hj & g & Hg & Hpc & Hp).
    rewrite Nat.sub_0_r in Hg. by exists j, g.
  - right. split; [|done]. intros i g Hg Hpc Hp.
    exact (receiver_None _ _ _ _ E i g Hg Hpc Hp).
Qed.

Lemma select_send_frame a c w :
  disp (select_send a c w) = disp w ∧ waiting (select_send a c w) = waiting w
  ∧ fresh (select_send a c w) = fresh w ∧ fatal (select_send a c w) = fatal w.
Proof. unfold select_send. by destruct (receiver a c 0 (pool w)). Qed.

Lemma select_send_advance a c w : Forall2 advance (pool w) (pool (select_send a c w)).
Proof.
  destruct (select_send_cases a c w) as [(i & g & Hg & Hpc & _ & _ & ->)|[_ ->]].
  - simpl. eapply alter_advance; [done|]. rewrite Hpc. constructor.
  - apply advance_all_refl.
Qed.

Lemma select_send_nudge a c w : Forall2 nudge (pool w) (pool (select_send a c w)).
Proof.
  destruct (select_send_cases a c w) as [(i & g & Hg & Hpc & _ & _ & ->)|[_ ->]].
  - simpl. eapply alter_nudge; [done|by rewrite Hpc|done].
  - apply nudge_all_refl.
Qed.

(** With every goroutine that has read the flag already blocked in its
    receive, the send is the one of the function [Resume]. *)
Lemma try_send_receiver c gs i :
  (try_send c gs).1
  = match receiver ∅ c i gs with
    | Some j => alter (set_pc AtSwitch) (j - i) gs
    | None => gs
    end.
Proof.
  revert i. induction gs as [|g gs IH]; intros i; simpl; [done|].
  destruct (receiving_on c g) eqn:E; simpl.
  - rewrite bool_decide_eq_true_2 by set_solver. by rewrite Nat.sub_diag.
  - rewrite (IH (S i)). destruct (receiver ∅ c (S i) gs) as [j|] eqn:Ej; [|done].
    destruct (receiver_Some _ _ _ _ _ Ej) as (Hle & _).
    by replace (j - i) with (S (j - S i)) by lia.
Qed.

Lemma select_send_empty c w : select_send ∅ c w = set_pool (try_send c (pool w)).1 w.
Proof.
  unfold select_send. rewrite (try_send_receiver c (pool w) 0).
  destruct (receiver ∅ c 0 (pool w)) as [j|].
  - by rewrite Nat.sub_0_r.
  - by destruct w.
Qed.

(** ** The functions are the calls run in one go *)

Lemma Dispatch_loop_in_one_go name e rest w rs a :
  fatal w = None →
  steps (replicate (S (length rest)) DispatchStep)
        {| world := w;
           dispatching := Some {| df_name := name; df_e := e; df_rest := rest |};
           resuming := rs; arriving := a |}
  = Some {| world := Unlock (foldl (launch name e) w rest);
            dispatching := None; resuming := rs; arriving := a |}.
Proof.
  revert w. induction rest as [|l rest IH]; intros w Hf.
  - simpl. unfold step. simpl. by rewrite Hf.
  - change (replicate (S (length (l :: rest))) DispatchStep)
      with (DispatchStep :: replicate (S (length rest)) DispatchStep).
    rewrite steps_cons.
    assert (Hs : step DispatchStep
                   {| world := w;
                      dispatching := Some {| df_name := name; df_e := e;
                                             df_rest := l :: rest |};
                      resuming := rs; arriving := a |}
                 = Some {| world := launch name e w l;
                           dispatching := Some {| df_name := name; df_e := e;
                                                  df_rest := rest |};
                           resuming := rs; arriving := a |}).
    { unfold step. simpl. by rewrite Hf. }
    rewrite Hs. cbn [mbind option_bind]. by rewrite IH.
Qed.

(** The function [Dispatch] is a call of Dispatch that nothing interrupts. *)
Lemma Dispatch_in_one_go name e w w' rs a :
  fatal w = None → Dispatch name e w = Some w' →
  steps (DispatchEnter name e
           :: replicate (S (length (listeners (disp w) !!! name))) DispatchStep)
        {| world := w; dispatching := None; resuming := rs; arriving := a |}
  = Some {| world := w'; dispatching := None; resuming := rs; arriving := a |}.
Proof.
  intros Hf Hd. unfold Dispatch, Lock in Hd.
  destruct (mu (disp w)) eqn:Hmu; simpl in Hd; [done|]. injection Hd as <-.
  rewrite steps_cons.
  assert (Hs : step (DispatchEnter name e)
                 {| world := w; dispatching := None; resuming := rs; arriving := a |}
               = Some {| world := ensure_pchans name (set_disp (set_mu true (disp w)) w);
                         dispatching := Some {| df_name := name; df_e := e;
                                                df_rest := listeners (disp w) !!! name |};
                         resuming := rs; arriving := a |}).
  { unfold step, Dispatch_enter, Lock. simpl. by rewrite Hf, Hmu. }
  rewrite Hs. cbn [mbind option_bind].
  rewrite Dispatch_loop_in_one_go; [done|].
  by destruct (ensure_pchans_frame name (set_disp (set_mu true (disp w)) w))
    as (_&_&_&->&_).
Qed.

Lemma filter_out_head {A} `{EqDecision A} (x : A) (l : list A) :
  x ∉ l → filter (λ y, y ≠ x) (x :: l) = l.
Proof.
  intros Hx. rewrite filter_cons_False by (intros H; by apply H).
  induction l as [|y l IH]; [done|].
  apply not_elem_of_cons in Hx as [Hne Hx].
  rewrite filter_cons_True by done. f_equal. by apply IH.
Qed.

Lemma insert_last {A} (l : list A) (x y : A) : <[length l := x]> (l ++ [y]) = l ++ [x].
Proof. induction l as [|z l IH]; simpl; [done|]. by rewrite IH. Qed.

Lemma resume_targets_total d name c :
  (name, c) ∈ resume_targets d ↔ c ∈ pchans d !!! name.
Proof.
  rewrite resume_targets_elem, lookup_total_alt.
  destruct (pchans d !! name) as [arr|]; simpl.
  - split; [by intros (arr' & [= <-] & ?)|]. intros Hc. by exists arr.
  - split; [by intros (arr' & ? & ?)|]. set_solver.
Qed.

Lemma Resume_loop_in_one_go ts seen w d rs :
  fatal w = None → NoDup ts →
  Forall (λ x, x.2 ∈ pchans (disp w) !!! x.1) ts →
  steps (((λ x, ResumeTry (length rs) x.1 x.2) <$> ts) ++ [ResumeReturn (length rs)])
        {| world := w; dispatching := d;
           resuming := rs ++ [Some {| rf_todo := ts; rf_seen := seen |}];
           arriving := ∅ |}
  = Some {| world := set_disp (set_paused false (disp (Resume_loop ts w).1))
                              (Resume_loop ts w).1;
            dispatching := d; resuming := rs ++ [None]; arriving := ∅ |}.
Proof.
  revert w. induction ts as [|[name c] ts IH]; intros w Hf Hnd Hrec.
  - simpl. unfold step, Resume_return, frame. simpl. rewrite Hf.
    rewrite lookup_app_r by lia. rewrite Nat.sub_diag. simpl.
    by rewrite insert_last.
  - apply NoDup_cons in Hnd as [Hnotin Hnd].
    apply Forall_cons in Hrec as [Hc Hrec]. simpl in Hc.
    rewrite fmap_cons. simpl app. rewrite steps_cons.
    assert (Hs : step (ResumeTry (length rs) name c)
                   {| world := w; dispatching := d;
                      resuming := rs ++ [Some {| rf_todo := (name, c) :: ts;
                                                 rf_seen := seen |}];
                      arriving := ∅ |}
                 = Some {| world := set_pool (try_send c (pool w)).1 w;
                           dispatching := d;
                           resuming := rs ++ [Some {| rf_todo := ts; rf_seen := seen |}];
                           arriving := ∅ |}).
    { unfold step, Resume_try, frame. simpl. rewrite Hf.
      rewrite lookup_app_r by lia. rewrite Nat.sub_diag. simpl.
      rewrite bool_decide_eq_true_2 by (split; [left|done]).
      rewrite insert_last, filter_out_head by done. by rewrite select_send_empty. }
    rewrite Hs. cbn [mbind option_bind]. by rewrite IH.
Qed.

(** The function [Resume] is a call of Resume that nothing interrupts, made
    while no goroutine is on its way to its receive. *)
Lemma Resume_in_one_go w d rs :
  fatal w = None → paused (disp w) = true →
  steps (ResumeEnter
           :: ((λ x, ResumeTry (length rs) x.1 x.2) <$> resume_targets (disp w))
           ++ [ResumeReturn (length rs)])
        {| world := w; dispatching := d; resuming := rs; arriving := ∅ |}
  = Some {| world := (Resume w).1; dispatching := d; resuming := rs ++ [None];
            arriving := ∅ |}.
Proof.
  intros Hf Hp. rewrite steps_cons. unfold Resume. rewrite Hp. simpl negb. cbv iota.
  assert (Hs : step ResumeEnter
                 {| world := w; dispatching := d; resuming := rs; arriving := ∅ |}
               = Some {| world := w; dispatching := d;
                         resuming := rs ++ [Some {| rf_todo := resume_targets (disp w);
                                                    rf_seen := resume_targets (disp w) |}];
                         arriving := ∅ |}).
  { unfold step, Resume_enter. simpl. by rewrite Hf, Hp. }
  rewrite Hs. cbn [mbind option_bind].
  rewrite Resume_loop_in_one_go; [done|done|apply resume_targets_NoDup|].
  apply Forall_forall. intros [name c] Hin. simpl. by apply resume_targets_total.
Qed.

Lemma step_Elsewhere c s w' :
  is_dispatch c = false → is_resume c = false → (∀ i, c ≠ GoStep i) →
  exec c (world s) = Some w' → step (Elsewhere c) s = Some (in_world w' s).
Proof.
  intros Hd Hr Hg E. unfold step.
  assert (Hf : fatal (world s) = None).
  { unfold exec in E. by destruct (fatal (world s)). }
  rewrite Hf. destruct c; try done; try by rewrite E. by destruct (Hg i).
Qed.

Lemma step_GoStep i s w' :
  exec (GoStep i) (world s) = Some w' →
  step (Elsewhere (GoStep i)) s
  = Some {| world := w'; dispatching := dispatching s; resuming := resuming s;
            arriving := if reads_paused i (world s) then {[i]} ∪ arriving s
                        else arriving s |}.
Proof.
  unfold exec, step. destruct (fatal (world s)); [done|]. intros E.
  unfold go_step. by rewrite E.
Qed.

(** Every run of the calls taken in one go is a run of the process. *)
Lemma run_steps cs w w' s :
  run cs w = Some w' → world s = w → idle s →
  ∃ ms s', steps ms s = Some s' ∧ world s' = w' ∧ idle s'.
Proof.
  revert w s. induction cs as [|c cs IH]; intros w s; simpl.
  - intros [= <-] Hw Hi. by exists [], s.
  - destruct (exec c w) as [w1|] eqn:E; simpl; [|done]. intros Hrun Hw Hi.
    assert (Hf : fatal w = None).
    { unfold exec in E. by destruct (fatal w). }
    assert (Hone : ∃ ms1 s1, steps ms1 s = Some s1 ∧ world s1 = w1 ∧ idle s1).
    { destruct s as [w0 d rs a]. destruct Hi as (Hd & Hrs & Ha). simpl in *. subst w0 d a.
      assert (Hplain : is_dispatch c = false → is_resume c = false →
                (∀ i, c ≠ GoStep i) →
                ∃ ms1 s1, steps ms1 {| world := w; dispatching := None; resuming := rs;
                                       arriving := ∅ |} = Some s1
                          ∧ world s1 = w1 ∧ idle s1).
      { intros H1 H2 H3. exists [Elsewhere c]. eexists. simpl.
        rewrite (step_Elsewhere c _ w1) by done. simpl. by repeat split. }
      destruct c as [ev l|ev l|name e| | |ev| |i]; try by apply Hplain.
      - unfold exec in E. rewrite Hf in E.
        eexists. eexists. split; [by apply Dispatch_in_one_go|by repeat split].
      - unfold exec in E. rewrite Hf in E. injection E as <-.
        destruct (paused (disp w)) eqn:Hp.
        + eexists. eexists. split; [by apply Resume_in_one_go|].
          split; [done|]. split; [done|]. split; [|done]. simpl.
          apply Forall_app. split; [done|]. by constructor.
        + exists [ResumeEnter]. eexists. simpl. unfold step, Resume_enter. simpl.
          rewrite Hf, Hp. simpl. unfold Resume. rewrite Hp. by repeat split.
      - destruct (reads_paused i w) eqn:Hr.
        + exists [Elsewhere (GoStep i); Park i]. eexists.
          rewrite steps_cons, (step_GoStep i _ w1) by done. simpl reads_paused.
          cbn [world]. rewrite Hr. cbn [mbind option_bind].
          assert (Hf1 : fatal w1 = None).
          { unfold exec in E. rewrite Hf in E.
            unfold reads_paused in Hr. apply andb_true_iff in Hr as [Hr Hp].
            apply bool_decide_eq_true in Hr. unfold executeListener in E.
            destruct (pool w !! i) as [g|]; simpl in *; [|done].
            injection Hr as Hr. rewrite Hr in E. by injection E as <-. }
          simpl. unfold step. simpl. rewrite Hf1. unfold park. simpl.
          rewrite bool_decide_eq_true_2 by set_solver. simpl.
          split; [done|]. split; [done|]. split; [done|]. split; [done|]. simpl.
          set_solver.
        + exists [Elsewhere (GoStep i)]. eexists.
          rewrite steps_cons, (step_GoStep i _ w1) by done. cbn [world]. rewrite Hr.
          simpl. by repeat split. }
    destruct Hone as (ms1 & s1 & Hs1 & Hw1 & Hi1).
    destruct (IH _ _ Hrun Hw1 Hi1) as (ms & s' & Hms & Hw' & Hi').
    exists (ms1 ++ ms), s'. rewrite steps_app, Hs1. done.
Qed.

Lemma reachable_attainable w : reachable w → ∃ s, attainable s ∧ world s = w ∧ idle s.
Proof.
  intros [cs Hcs].
  destruct (run_steps cs boot w (at_rest boot) Hcs eq_refl) as (ms & s & Hms & Hw & Hi).
  { by repeat split. }
  exists s. split; [by exists ms|done].
Qed.

(** ** What a move does to the world *)

(** A move that is no step of a [Dispatch] leaves the [Dispatch] in
    progress where it is, and is quiet in the world. *)
Lemma step_quiet m s s' :
  step m s = Some s' → enters_dispatch m = false → m ≠ DispatchStep →
  dispatching s' = dispatching s ∧ quiet (world s) (world s').
Proof.
  intros H Hm Hm'. unfold step in H.
  destruct (fatal (world s)) eqn:Hf; [done|].
  destruct m as [name e| | |k name c|k name c|k|i|c]; try done.
  - unfold Resume_enter in H.
    destruct (negb (paused (disp (world s)))); injection H as <-;
      (split; [done|]); right; by left.
  - unfold Resume_try in H. destruct (frame k s) as [f|]; simpl in H; [|done].
    destruct (bool_decide _); [|done]. injection H as <-. split; [done|].
    right. right. left. by eexists _, _.
  - unfold Resume_new in H. destruct (frame k s) as [f|]; simpl in H; [|done].
    destruct (bool_decide _); [|done]. injection H as <-. split; [done|].
    right. right. left. by eexists _, _.
  - unfold Resume_return in H. destruct (frame k s) as [f|]; simpl in H; [|done].
    destruct (bool_decide _); [|done]. injection H as <-. split; [done|].
    right. right. by right.
  - unfold park in H. destruct (bool_decide _); [|done]. injection H as <-.
    split; [done|]. right. by left.
  - destruct c as [ev l|ev l|name e| | |ev| |i]; simpl in H; try done.
    all: try (destruct (exec _ (world s)) as [w'|] eqn:E; simpl in H; [|done];
              injection H as <-; split; [done|]; left;
              match type of E with exec ?c0 _ = _ => by exists c0 end).
    unfold go_step in H.
    destruct (executeListener i (world s)) as [w'|] eqn:E; simpl in H; [|done].
    injection H as <-. split; [done|]. left. exists (GoStep i).
    split; [done|]. split; [done|]. unfold exec. by rewrite Hf.
Qed.

(** The three kinds of move. *)
Lemma step_kinds m s s' :
  step m s = Some s' →
  (∃ name e, m = DispatchEnter name e ∧ Dispatch_enter name e s = Some s')
  ∨ (m = DispatchStep ∧ Dispatch_step s = Some s')
  ∨ (enters_dispatch m = false
     ∧ dispatching s' = dispatching s ∧ quiet (world s) (world s')).
Proof.
  intros H. destruct (enters_dispatch m) eqn:Hm.
  { left. destruct m; try done. unfold step in H.
    destruct (fatal (world s)); [done|]. eauto. }
  assert (Hq : m ≠ DispatchStep →
               dispatching s' = dispatching s ∧ quiet (world s) (world s')).
  { intros Hne. by eapply step_quiet. }
  destruct m; try (right; right; split; [done|]; by apply Hq).
  right. left. unfold step in H. by destruct (fatal (world s)).
Qed.

(** ** The mutex *)

(** What a call other than [Dispatch] does to the mutex and to the [Wait]
    in progress: nothing, or it is the entry of a [Wait], or its return. *)
Lemma exec_lock_cases c w w' :
  is_dispatch c = false → exec c w = Some w' →
  (mu (disp w') = mu (disp w) ∧ (is_Some (waiting w') ↔ is_Some (waiting w)))
  ∨ (mu (disp w) = false ∧ mu (disp w') = true ∧ is_Some (waiting w'))
  ∨ (is_Some (waiting w) ∧ mu (disp w') = false ∧ waiting w' = None).
Proof.
  intros Hc. unfold exec. destruct (fatal w); [done|].
  destruct c as [ev l|ev l|name e| | |ev| |i]; simpl; intros H; try done.
  - left. by injection H as <-.
  - left. by injection H as <-.
  - left. by injection H as <-.
  - left. injection H as <-. destruct (Resume_frame w) as (_&_&_&Hmu&_&Hw&_).
    simpl in *. by rewrite Hmu, Hw.
  - right. left. unfold Wait, Lock in H. destruct (mu (disp w)); simpl in H; [done|].
    injection H as <-. simpl. eauto.
  - unfold Wait_step in H. destruct (waiting w) as [f|] eqn:Hf; simpl in H; [|done].
    destruct (decide (w_i f < w_len f)) as [Hlt|Hlt].
    + left. destruct ((qchans (disp w) !!! w_event f) !! w_i f) as [[c|]|] eqn:Hq.
      * destruct (recv c (pool w)) as [gs|]; simpl in H; [|done].
        injection H as <-. simpl. split; [done|]. split; eauto.
      * injection H as <-. simpl. split; [done|]. split; eauto.
      * injection H as <-. simpl. rewrite Hf. done.
    + right. right. injection H as <-. simpl. eauto.
  - left. destruct (executeListener_disp _ _ _ H) as (_ & _ & Hmu & _ & Hw & _).
    by rewrite Hmu, Hw.
Qed.

Lemma quiet_lock_cases w w' :
  quiet w w' →
  (mu (disp w') = mu (disp w) ∧ (is_Some (waiting w') ↔ is_Some (waiting w)))
  ∨ (mu (disp w) = false ∧ mu (disp w') = true ∧ is_Some (waiting w'))
  ∨ (is_Some (waiting w) ∧ mu (disp w') = false ∧ waiting w' = None).
Proof.
  intros [(c & Hc & _ & E)|[->|[(a & c & ->)| ->]]].
  - by eapply exec_lock_cases.
  - by left.
  - left. destruct (select_send_frame a c w) as (-> & -> & _). done.
  - by left.
Qed.

Lemma lock_ok_step m s s' : lock_ok s → step m s = Some s' → lock_ok s'.
Proof.
  intros [Hiff Hnot] H.
  destruct (step_kinds _ _ _ H) as [(name & e & _ & He)|[[_ Hs]|(_ & Hd & Hq)]].
  - unfold Dispatch_enter, Lock in He.
    destruct (mu (disp (world s))) eqn:Hmu; simpl in He; [done|]. injection He as <-.
    destruct (ensure_pchans_frame name (set_disp (set_mu true (disp (world s))) (world s)))
      as (_&_&Ew&_&Emu&_).
    unfold lock_ok. simpl in *. rewrite Ew, Emu. simpl.
    assert (Hno : ¬ is_Some (waiting (world s))).
    { intros Hw. assert (false = true); [|done]. apply Hiff. by right. }
    split; [split; eauto|]. by intros [_ ?].
  - unfold Dispatch_step in Hs. destruct (dispatching s) as [f|] eqn:Hd; simpl in Hs; [|done].
    assert (Hmu : mu (disp (world s)) = true) by (apply Hiff; left; eauto).
    assert (Hno : ¬ is_Some (waiting (world s))).
    { intros Hw. apply Hnot. split; eauto. }
    destruct (df_rest f) as [|l rest]; injection Hs as <-; unfold lock_ok; simpl.
    + split; [split; [done|]|].
      * intros [[? ?]|?]; done.
      * by intros [[? ?] _].
    + rewrite Hmu. split; [split; eauto|]. by intros [_ ?].
  - unfold lock_ok. rewrite Hd.
    destruct (quiet_lock_cases _ _ Hq) as [[Emu Ew]|[(Hfree & Emu & Ew)|(Hw & Emu & Ew)]].
    + rewrite Emu, Ew. done.
    + assert (Hnone : ¬ is_Some (dispatching s)).
      { intros Hd'. assert (false = true); [|done]. rewrite <- Hfree. apply Hiff. by left. }
      rewrite Emu. split; [split; eauto|]. by intros [? _].
    + assert (Hnone : ¬ is_Some (dispatching s)).
      { intros Hd'. by apply Hnot. }
      rewrite Emu, Ew. split; [split; [done|]|].
      * intros [?|[? ?]]; done.
      * by intros [_ [? ?]].
Qed.

Lemma lock_ok_attainable s : attainable s → lock_ok s.
Proof.
  intros [ms Hms]. revert Hms.
  assert (H0 : lock_ok (at_rest boot)).
  { split; [split; [done|]|]; simpl.
    - intros [[? ?]|[? ?]]; done.
    - by intros [[? ?] _]. }
  revert H0. generalize (at_rest boot). induction ms as [|m ms IH]; intros s0 H0; simpl.
  - by intros [= <-].
  - destruct (step m s0) as [s1|] eqn:E; simpl; [|done]. apply IH. by eapply lock_ok_step.
Qed.

(** X4. The mutex is held exactly while a [Dispatch] or a [Wait] is in
    progress, from its d.mu.Lock() to its deferred Unlock, and the two are
    never in progress together.  So a call of [Dispatch] or of [Wait] is
    held at the lock exactly while another [Dispatch] or a [Wait], for
    whatever event, is in progress, and goes through otherwise. *)
Theorem mutex_held_exactly_during_Dispatch_or_Wait (s : Process) :
  attainable s →
  (mu (disp (world s)) = true
   ↔ is_Some (dispatching s) ∨ is_Some (waiting (world s)))
  ∧ ¬ (is_Some (dispatching s) ∧ is_Some (waiting (world s)))
  ∧ (∀ name e, Dispatch_enter name e s = None
               ↔ is_Some (dispatching s) ∨ is_Some (waiting (world s)))
  ∧ (∀ ev, Wait ev (world s) = None
           ↔ is_Some (dispatching s) ∨ is_Some (waiting (world s))).
Proof.
  intros Ha. destruct (lock_ok_attainable _ Ha) as [Hiff Hnot].
  split; [done|]. split; [done|]. split.
  - intros name e. rewrite <- Hiff. unfold Dispatch_enter, Lock.
    by destruct (mu (disp (world s))).
  - intros ev. rewrite <- Hiff. unfold Wait, Lock. by destruct (mu (disp (world s))).
Qed.

Lemma mutex_held_exactly_during_Dispatch_or_Wait_witness :
  attainable s_dispatch_entered
  ∧ is_Some (dispatching s_dispatch_entered)
  ∧ mu (disp (world s_dispatch_entered)) = true
  ∧ Wait "e" (world s_dispatch_entered) = None.
Proof.
  assert (Ha : attainable s_dispatch_entered).
  { exists [Elsewhere (CListenerFunc "e" (Func 1)); DispatchEnter "e" ev0].
    vm_compute. reflexivity. }
  assert (Hd : is_Some (dispatching s_dispatch_entered)) by (vm_compute; eauto).
  split; [exact Ha|]. split; [exact Hd|].
  destruct (mutex_held_exactly_during_Dispatch_or_Wait _ Ha) as (H1 & _ & _ & H4).
  split; [apply H1; by left|]. apply H4. by left.
Defined.

(** ** Dispatch, step by step *)

Lemma gates_ok_same w w' :
  gates_ok w → pool w' = pool w → fresh w' = fresh w →
  (∀ n, pchans (disp w') !!! n = pchans (disp w) !!! n) → gates_ok w'.
Proof.
  intros (Ha & Hb & Hc) Hp Hf Hpc. unfold gates_ok. rewrite Hp, Hf.
  split; [done|]. split; [done|].
  eapply Forall_impl; [exact Hc|]. simpl. intros g Hg. by rewrite Hpc.
Qed.

Lemma launch_pchans name e w l n :
  pchans (disp (launch name e w l)) !!! n
  = if decide (n = name) then {[fresh w]} ∪ (pchans (disp w) !!! n)
    else pchans (disp w) !!! n.
Proof.
  simpl. destruct (decide (n = name)) as [->|Hne].
  - by rewrite lookup_total_insert_eq.
  - by rewrite lookup_total_insert_ne.
Qed.

Lemma launch_qchans name e w l n :
  qchans (disp (launch name e w l)) !!! n
  = if decide (n = name) then (qchans (disp w) !!! n) ++ [Some (S (fresh w))]
    else qchans (disp w) !!! n.
Proof.
  simpl. destruct (decide (n = name)) as [->|Hne].
  - by rewrite lookup_total_insert_eq.
  - by rewrite lookup_total_insert_ne.
Qed.

Lemma gates_ok_launch name e w l : gates_ok w → gates_ok (launch name e w l).
Proof.
  intros (Ha & Hb & Hc). unfold gates_ok.
  assert (Hpool : pool (launch name e w l)
                  = pool w ++ [{| g_name := name; g_l := l; g_e := e; g_p := fresh w;
                                  g_q := S (fresh w); g_pc := AtPauseCheck |}]) by done.
  assert (Hfresh : fresh (launch name e w l) = S (S (fresh w))) by done.
  rewrite Hpool, Hfresh. split; [|split].
  - apply Forall_app. split.
    + eapply Forall_impl; [exact Ha|]. simpl. intros g Hg. lia.
    + constructor; [simpl; lia|constructor].
  - rewrite fmap_app. apply NoDup_app. split; [done|]. split.
    + intros c Hold Hnew. simpl in Hnew. apply list_elem_of_singleton in Hnew as ->.
      apply list_elem_of_fmap in Hold as (g & Hp & Hg).
      rewrite Forall_forall in Ha. specialize (Ha _ Hg). lia.
    + simpl. apply NoDup_singleton.
  - apply Forall_app. split.
    + apply Forall_forall. intros g Hg. rewrite Forall_forall in Ha, Hc.
      rewrite <- (Hc _ Hg). specialize (Ha _ Hg). rewrite launch_pchans.
      destruct (decide (g_name g = name)); [|done].
      rewrite elem_of_union, elem_of_singleton. split; [|by right].
      intros [Heq|?]; [lia|done].
    + constructor; [|constructor]. rewrite launch_pchans. simpl.
      rewrite decide_True by done. split; [done|]. intros _. set_solver.
Qed.

Lemma gates_ok_quiet w w' : gates_ok w → quiet w w' → gates_ok w'.
Proof.
  intros Hok [(c & Hc & _ & E)|[->|[(a & c & ->)| ->]]].
  - by eapply gates_ok_step.
  - done.
  - destruct (select_send_frame a c w) as (Ed & _ & Ef & _).
    eapply gates_ok_nudge; [exact Hok|apply select_send_nudge|by rewrite Ed|done].
  - by eapply gates_ok_same.
Qed.

Lemma gates_ok_process_step m s s' :
  gates_ok (world s) → step m s = Some s' → gates_ok (world s').
Proof.
  intros Hok H.
  destruct (step_kinds _ _ _ H) as [(name & e & _ & He)|[[_ Hs]|(_ & Hd & Hq)]].
  - unfold Dispatch_enter, Lock in He.
    destruct (mu (disp (world s))); simpl in He; [done|]. injection He as <-. simpl.
    destruct (ensure_pchans_frame name (set_disp (set_mu true (disp (world s))) (world s)))
      as (Ep&Ef&_).
    eapply gates_ok_same; [exact Hok|done|done|].
    intros n. by rewrite ensure_pchans_total.
  - unfold Dispatch_step in Hs. destruct (dispatching s) as [f|]; simpl in Hs; [|done].
    destruct (df_rest f) as [|l rest]; injection Hs as <-; simpl.
    + by eapply gates_ok_same.
    + by apply gates_ok_launch.
  - by eapply gates_ok_quiet.
Qed.

Lemma sane_step m s s' : sane s → step m s = Some s' → sane s'.
Proof.
  intros [H1 H2] H. split; [by eapply lock_ok_step|by eapply gates_ok_process_step].
Qed.

Lemma sane_steps ms s s' : sane s → steps ms s = Some s' → sane s'.
Proof.
  revert s. induction ms as [|m ms IH]; intros s Hs; simpl.
  - by intros [= <-].
  - destruct (step m s) as [s1|] eqn:E; simpl; [|done]. apply IH. by eapply sane_step.
Qed.

Lemma sane_attainable s : attainable s → sane s.
Proof.
  intros [ms Hms]. eapply sane_steps; [|exact Hms].
  split.
  - apply lock_ok_attainable. by exists [].
  - split; [|split]; simpl; constructor.
Qed.

Lemma advance_q gs gs' : Forall2 advance gs gs' → g_q <$> gs' = g_q <$> gs.
Proof.
  induction 1 as [|g g' gs gs' Ha _ IH]; csimpl; [done|].
  destruct Ha as [(_ & _ & _ & _ & Hq) _]. by rewrite Hq, IH.
Qed.

Lemma advance_p gs gs' : Forall2 advance gs gs' → g_p <$> gs' = g_p <$> gs.
Proof.
  induction 1 as [|g g' gs gs' Ha _ IH]; csimpl; [done|].
  destruct Ha as [(_ & _ & _ & Hp & _) _]. by rewrite Hp, IH.
Qed.

Lemma spawned_snoc name e base hs l :
  spawned name e base (hs ++ [l])
  = spawned name e base hs
    ++ [{| g_name := name; g_l := l; g_e := e; g_p := base + 2 * length hs;
           g_q := S (base + 2 * length hs); g_pc := AtPauseCheck |}].
Proof.
  revert base. induction hs as [|h hs IH]; intros base; simpl.
  - by rewrite Nat.add_0_r.
  - rewrite IH. do 4 f_equal; lia.
Qed.

(** A call other than [Dispatch] makes no channel. *)
Lemma exec_fresh c w w' : is_dispatch c = false → exec c w = Some w' → fresh w' = fresh w.
Proof.
  intros Hc H. destruct (exec_gate_cases _ _ _ H) as
    [(_ & _ & _ & Hf)|[(name & e & -> & _)|(i & g & -> & _ & _ & ->)]]; done.
Qed.

(** While no [Wait] is in progress, a call other than [Dispatch] leaves the
    quit channels alone. *)
Lemma exec_qchans_idle c w w' :
  is_dispatch c = false → waiting w = None → mu (disp w) = true →
  exec c w = Some w' → qchans (disp w') = qchans (disp w).
Proof.
  intros Hc Hw Hmu. unfold exec. destruct (fatal w); [done|].
  destruct c as [ev l|ev l|name e| | |ev| |i]; simpl; intros H; try done.
  - by injection H as <-.
  - by injection H as <-.
  - by injection H as <-.
  - injection H as <-. by destruct (Resume_frame w) as (_&_&Eq&_).
  - unfold Wait, Lock in H. rewrite Hmu in H. done.
  - unfold Wait_step in H. rewrite Hw in H. done.
  - by destruct (executeListener_disp _ _ _ H) as (_ & Eq & _).
Qed.

(** What a quiet move leaves alone while a [Dispatch] holds the mutex. *)
Lemma quiet_drift w w' :
  quiet w w' → waiting w = None → mu (disp w) = true →
  Forall2 advance (pool w) (pool w') ∧ fresh w' = fresh w
  ∧ qchans (disp w') = qchans (disp w).
Proof.
  intros [(c & Hc & _ & E)|[->|[(a & c & ->)| ->]]] Hw Hmu.
  - split; [|split].
    + destruct (exec_pool _ _ _ E) as (gs & Hadv & ->).
      destruct c; try done; simpl; by rewrite app_nil_r.
    + by eapply exec_fresh.
    + by eapply exec_qchans_idle.
  - split; [apply advance_all_refl|done].
  - destruct (select_send_frame a c w) as (-> & _ & -> & _).
    split; [apply select_send_advance|done].
  - split; [apply advance_all_refl|done].
Qed.

Lemma progress_drift name e w0 done s s' :
  dispatch_progress name e w0 done s →
  dispatching s' = dispatching s →
  Forall2 advance (pool (world s)) (pool (world s')) →
  fresh (world s') = fresh (world s) →
  qchans (disp (world s')) !!! name = qchans (disp (world s)) !!! name →
  dispatch_progress name e w0 done s'.
Proof.
  intros (rest & olds & news & Hl & Hd & Hp & Ho & Hn & Hf & Hq) Ed Hadv Ef Eq.
  rewrite Hp in Hadv. apply Forall2_app_inv_l in Hadv as (olds' & news' & Ho' & Hn' & Hp').
  exists rest, olds', news'. rewrite Ed, Ef, Eq.
  split; [done|]. split; [done|]. split; [done|].
  split; [by eapply advance_all_trans|]. split; [by eapply advance_all_trans|].
  split; [done|]. rewrite Hq. f_equal.
  rewrite !list_fmap_compose. by rewrite (advance_q _ _ Hn').
Qed.

Lemma progress_step name e w0 done m s s' :
  lock_ok s → dispatch_progress name e w0 done s →
  enters_dispatch m = false → step m s = Some s' → is_Some (dispatching s') →
  ∃ done', dispatch_progress name e w0 done' s'.
Proof.
  intros [Hiff Hnot] Hpr Hm H Hsome.
  pose proof Hpr as (rest & olds & news & Hl & Hd & Hp & Ho & Hn & Hf & Hq).
  assert (Hmu : mu (disp (world s)) = true) by (apply Hiff; left; rewrite Hd; eauto).
  assert (Hw : waiting (world s) = None).
  { destruct (waiting (world s)) eqn:Ew; [|done]. exfalso. apply Hnot.
    rewrite Hd. split; eauto. }
  destruct (step_kinds _ _ _ H) as [(n0 & e0 & _ & He)|[[_ Hs]|(_ & Hd' & Hq')]].
  - unfold Dispatch_enter, Lock in He. by rewrite Hmu in He.
  - unfold Dispatch_step in Hs. rewrite Hd in Hs. simpl in Hs.
    destruct rest as [|l rest]; injection Hs as <-; [by destruct Hsome|].
    exists (done ++ [l]), rest, olds,
      (news ++ [{| g_name := name; g_l := l; g_e := e; g_p := fresh (world s);
                   g_q := S (fresh (world s)); g_pc := AtPauseCheck |}]).
    split; [by rewrite <- app_assoc|]. split; [done|].
    split; [simpl; by rewrite Hp, <- app_assoc|]. split; [done|].
    split.
    { rewrite spawned_snoc. apply Forall2_app; [done|].
      rewrite Hf. constructor; [apply advance_refl|constructor]. }
    split; [simpl; rewrite Hf, length_app; simpl; lia|].
    cbn [world]. rewrite launch_qchans, decide_True by done. rewrite Hq, fmap_app.
    simpl. by rewrite <- app_assoc.
  - destruct (quiet_drift _ _ Hq' Hw Hmu) as (Hadv & Efr & Eq).
    exists done. eapply progress_drift; eauto. by rewrite Eq.
Qed.

Lemma dispatching_stays_None ms s s' :
  Forall (λ m, enters_dispatch m = false) ms → dispatching s = None →
  steps ms s = Some s' → dispatching s' = None.
Proof.
  revert s. induction ms as [|m ms IH]; intros s Hms Hd; simpl.
  - by intros [= <-].
  - inversion Hms as [|? ? Hm Hms']; subst.
    destruct (step m s) as [s1|] eqn:E; simpl; [|done]. apply IH; [done|].
    destruct (step_kinds _ _ _ E) as [(n0 & e0 & -> & He)|[[_ Hs]|(_ & Hd' & _)]].
    + done.
    + unfold Dispatch_step in Hs. by rewrite Hd in Hs.
    + by rewrite Hd'.
Qed.

Lemma progress_steps name e w0 ms done s s' :
  sane s → dispatch_progress name e w0 done s →
  Forall (λ m, enters_dispatch m = false) ms →
  steps ms s = Some s' → is_Some (dispatching s') →
  ∃ done', dispatch_progress name e w0 done' s'.
Proof.
  revert done s. induction ms as [|m ms IH]; intros done s Hs Hpr Hms; simpl.
  - intros [= <-] _. eauto.
  - inversion Hms as [|? ? Hm Hms']; subst.
    destruct (step m s) as [s1|] eqn:E; simpl; [|done]. intros Hrun Hsome.
    destruct (dispatching s1) as [f|] eqn:Hd1.
    + destruct (progress_step _ _ _ _ _ _ _ (proj1 Hs) Hpr Hm E) as [done1 Hpr1].
      { rewrite Hd1. eauto. }
      apply (IH done1 s1); [by eapply sane_step|done|done|done|done].
    + rewrite (dispatching_stays_None _ _ _ Hms' Hd1 Hrun) in Hsome. by destruct Hsome.
Qed.

(** C1, as stated, fails: not in every state of the dispatcher.
    [Dispatch] begins with d.mu.Lock(), and [Wait] holds the mutex while it
    is blocked on a quit channel.  With Wait("e") waiting for the signal of
    a listener, Dispatch("e", ev0) is held at the lock; it goes through
    once the signal has been taken and [Wait] has returned; and where the
    listener has returned without a signal, it is held whatever the process
    does afterwards. *)
Lemma Dispatch_held_behind_Wait :
  attainable (at_rest w_waiting)
  ∧ Dispatch "e" ev0 w_waiting = None
  ∧ step (DispatchEnter "e" ev0) (at_rest w_waiting) = None
  ∧ is_Some (steps [Elsewhere WaitStep; Elsewhere WaitStep; DispatchEnter "e" ev0]
                   (at_rest w_waiting))
  ∧ reachable w_silent_listener
  ∧ ∀ cs w', run cs w_silent_listener = Some w' → Dispatch "e" ev0 w' = None.
Proof.
  split.
  { exists [Elsewhere (CListenerFunc "e" (Func 1)); DispatchEnter "e" ev0;
            DispatchStep; DispatchStep; Elsewhere (GoStep 0); Elsewhere (GoStep 0);
            Elsewhere (CWait "e")].
    vm_compute. reflexivity. }
  split; [vm_compute; reflexivity|]. split; [vm_compute; reflexivity|].
  split; [vm_compute; eauto|]. split.
  { exists [CListenerFunc "e" (Func 0); CDispatch "e" ev0;
            GoStep 0; GoStep 0; GoStep 0; GoStep 0; CWait "e"].
    vm_compute. reflexivity. }
  intros cs w' Hrun.
  assert (Hst : stuck_on {| w_event := "e"; w_i := 0; w_len := 1 |} 1 w_silent_listener).
  { split; [vm_compute; reflexivity|]. split; [vm_compute; reflexivity|].
    split; [simpl; lia|]. split; [vm_compute; reflexivity|].
    vm_compute. repeat constructor. }
  destruct (stuck_on_run _ _ _ _ _ Hst Hrun) as [Hst' _].
  by destruct (stuck_on_blocked _ _ _ Hst') as (_ & Hd & _).
Qed.

(** C1, amended.  In every state of the process in which the mutex is free,
    a call of Dispatch(name, e) goes through its entry at once, and from
    then on, whatever the goroutines and the other callers do meanwhile, its
    next step is never held up: it waits for no listener.  When it returns
    it has launched one goroutine for each listener that was registered for
    [name] when it was called, in registration order, each with a pause
    channel and a quit channel made for it, all distinct and new; the quit
    channels have been appended, in that order, to the slice of [name]; each
    pause channel is in the set of [name] unless its goroutine has already
    returned; and the mutex is free again.  The goroutines, the new ones
    included, may have moved on by then.  (No other [Dispatch] enters
    meanwhile: the mutex is held.) *)
Theorem Dispatch_launches_one_per_listener (name : string) (e : Event) (s0 : Process) :
  attainable s0 →
  mu (disp (world s0)) = false →
  fatal (world s0) = None →
  ∃ s1, step (DispatchEnter name e) s0 = Some s1 ∧
  ∀ ms s,
    Forall (λ m, enters_dispatch m = false) ms →
    steps ms s1 = Some s → is_Some (dispatching s) →
    (fatal (world s) = None → is_Some (step DispatchStep s))
    ∧ ∀ s', step DispatchStep s = Some s' → dispatching s' = None →
        ∃ olds news,
          pool (world s') = olds ++ news
          ∧ Forall2 advance (pool (world s0)) olds
          ∧ Forall2 advance
              (spawned name e (fresh (world s0)) (listeners (disp (world s0)) !!! name))
              news
          ∧ g_l <$> news = listeners (disp (world s0)) !!! name
          ∧ Forall (λ g, g_name g = name ∧ g_e g = e
                         ∧ fresh (world s0) ≤ g_p g ∧ fresh (world s0) ≤ g_q g) news
          ∧ NoDup ((g_p <$> news) ++ (g_q <$> news))
          ∧ (∀ g, g ∈ news →
               (g_p g ∈ pchans (disp (world s')) !!! name ↔ g_pc g ≠ Returned))
          ∧ qchans (disp (world s')) !!! name
            = qchans (disp (world s0)) !!! name ++ (Some ∘ g_q <$> news)
          ∧ mu (disp (world s')) = false.
Proof.
  intros Ha Hmu Hf.
  set (w0 := world s0). set (hs := listeners (disp w0) !!! name).
  set (s1 := {| world := ensure_pchans name (set_disp (set_mu true (disp w0)) w0);
                dispatching := Some {| df_name := name; df_e := e; df_rest := hs |};
                resuming := resuming s0; arriving := arriving s0 |}).
  assert (H1 : step (DispatchEnter name e) s0 = Some s1).
  { subst s1 hs w0. unfold step, Dispatch_enter, Lock. by rewrite Hf, Hmu. }
  exists s1. split; [done|].
  assert (Hsane1 : sane s1) by (eapply sane_step; [by apply sane_attainable|exact H1]).
  assert (Hpr1 : dispatch_progress name e w0 [] s1).
  { destruct (ensure_pchans_frame name (set_disp (set_mu true (disp w0)) w0))
      as (Ep & Ef & _ & _ & _ & _ & _ & Eq).
    exists hs, (pool w0), []. simpl. rewrite Ep, Ef, Eq. simpl.
    rewrite !app_nil_r. split; [done|]. split; [done|]. split; [done|].
    split; [apply advance_all_refl|]. split; [constructor|]. split; [lia|done]. }
  intros ms s Hms Hrun Hsome.
  destruct (progress_steps _ _ _ _ _ _ _ Hsane1 Hpr1 Hms Hrun Hsome)
    as (done & rest & olds & news & Hl & Hd & Hp & Ho & Hn & Hfr & Hq).
  assert (Hsane : sane s) by (by eapply sane_steps).
  split.
  { intros Hfs. unfold step, Dispatch_step. rewrite Hfs, Hd. simpl.
    destruct rest; eauto. }
  intros s' Hstep Hnone.
  assert (Hsane' : sane s') by (by eapply sane_step).
  unfold step in Hstep. destruct (fatal (world s)); [done|].
  unfold Dispatch_step in Hstep. rewrite Hd in Hstep. simpl in Hstep.
  destruct rest as [|l rest]; injection Hstep as <-; [|done].
  rewrite app_nil_r in Hl. subst hs. rewrite Hl. clear Hnone.
  pose proof (spawned_shape name e (fresh w0) done) as Hsh.
  exists olds, news. simpl. split; [done|]. split; [done|]. split; [done|].
  split; [by rewrite (advance_handlers _ _ Hn), spawned_handlers|].
  assert (Hframe : ∀ g, g ∈ news →
            g_name g = name ∧ g_e g = e ∧ fresh w0 ≤ g_p g ∧ fresh w0 ≤ g_q g).
  { intros g Hg. apply list_elem_of_lookup in Hg as [i Hi].
    destruct (Forall2_lookup_r _ _ _ _ _ Hn Hi) as (g0 & Hg0 & [(E1&_&E3&E4&E5) _]).
    apply list_elem_of_lookup_2 in Hg0. rewrite Forall_forall in Hsh.
    destruct (Hsh _ Hg0) as (S1 & S2 & _ & S4 & S5).
    rewrite E1, E3, E4, E5. repeat split; try done; lia. }
  split; [by apply Forall_forall|].
  split.
  { rewrite (advance_p _ _ Hn), (advance_q _ _ Hn).
    apply NoDup_app. split; [apply spawned_p_NoDup|]. split; [|apply spawned_q_NoDup].
    intros c Hc1 Hc2. exact (spawned_p_q_disjoint _ _ _ _ _ Hc1 Hc2). }
  split.
  { intros g Hg. destruct (Hframe _ Hg) as (<- & _).
    destruct Hsane' as [_ (_ & _ & Hgates)]. simpl in Hgates.
    rewrite Forall_forall in Hgates. apply Hgates. rewrite Hp.
    apply elem_of_app. by right. }
  split; [done|done].
Qed.

Lemma Dispatch_launches_one_per_listener_witness :
  attainable s_registered
  ∧ mu (disp (world s_registered)) = false
  ∧ fatal (world s_registered) = None
  ∧ ∃ s1, step (DispatchEnter "e" ev0) s_registered = Some s1.
Proof.
  assert (Ha : attainable s_registered).
  { exists [Elsewhere (CListenerFunc "e" (Func 1));
            Elsewhere (CListener "e" (ListenerImpl 1))].
    vm_compute. reflexivity. }
  split; [exact Ha|]. split; [reflexivity|]. split; [reflexivity|].
  destruct (Dispatch_launches_one_per_listener "e" ev0 s_registered
              Ha eq_refl eq_refl) as (s1 & H1 & _).
  exists s1. exact H1.
Defined.

(** A call of [Dispatch] with two listeners, the first goroutine running to
    its return (its listener makes no send) before the second is launched:
    when [Dispatch] returns there are two goroutines and two quit channels,
    and the set of pause channels holds the second one only. *)
Example dispatch_interleaved :
  (λ s, (g_pc <$> pool (world s), g_l <$> pool (world s),
         qchans (disp (world s)) !!! "e",
         elements (pchans (disp (world s)) !!! "e"),
         mu (disp (world s)), dispatching s))
    <$> steps [Elsewhere (CListenerFunc "e" (Func 0));
               Elsewhere (CListener "e" (ListenerImpl 1));
               DispatchEnter "e" ev0; DispatchStep;
               Elsewhere (GoStep 0); Elsewhere (GoStep 0);
               Elsewhere (GoStep 0); Elsewhere (GoStep 0);
               DispatchStep; DispatchStep] (at_rest boot)
  = Some ([Returned; AtPauseCheck], [VListenerFunc (Func 0); VListener 1],
          [Some 1; Some 3], [2], false, None).
Proof. vm_compute. reflexivity. Qed.

(** ** Resume, step by step *)

Lemma exec_paused c w w' :
  is_dispatch c = false → is_resume c = false → exec c w = Some w' →
  paused (disp w') = paused (disp w) ∨ (c = CPause ∧ paused (disp w') = true).
Proof.
  intros Hd Hr. unfold exec. destruct (fatal w); [done|].
  destruct c as [ev l|ev l|name e| | |ev| |i]; simpl; intros H; try done.
  - left. by injection H as <-.
  - left. by injection H as <-.
  - right. by injection H as <-.
  - left. unfold Wait, Lock in H. destruct (mu (disp w)); simpl in H; [done|].
    by injection H as <-.
  - left. by destruct (Wait_step_disp _ _ H) as (_ & _ & Hp & _).
  - left. by destruct (executeListener_disp _ _ _ H) as (_ & _ & _ & Hp & _).
Qed.

(** The flag is cleared by the return of a [Resume], and by nothing else. *)
Lemma step_flag m s s' :
  step m s = Some s' → returns_resume m = false →
  paused (disp (world s)) = true → paused (disp (world s')) = true.
Proof.
  intros H Hm Hp.
  destruct m as [name e| | |k name c|k name c|k|i|c]; try done.
    + unfold step, Dispatch_enter, Lock in H. destruct (fatal (world s)); [done|].
      destruct (mu (disp (world s))); simpl in H; [done|]. injection H as <-. simpl.
      destruct (ensure_pchans_frame name (set_disp (set_mu true (disp (world s))) (world s)))
        as (_&_&_&_&_&Ep&_).
      by rewrite Ep.
    + unfold step, Dispatch_step in H. destruct (fatal (world s)); [done|].
      destruct (dispatching s) as [f|]; simpl in H; [|done].
      by destruct (df_rest f) as [|l rest]; injection H as <-.
    + unfold step, Resume_enter in H. destruct (fatal (world s)); [done|].
      rewrite Hp in H. simpl in H. by injection H as <-.
    + unfold step, Resume_try in H. destruct (fatal (world s)); [done|].
      destruct (frame k s) as [f|]; simpl in H; [|done].
      destruct (bool_decide _); [|done]. injection H as <-. simpl.
      by destruct (select_send_frame (arriving s) c (world s)) as (-> & _).
    + unfold step, Resume_new in H. destruct (fatal (world s)); [done|].
      destruct (frame k s) as [f|]; simpl in H; [|done].
      destruct (bool_decide _); [|done]. injection H as <-. simpl.
      by destruct (select_send_frame (arriving s) c (world s)) as (-> & _).
    + unfold step, park in H. destruct (fatal (world s)); [done|].
      destruct (bool_decide _); [|done]. by injection H as <-.
    + assert (Hex : ∀ w', exec c (world s) = Some w' → is_dispatch c = false →
                          is_resume c = false → paused (disp w') = true).
      { intros w' E H1 H2. destruct (exec_paused _ _ _ H1 H2 E) as [->|[_ ->]]; done. }
      unfold step in H. destruct (fatal (world s)) eqn:Hf; [done|].
      destruct c as [ev l|ev l|name e| | |ev| |i]; simpl in H; try done.
      all: try (destruct (exec _ (world s)) as [w'|] eqn:E; simpl in H; [|done];
                injection H as <-; by eapply Hex).
      unfold go_step in H.
      destruct (executeListener i (world s)) as [w'|] eqn:E; simpl in H; [|done].
      injection H as <-. simpl. apply (Hex w'); [|done|done].
      unfold exec. by rewrite Hf.
Qed.

Lemma steps_flag ms s s' :
  Forall (λ m, returns_resume m = false) ms → steps ms s = Some s' →
  paused (disp (world s)) = true → paused (disp (world s')) = true.
Proof.
  revert s. induction ms as [|m ms IH]; intros s Hms; simpl.
  - by intros [= <-].
  - inversion Hms as [|? ? Hm Hms']; subst.
    destruct (step m s) as [s1|] eqn:E; simpl; [|done]. intros Hrun Hp.
    apply (IH s1); [done|done|]. by eapply step_flag.
Qed.

(** The send of a [Resume] reaches a goroutine blocked in its receive on
    the channel, or is dropped. *)
Lemma select_send_sent_or_dropped c s s' :
  world s' = select_send (arriving s) c (world s) → sent_or_dropped c s s'.
Proof.
  intros Hw.
  destruct (select_send_cases (arriving s) c (world s))
    as [(i & g & Hg & Hpc & Hp & Hi & E)|[Hall E]]; rewrite E in Hw.
  - left. exists i, g. split; [by exists g|]. split; [done|].
    rewrite Hw. unfold update_pc. by rewrite (alter_as_insert _ _ _ g).
  - right. split; [|done]. intros i (g & Hg & Hpc & Hp & Hi).
    apply Hi. by eapply Hall.
Qed.

Lemma frame_Some k s f : frame k s = Some f ↔ resuming s !! k = Some (Some f).
Proof. unfold frame. destruct (resuming s !! k) as [[f'|]|]; simpl; split; congruence. Qed.

(** What a move does to the calls of [Resume] under way. *)
Lemma step_resuming m s s' :
  step m s = Some s' →
  match m with
  | ResumeEnter =>
      resuming s' = resuming s ∨ ∃ f, resuming s' = resuming s ++ [Some f]
  | ResumeTry k name c =>
      ∃ f, frame k s = Some f ∧ (name, c) ∈ rf_todo f
           ∧ c ∈ pchans (disp (world s)) !!! name
           ∧ resuming s'
             = <[k := Some {| rf_todo := filter (λ x, x ≠ (name, c)) (rf_todo f);
                              rf_seen := rf_seen f |}]> (resuming s)
  | ResumeNew k name c =>
      ∃ f, frame k s = Some f
           ∧ resuming s'
             = <[k := Some {| rf_todo := rf_todo f;
                              rf_seen := (name, c) :: rf_seen f |}]> (resuming s)
  | ResumeReturn k =>
      ∃ f, frame k s = Some f ∧ Forall (gone (disp (world s))) (rf_todo f)
           ∧ resuming s' = <[k := None]> (resuming s)
  | _ => resuming s' = resuming s
  end.
Proof.
  unfold step. destruct (fatal (world s)); [done|].
  destruct m as [name e| | |k name c|k name c|k|i|c].
  - unfold Dispatch_enter. destruct (Lock (world s)); simpl; [|done]. by intros [= <-].
  - unfold Dispatch_step. destruct (dispatching s) as [f|]; simpl; [|done].
    by destruct (df_rest f); intros [= <-].
  - unfold Resume_enter. destruct (negb (paused (disp (world s)))); intros [= <-].
    + by left.
    + right. by eexists.
  - unfold Resume_try. destruct (frame k s) as [f|]; simpl; [|done].
    destruct (bool_decide _) eqn:E; [|done]. intros [= <-].
    apply bool_decide_eq_true in E as [E1 E2]. by exists f.
  - unfold Resume_new. destruct (frame k s) as [f|]; simpl; [|done].
    destruct (bool_decide _); [|done]. intros [= <-]. by exists f.
  - unfold Resume_return. destruct (frame k s) as [f|]; simpl; [|done].
    destruct (bool_decide _) eqn:E; [|done]. intros [= <-].
    apply bool_decide_eq_true in E. by exists f.
  - unfold park. destruct (bool_decide _); [|done]. by intros [= <-].
  - destruct c as [ev l|ev l|name e| | |ev| |i]; simpl; try done.
    all: try (destruct (exec _ (world s)) as [w'|]; simpl; [|done]; by intros [= <-]).
    unfold go_step. destruct (executeListener i (world s)) as [w'|]; simpl; [|done].
    by intros [= <-].
Qed.

Lemma resume_progress_mono k ts s1 ms m s s' :
  resume_progress k ts s1 ms s →
  fmap rf_todo <$> resuming s' !! k = fmap rf_todo <$> resuming s !! k →
  m ≠ ResumeReturn k →
  resume_progress k ts s1 (ms ++ [m]) s'.
Proof.
  unfold resume_progress. intros Hpr Heq Hm.
  destruct (resuming s !! k) as [[f|]|]; [| |done];
    destruct (resuming s' !! k) as [[f'|]|]; simpl in Heq; try done.
  - injection Heq as Heq. rewrite Heq.
    destruct Hpr as (Hnd & Hsub & Hcov & Hnot).
    split; [done|]. split; [done|]. split.
    + intros name c Hin. destruct (Hcov _ _ Hin) as [?|?]; [by left|].
      right. apply elem_of_app. by left.
    + intros Hin. apply elem_of_app in Hin as [?|Hin]; [done|].
      apply list_elem_of_singleton in Hin. done.
  - destruct Hpr as (ms1 & ms2 & sr & -> & Hsr & Hnot & Hall).
    exists ms1, (ms2 ++ [m]), sr. by rewrite <- app_assoc.
Qed.

Lemma resume_progress_step k ts s1 ms m s s' :
  steps ms s1 = Some s →
  resume_progress k ts s1 ms s → step m s = Some s' →
  resume_progress k ts s1 (ms ++ [m]) s'.
Proof.
  intros Hrun Hpr H. pose proof (step_resuming _ _ _ H) as Hr.
  assert (Hslot : is_Some (resuming s !! k)).
  { unfold resume_progress in Hpr. destruct (resuming s !! k); [eauto|done]. }
  destruct m as [name e| | |k' name c|k' name c|k'|i|c];
    try (apply (resume_progress_mono _ _ _ _ _ s); [done|by rewrite Hr|done]).
  - destruct Hr as [Hr|[f Hr]]; apply (resume_progress_mono _ _ _ _ _ s); try done.
    + by rewrite Hr.
    + rewrite Hr. by rewrite lookup_app_l by (by apply lookup_lt_is_Some).
  - destruct Hr as (f & Hf & Hin & _ & Hr). apply frame_Some in Hf.
    destruct (decide (k' = k)) as [->|Hne].
    + unfold resume_progress in *. rewrite Hf in Hpr. rewrite Hr.
      rewrite list_lookup_insert_eq by (by apply lookup_lt_is_Some). simpl.
      destruct Hpr as (Hnd & Hsub & Hcov & Hnot).
      split; [by apply NoDup_filter|]. split.
      { intros n0 c0 H0. apply list_elem_of_filter in H0 as [_ H0]. by apply Hsub. }
      split.
      { intros n0 c0 H0. destruct (decide ((n0, c0) = (name, c))) as [[= -> ->]|Hd].
        - right. apply elem_of_app. right. by apply list_elem_of_singleton.
        - destruct (Hcov _ _ H0) as [H1|H1].
          + left. by apply list_elem_of_filter.
          + right. apply elem_of_app. by left. }
      intros H0. apply elem_of_app in H0 as [?|H0]; [done|].
      by apply list_elem_of_singleton in H0.
    + apply (resume_progress_mono _ _ _ _ _ s); [done| |done].
      rewrite Hr. by rewrite list_lookup_insert_ne.
  - destruct Hr as (f & Hf & Hr). apply frame_Some in Hf.
    apply (resume_progress_mono _ _ _ _ _ s); [done| |done]. rewrite Hr.
    destruct (decide (k' = k)) as [->|Hne].
    + rewrite list_lookup_insert_eq by (by apply lookup_lt_is_Some). by rewrite Hf.
    + by rewrite list_lookup_insert_ne.
  - destruct Hr as (f & Hf & Hgone & Hr). apply frame_Some in Hf.
    destruct (decide (k' = k)) as [->|Hne].
    + unfold resume_progress in *. rewrite Hf in Hpr. rewrite Hr.
      rewrite list_lookup_insert_eq by (by apply lookup_lt_is_Some).
      destruct Hpr as (Hnd & Hsub & Hcov & Hnot).
      exists ms, [], s. split; [done|]. split; [done|]. split; [done|].
      intros n0 c0 H0. destruct (Hcov _ _ H0) as [H1|H1]; [|by left].
      right. rewrite Forall_forall in Hgone. by apply Hgone.
    + apply (resume_progress_mono _ _ _ _ _ s); [done| |congruence].
      rewrite Hr. by rewrite list_lookup_insert_ne.
Qed.

Lemma resume_progress_steps k ts s1 ms0 ms s s' :
  steps ms0 s1 = Some s →
  resume_progress k ts s1 ms0 s → steps ms s = Some s' →
  resume_progress k ts s1 (ms0 ++ ms) s'.
Proof.
  revert ms0 s. induction ms as [|m ms IH]; intros ms0 s Hrun0 Hpr; simpl.
  - intros [= <-]. by rewrite app_nil_r.
  - destruct (step m s) as [s2|] eqn:E; simpl; [|done]. intros Hrun.
    replace (ms0 ++ m :: ms) with ((ms0 ++ [m]) ++ ms) by (by rewrite <- app_assoc).
    apply (IH _ s2); [|by eapply resume_progress_step|done].
    apply steps_snoc. eauto.
Qed.

(** C4, as stated, fails for the pause channel of a goroutine that returns
    while [Resume] is under way.  The goroutine deletes its channel from the
    map (line 94), and a range over a map does not produce an entry deleted
    before it is reached.  Here the channel 0 is recorded when [Resume] is
    called; the goroutine, which was past its pause check, runs to its
    return; and [Resume] returns, the flag cleared, without a send on the
    channel 0, which it could not have tried any more. *)
Lemma Resume_skips_deleted_pchan :
  attainable s_paused_running
  ∧ paused (disp (world s_paused_running)) = true
  ∧ resume_targets (disp (world s_paused_running)) = [("e", 0)]
  ∧ (λ s, (g_pc <$> pool (world s), paused (disp (world s)), resuming s))
      <$> steps [ResumeEnter; Elsewhere (GoStep 0); Elsewhere (GoStep 0);
                 Elsewhere (GoStep 0); ResumeReturn 0] s_paused_running
    = Some ([Returned], false, [None])
  ∧ steps [ResumeEnter; Elsewhere (GoStep 0); Elsewhere (GoStep 0);
           Elsewhere (GoStep 0); ResumeTry 0 "e" 0] s_paused_running = None.
Proof.
  split.
  { exists [Elsewhere (CListenerFunc "e" (Func 0)); DispatchEnter "e" ev0;
            DispatchStep; DispatchStep; Elsewhere (GoStep 0); Elsewhere CPause].
    vm_compute. reflexivity. }
  vm_compute. repeat split.
Qed.

(** C4, amended.  A call of [Resume] on a paused dispatcher, followed step
    by step through whatever the goroutines, the other callers and other
    calls of [Resume] do meanwhile.  Its entry changes nothing and fixes
    the entries its loops range over: the pause channels recorded at that
    moment, for every event, each once.  As long as the call is under way,
    each of them has been the object of a send or is still to be reached.
    The send on one that is still recorded is never held up and leaves the
    dispatcher as it is: a goroutine blocked in its receive on that channel
    is released, or there is none and the world is as before, the value
    kept nowhere.  On a channel that is no longer recorded no send is
    tried.  The call can return exactly when all it has still to reach is
    gone from the maps, its return is what clears the flag, and until some
    [Resume] returns the flag is set.  Once it has returned, each of those
    channels was tried before, or was gone by then, deleted by its
    goroutine, which had returned. *)
Theorem Resume_signals_every_pchan (s0 : Process) :
  attainable s0 →
  paused (disp (world s0)) = true →
  fatal (world s0) = None →
  let k := length (resuming s0) in
  let ts := resume_targets (disp (world s0)) in
  ∃ s1,
    step ResumeEnter s0 = Some s1
    ∧ world s1 = world s0
    ∧ NoDup ts
    ∧ (∀ name c, (name, c) ∈ ts ↔ c ∈ pchans (disp (world s0)) !!! name)
    ∧ ∀ ms s, steps ms s1 = Some s →
        match resuming s !! k with
        | Some (Some f) =>
            (∀ name c, (name, c) ∈ ts → (name, c) ∈ rf_todo f ∨ ResumeTry k name c ∈ ms)
            ∧ (Forall (λ m, returns_resume m = false) ms →
               paused (disp (world s)) = true)
            ∧ (∀ name c, (name, c) ∈ rf_todo f →
                 c ∈ pchans (disp (world s)) !!! name → fatal (world s) = None →
                 ∃ s', step (ResumeTry k name c) s = Some s'
                       ∧ disp (world s') = disp (world s)
                       ∧ sent_or_dropped c s s')
            ∧ (∀ name c, c ∉ pchans (disp (world s)) !!! name →
                 step (ResumeTry k name c) s = None)
            ∧ (is_Some (step (ResumeReturn k) s)
               ↔ Forall (gone (disp (world s))) (rf_todo f) ∧ fatal (world s) = None)
            ∧ (∀ s', step (ResumeReturn k) s = Some s' →
                 world s' = set_disp (set_paused false (disp (world s))) (world s))
        | Some None =>
            ∃ ms1 ms2 sr,
              ms = ms1 ++ ResumeReturn k :: ms2
              ∧ steps ms1 s1 = Some sr
              ∧ ResumeReturn k ∉ ms1
              ∧ ∀ name c, (name, c) ∈ ts →
                  ResumeTry k name c ∈ ms1
                  ∨ (c ∉ pchans (disp (world sr)) !!! name
                     ∧ ∀ g, g ∈ pool (world sr) → g_name g = name → g_p g = c →
                            g_pc g = Returned)
        | None => False
        end.
Proof.
  intros Ha Hp Hf k ts.
  set (f0 := {| rf_todo := ts; rf_seen := ts |}).
  set (s1 := set_resuming (resuming s0 ++ [Some f0]) s0).
  exists s1.
  assert (Hnd : NoDup ts) by apply resume_targets_NoDup.
  assert (H1 : step ResumeEnter s0 = Some s1).
  { unfold step, Resume_enter. by rewrite Hf, Hp. }
  split; [done|].
  split; [done|]. split; [done|]. split; [intros name c; apply resume_targets_total|].
  intros ms s Hrun.
  assert (Hpr1 : resume_progress k ts s1 [] s1).
  { unfold resume_progress. simpl. rewrite lookup_app_r by (subst k; lia).
    subst k. rewrite Nat.sub_diag. simpl.
    split; [done|]. split; [done|]. split; [by left|]. apply not_elem_of_nil. }
  pose proof (resume_progress_steps k ts s1 [] ms s1 s eq_refl Hpr1 Hrun) as Hpr.
  rewrite app_nil_l in Hpr. unfold resume_progress in Hpr.
  destruct (resuming s !! k) as [[f|]|] eqn:Hk; [| |done].
  - destruct Hpr as (Hndf & Hsub & Hcov & Hnot).
    split; [done|]. split.
    { intros Hms. by apply (steps_flag ms _ s Hms Hrun). }
    split.
    { intros name c Hin Hrec Hfs. unfold step, Resume_try, frame. rewrite Hfs, Hk. simpl.
      rewrite bool_decide_eq_true_2 by done. eexists. split; [done|]. simpl.
      split; [by destruct (select_send_frame (arriving s) c (world s)) as (-> & _)|].
      by apply select_send_sent_or_dropped. }
    split.
    { intros name c Hgone. unfold step, Resume_try, frame. rewrite Hk. simpl.
      destruct (fatal (world s)); [done|].
      rewrite bool_decide_eq_false_2; [done|]. by intros [_ ?]. }
    split.
    { unfold step, Resume_return, frame. rewrite Hk. simpl.
      destruct (fatal (world s)).
      - split; [by intros [? ?]|]. by intros [_ ?].
      - destruct (bool_decide _) eqn:E.
        + apply bool_decide_eq_true in E. split; [done|]. eauto.
        + apply bool_decide_eq_false in E.
          split; [by intros [? ?]|]. by intros [? _]. }
    intros s'. unfold step, Resume_return, frame. rewrite Hk. simpl.
    destruct (fatal (world s)); [done|]. destruct (bool_decide _); [|done].
    by intros [= <-].
  - destruct Hpr as (ms1 & ms2 & sr & -> & Hsr & Hnot & Hall).
    exists ms1, ms2, sr. split; [done|]. split; [done|]. split; [done|].
    assert (Hsane : sane sr).
    { eapply sane_steps; [|exact Hsr]. eapply sane_step; [|exact H1].
      by apply sane_attainable. }
    destruct Hsane as [_ (_ & _ & Hgates)]. rewrite Forall_forall in Hgates.
    intros name c Hin. destruct (Hall _ _ Hin) as [?|Hgone]; [by left|].
    right. unfold gone in Hgone. simpl in Hgone. split; [done|].
    intros g Hg Hn Hc. destruct (decide (g_pc g = Returned)) as [|Hne]; [done|].
    exfalso. apply Hgone. rewrite <- Hn, <- Hc. by apply Hgates.
Qed.

Lemma Resume_signals_every_pchan_witness :
  attainable s_paused_parked
  ∧ paused (disp (world s_paused_parked)) = true
  ∧ fatal (world s_paused_parked) = None
  ∧ ∃ s1, step ResumeEnter s_paused_parked = Some s1
          ∧ world s1 = world s_paused_parked.
Proof.
  assert (Ha : attainable s_paused_parked).
  { exists [Elsewhere (CListenerFunc "e" (Func 1)); Elsewhere CPause;
            DispatchEnter "e" ev0; DispatchStep; DispatchStep;
            Elsewhere (GoStep 0); Park 0].
    vm_compute. reflexivity. }
  split; [exact Ha|]. split; [reflexivity|]. split; [reflexivity|].
  destruct (Resume_signals_every_pchan s_paused_parked Ha eq_refl eq_refl)
    as (s1 & H1 & H2 & _).
  exists s1. split; [exact H1|exact H2].
Defined.

(** The send is dropped, not queued, and the flag is cleared only at the
    end.  With one goroutine launched while the dispatcher is paused: if it
    is blocked in its receive when [Resume] sends, it is released; if it
    reads the flag after the send on its channel, while [Resume] has still
    to return, it finds the flag set and blocks, and stays blocked with the
    flag clear; and so it does if it had read the flag before the send,
    and had not blocked in its receive yet. *)
Example Resume_send_dropped_not_queued :
  let view (s : Process) :=
    (g_pc <$> pool (world s), paused (disp (world s)), elements (arriving s)) in
  view <$> steps [ResumeEnter; ResumeTry 0 "e" 0; ResumeReturn 0] s_paused_parked
  = Some ([AtSwitch], false, [])
  ∧ view <$> steps [ResumeEnter; ResumeTry 0 "e" 0] s_paused_launched
    = Some ([AtPauseCheck], true, [])
  ∧ view <$> steps [ResumeEnter; ResumeTry 0 "e" 0; Elsewhere (GoStep 0); Park 0;
                    ResumeReturn 0] s_paused_launched
    = Some ([AtRecvP], false, [])
  ∧ view <$> steps [Elsewhere (GoStep 0); ResumeEnter; ResumeTry 0 "e" 0; Park 0;
                    ResumeReturn 0] s_paused_launched
    = Some ([AtRecvP], false, [])
  ∧ steps [ResumeEnter; ResumeReturn 0] s_paused_launched = None.
Proof. vm_compute. repeat split. Qed.

(** ** A dispatcher that is not paused *)

Lemma Resume_not_paused_noop_world w : paused (disp w) = false → (Resume w).1 = w.
Proof. intros Hp. unfold Resume. by rewrite Hp. Qed.

Lemma unpaused_step c w w' :
  is_pause c = false → paused (disp w) = false → exec c w = Some w' →
  paused (disp w') = false
  ∧ ∀ i g', pool w' !! i = Some g' → g_pc g' = AtRecvP →
      ∃ g, pool w !! i = Some g ∧ g_pc g = AtRecvP.
Proof.
  intros Hc Hp. unfold exec. destruct (fatal w); [done|].
  destruct c as [ev l|ev l|name e| | |ev| |j]; simpl; intros H; try done.
  - injection H as <-. split; [done|]. eauto.
  - injection H as <-. split; [done|]. eauto.
  - destruct (Dispatch_inv _ _ _ _ H) as (_ & Hpool & _ & _ & _ & _ & Hpa & _).
    split; [by rewrite Hpa|]. intros i g' Hg' Hpc'. rewrite Hpool in Hg'.
    apply lookup_app_Some in Hg' as [Hg'|[_ Hg']]; [eauto|].
    apply list_elem_of_lookup_2 in Hg'.
    pose proof (spawned_shape name e (fresh w) (listeners (disp w) !!! name)) as Hs.
    rewrite Forall_forall in Hs. destruct (Hs _ Hg') as (_ & _ & Hpc & _). congruence.
  - injection H as <-. rewrite (Resume_not_paused_noop_world w Hp). eauto.
  - unfold Wait, Lock in H. destruct (mu (disp w)); simpl in H; [done|].
    injection H as <-. split; [done|]. eauto.
  - destruct (Wait_step_disp _ _ H) as (_ & _ & Hpa & _). split; [by rewrite Hpa|].
    unfold Wait_step in H. destruct (waiting w) as [f|] eqn:Hf; simpl in H; [|done].
    destruct (decide (w_i f < w_len f)) as [Hlt|Hlt].
    + destruct ((qchans (disp w) !!! w_event f) !! w_i f) as [[c|]|] eqn:Hq.
      * destruct (recv c (pool w)) as [gs|] eqn:Hr; simpl in H; [|done].
        injection H as <-. simpl.
        destruct (recv_first _ _ _ Hr) as (k & g0 & n & Hk & _ & Hpc0 & ->).
        intros i g' Hg' Hpc'. destruct (decide (i = k)) as [->|Hne].
        -- rewrite list_lookup_insert_eq in Hg' by (by eapply lookup_lt_Some).
           injection Hg' as <-. done.
        -- rewrite list_lookup_insert_ne in Hg' by done. eauto.
      * injection H as <-. eauto.
      * injection H as <-. eauto.
    + injection H as <-. eauto.
  - destruct (executeListener_disp _ _ _ H) as (_ & _ & _ & Hpa & _).
    split; [by rewrite Hpa|].
    destruct (executeListener_moves _ _ _ H) as (g & Hg & [->|(s & -> & Hs)]); [eauto|].
    intros i g' Hg' Hpc'. destruct (decide (i = j)) as [->|Hne].
    + rewrite list_lookup_alter_eq, Hg in Hg'. injection Hg' as <-. simpl in Hpc'.
      destruct Hs as [[_ ->]|[_ Hpast]].
      * by rewrite Hp in Hpc'.
      * by rewrite Hpc' in Hpast.
    + rewrite list_lookup_alter_ne in Hg' by done. eauto.
Qed.

(** A call other than [Resume] leaves a goroutine that is at its receive
    on the pause channel where it is. *)
Lemma exec_keeps_parked c w w' i g :
  is_resume c = false → exec c w = Some w' →
  pool w !! i = Some g → g_pc g = AtRecvP → pool w' !! i = Some g.
Proof.
  intros Hc. unfold exec. destruct (fatal w); [done|].
  destruct c as [ev l|ev l|name e| | |ev| |j]; simpl; intros H Hg Hpc; try done.
  - by injection H as <-.
  - by injection H as <-.
  - destruct (Dispatch_inv _ _ _ _ H) as (_ & Hpool & _). rewrite Hpool.
    by apply lookup_app_l_Some.
  - by injection H as <-.
  - unfold Wait, Lock in H. destruct (mu (disp w)); simpl in H; [done|].
    by injection H as <-.
  - unfold Wait_step in H. destruct (waiting w) as [f|] eqn:Hf; simpl in H; [|done].
    destruct (decide (w_i f < w_len f)) as [Hlt|Hlt].
    + destruct ((qchans (disp w) !!! w_event f) !! w_i f) as [[c|]|] eqn:Hq.
      * destruct (recv c (pool w)) as [gs|] eqn:Hr; simpl in H; [|done].
        injection H as <-. simpl.
        destruct (recv_first _ _ _ Hr) as (k & g0 & n & Hk & _ & Hpc0 & ->).
        rewrite list_lookup_insert_ne; [done|]. intros ->. congruence.
      * by injection H as <-.
      * by injection H as <-.
    + by injection H as <-.
  - destruct (executeListener_moves _ _ _ H) as (g0 & Hg0 & [->|(s & -> & Hs)]); [done|].
    rewrite list_lookup_alter_ne; [done|]. intros ->.
    rewrite Hg in Hg0. injection Hg0 as <-. rewrite Hpc in Hs.
    by destruct Hs as [[? _]|[? _]].
Qed.

Lemma select_send_parks_nobody a c w i g' :
  pool (select_send a c w) !! i = Some g' → g_pc g' = AtRecvP → pool w !! i = Some g'.
Proof.
  destruct (select_send_cases a c w) as [(j & g & Hg & Hpc & _ & _ & ->)|[_ ->]]; [|done].
  simpl. intros Hg' Hpc'. destruct (decide (i = j)) as [->|Hne].
  - rewrite list_lookup_alter_eq, Hg in Hg'. injection Hg' as <-. done.
  - by rewrite list_lookup_alter_ne in Hg'.
Qed.

Lemma unpaused_process_step m s s' :
  pauses m = false → paused (disp (world s)) = false → step m s = Some s' →
  paused (disp (world s')) = false
  ∧ (∀ i g', pool (world s') !! i = Some g' → g_pc g' = AtRecvP →
       ∃ g, pool (world s) !! i = Some g ∧ g_pc g = AtRecvP)
  ∧ arriving s' ⊆ arriving s.
Proof.
  intros Hm Hp H. unfold step in H. destruct (fatal (world s)) eqn:Hf; [done|].
  destruct m as [name e| | |k name c|k name c|k|i|c].
  - unfold Dispatch_enter, Lock in H.
    destruct (mu (disp (world s))); simpl in H; [done|]. injection H as <-. simpl.
    destruct (ensure_pchans_frame name (set_disp (set_mu true (disp (world s))) (world s)))
      as (Ep&_&_&_&_&Epa&_).
    rewrite Ep, Epa. simpl. split; [done|]. split; [eauto|done].
  - unfold Dispatch_step in H. destruct (dispatching s) as [f|]; simpl in H; [|done].
    destruct (df_rest f) as [|l rest]; injection H as <-; simpl.
    + split; [done|]. split; [eauto|done].
    + split; [done|]. split; [|done]. intros i g' Hg' Hpc'.
      apply lookup_app_Some in Hg' as [Hg'|[_ Hg']]; [eauto|].
      apply list_elem_of_lookup_2, list_elem_of_singleton in Hg'. by subst g'.
  - unfold Resume_enter in H. rewrite Hp in H. simpl in H. injection H as <-.
    split; [done|]. split; [eauto|done].
  - unfold Resume_try in H. destruct (frame k s) as [f|]; simpl in H; [|done].
    destruct (bool_decide _); [|done]. injection H as <-. simpl.
    split; [by destruct (select_send_frame (arriving s) c (world s)) as (-> & _)|].
    split; [|done]. intros i g' Hg' Hpc'. exists g'. split; [|done].
    by eapply select_send_parks_nobody.
  - unfold Resume_new in H. destruct (frame k s) as [f|]; simpl in H; [|done].
    destruct (bool_decide _); [|done]. injection H as <-. simpl.
    split; [by destruct (select_send_frame (arriving s) c (world s)) as (-> & _)|].
    split; [|done]. intros i g' Hg' Hpc'. exists g'. split; [|done].
    by eapply select_send_parks_nobody.
  - unfold Resume_return in H. destruct (frame k s) as [f|]; simpl in H; [|done].
    destruct (bool_decide _); [|done]. injection H as <-. simpl.
    split; [done|]. split; [eauto|done].
  - unfold park in H. destruct (bool_decide _); [|done]. injection H as <-. simpl.
    split; [done|]. split; [eauto|set_solver].
  - assert (Hex : ∀ w', exec c (world s) = Some w' →
              paused (disp w') = false
              ∧ ∀ i g', pool w' !! i = Some g' → g_pc g' = AtRecvP →
                  ∃ g, pool (world s) !! i = Some g ∧ g_pc g = AtRecvP).
    { intros w' E. apply (unpaused_step c); [|done|done]. by destruct c. }
    destruct c as [ev l|ev l|name e| | |ev| |i]; simpl in H; try done.
    all: try (destruct (exec _ (world s)) as [w'|] eqn:E; simpl in H; [|done];
              injection H as <-; simpl; destruct (Hex _ eq_refl) as [? ?];
              split; [done|split; [done|set_solver]]).
    unfold go_step in H.
    destruct (executeListener i (world s)) as [w'|] eqn:E; simpl in H; [|done].
    injection H as <-. simpl. destruct (Hex w') as [H1 H2].
    { unfold exec. by rewrite Hf. }
    split; [done|]. split; [done|].
    unfold reads_paused. rewrite Hp. by rewrite andb_false_r.
Qed.

Lemma parked_stays_step m s s' i g :
  pauses m = false → paused (disp (world s)) = false →
  Forall (λ f, f = None) (resuming s) →
  step m s = Some s' → pool (world s) !! i = Some g → g_pc g = AtRecvP →
  Forall (λ f, f = None) (resuming s') ∧ pool (world s') !! i = Some g.
Proof.
  intros Hm Hp Hrs H Hg Hpc.
  assert (Hno : ∀ k, frame k s = None).
  { intros k. destruct (frame k s) as [f|] eqn:E; [|done].
    apply frame_Some in E. apply list_elem_of_lookup_2 in E.
    rewrite Forall_forall in Hrs. by specialize (Hrs _ E). }
  unfold step in H. destruct (fatal (world s)) eqn:Hf; [done|].
  destruct m as [name e| | |k name c|k name c|k|j|c].
  - unfold Dispatch_enter, Lock in H.
    destruct (mu (disp (world s))); simpl in H; [done|]. injection H as <-. simpl.
    destruct (ensure_pchans_frame name (set_disp (set_mu true (disp (world s))) (world s)))
      as (Ep&_).
    by rewrite Ep.
  - unfold Dispatch_step in H. destruct (dispatching s) as [f|]; simpl in H; [|done].
    destruct (df_rest f) as [|l rest]; injection H as <-; simpl; [done|].
    split; [done|]. by apply lookup_app_l_Some.
  - unfold Resume_enter in H. rewrite Hp in H. simpl in H. by injection H as <-.
  - unfold Resume_try in H. by rewrite Hno in H.
  - unfold Resume_new in H. by rewrite Hno in H.
  - unfold Resume_return in H. by rewrite Hno in H.
  - unfold park in H. destruct (bool_decide _); [|done]. by injection H as <-.
  - assert (Hex : ∀ w', exec c (world s) = Some w' → is_resume c = false →
                        pool w' !! i = Some g).
    { intros w' E Hc. by eapply exec_keeps_parked. }
    destruct c as [ev l|ev l|name e| | |ev| |j]; simpl in H; try done.
    all: try (destruct (exec _ (world s)) as [w'|] eqn:E; simpl in H; [|done];
              injection H as <-; simpl; split; [done|]; by apply Hex).
    unfold go_step in H.
    destruct (executeListener j (world s)) as [w'|] eqn:E; simpl in H; [|done].
    injection H as <-. simpl. split; [done|]. apply Hex; [|done].
    unfold exec. by rewrite Hf.
Qed.

(** X14. While the dispatcher is not paused and until [Pause] is called,
    the flag stays clear and no goroutine finds it set: the goroutines that
    are at the receive on their pause channel afterwards, blocked in it or
    on their way to it, were there before.  And with no [Resume] under way
    they stay there, whatever else happens: a goroutine that has missed
    the send on its channel is blocked until the dispatcher is paused and
    resumed again. *)
Theorem flag_clear_parks_nobody (ms : list move) (s s' : Process) :
  paused (disp (world s)) = false →
  Forall (λ m, pauses m = false) ms →
  steps ms s = Some s' →
  paused (disp (world s')) = false
  ∧ (∀ i g', pool (world s') !! i = Some g' → g_pc g' = AtRecvP →
       ∃ g, pool (world s) !! i = Some g ∧ g_pc g = AtRecvP)
  ∧ arriving s' ⊆ arriving s
  ∧ (Forall (λ f, f = None) (resuming s) →
     ∀ i g, pool (world s) !! i = Some g → g_pc g = AtRecvP →
            pool (world s') !! i = Some g).
Proof.
  intros Hp Hms. revert s Hp. induction Hms as [|m ms Hm Hms IH]; intros s Hp; simpl.
  - intros [= <-]. split; [done|]. split; [eauto|]. split; [done|]. auto.
  - destruct (step m s) as [s1|] eqn:E; simpl; [|done]. intros Hrun.
    destruct (unpaused_process_step _ _ _ Hm Hp E) as (Hp1 & Hpark1 & Harr1).
    destruct (IH _ Hp1 Hrun) as (Hp' & Hpark' & Harr' & Hstay').
    split; [done|]. split.
    { intros i g' Hg' Hpc'. destruct (Hpark' _ _ Hg' Hpc') as (g1 & Hg1 & Hpc1). eauto. }
    split; [set_solver|].
    intros Hrs i g Hg Hpc.
    destruct (parked_stays_step _ _ _ _ _ Hm Hp Hrs E Hg Hpc) as [Hrs1 Hg1]. eauto.
Qed.

Lemma flag_clear_parks_nobody_witness :
  paused (disp (world s_left_behind)) = false
  ∧ Forall (λ m, pauses m = false)
           [ResumeEnter; Elsewhere (CListenerFunc "e" (Func 0)); Elsewhere (CWait "e")]
  ∧ steps [ResumeEnter; Elsewhere (CListenerFunc "e" (Func 0)); Elsewhere (CWait "e")]
          s_left_behind = Some s_still_behind
  ∧ g_pc <$> pool (world s_left_behind) = [AtRecvP]
  ∧ paused (disp (world s_still_behind)) = false
  ∧ arriving s_still_behind ⊆ arriving s_left_behind.
Proof.
  assert (Hms : Forall (λ m, pauses m = false)
            [ResumeEnter; Elsewhere (CListenerFunc "e" (Func 0)); Elsewhere (CWait "e")]).
  { repeat constructor. }
  assert (E : steps [ResumeEnter; Elsewhere (CListenerFunc "e" (Func 0));
                     Elsewhere (CWait "e")] s_left_behind = Some s_still_behind).
  { vm_compute. reflexivity. }
  split; [reflexivity|]. split; [exact Hms|]. split; [exact E|].
  split; [vm_compute; reflexivity|].
  destruct (flag_clear_parks_nobody _ s_left_behind s_still_behind eq_refl Hms E)
    as (H1 & _ & H3 & _).
  split; [exact H1|exact H3].
Defined.

(** The goroutine left behind is still at its receive after those calls,
    and the [Wait] for its event is blocked with it. *)
Example left_behind_stays :
  g_pc <$> pool (world s_still_behind) = [AtRecvP]
  ∧ is_Some (waiting (world s_still_behind))
  ∧ step (Elsewhere WaitStep) s_still_behind = None
  ∧ step (Elsewhere (GoStep 0)) s_still_behind = None.
Proof. vm_compute. repeat split. eauto. Qed.

(** ** A paused dispatcher *)

Lemma no_frame k s : Forall (λ f, f = None) (resuming s) → frame k s = None.
Proof.
  intros Hrs. destruct (frame k s) as [f|] eqn:E; [|done].
  apply frame_Some in E. apply list_elem_of_lookup_2 in E.
  rewrite Forall_forall in Hrs. by specialize (Hrs _ E).
Qed.

Lemma paused_process_step m s s' :
  enters_resume m = false → paused (disp (world s)) = true →
  Forall (λ f, f = None) (resuming s) →
  step m s = Some s' →
  paused (disp (world s')) = true
  ∧ Forall (λ f, f = None) (resuming s')
  ∧ ∀ i g', pool (world s') !! i = Some g' → past_check (g_pc g') = true →
      ∃ g, pool (world s) !! i = Some g ∧ past_check (g_pc g) = true.
Proof.
  intros Hm Hp Hrs H.
  assert (Hno : ∀ k, frame k s = None) by (intros k; by apply no_frame).
  unfold step in H. destruct (fatal (world s)) eqn:Hf; [done|].
  destruct m as [name e| | |k name c|k name c|k|j|c]; try done.
  - unfold Dispatch_enter, Lock in H.
    destruct (mu (disp (world s))); simpl in H; [done|]. injection H as <-. simpl.
    destruct (ensure_pchans_frame name (set_disp (set_mu true (disp (world s))) (world s)))
      as (Ep&_&_&_&_&Epa&_).
    rewrite Ep, Epa. simpl. split; [done|]. split; [done|]. eauto.
  - unfold Dispatch_step in H. destruct (dispatching s) as [f|]; simpl in H; [|done].
    destruct (df_rest f) as [|l rest]; injection H as <-; simpl.
    + split; [done|]. split; [done|]. eauto.
    + split; [done|]. split; [done|]. intros i g' Hg' Hpast.
      apply lookup_app_Some in Hg' as [Hg'|[_ Hg']]; [eauto|].
      apply list_elem_of_lookup_2, list_elem_of_singleton in Hg'. by subst g'.
  - unfold Resume_try in H. by rewrite Hno in H.
  - unfold Resume_new in H. by rewrite Hno in H.
  - unfold Resume_return in H. by rewrite Hno in H.
  - unfold park in H. destruct (bool_decide _); [|done]. injection H as <-. simpl.
    split; [done|]. split; [done|]. eauto.
  - assert (Hex : ∀ w', exec c (world s) = Some w' → is_resume c = false →
              paused (disp w') = true
              ∧ ∀ i g', pool w' !! i = Some g' → past_check (g_pc g') = true →
                  ∃ g, pool (world s) !! i = Some g ∧ past_check (g_pc g) = true).
    { intros w' E Hc. by apply (paused_holds_step c). }
    destruct c as [ev l|ev l|name e| | |ev| |i]; simpl in H; try done.
    all: try (destruct (exec _ (world s)) as [w'|] eqn:E; simpl in H; [|done];
              injection H as <-; simpl; destruct (Hex _ eq_refl) as [? ?]; [done|];
              split; [done|split; [done|done]]).
    unfold go_step in H.
    destruct (executeListener i (world s)) as [w'|] eqn:E; simpl in H; [|done].
    injection H as <-. simpl. destruct (Hex w') as [H1 H2]; [|done|].
    { unfold exec. by rewrite Hf. }
    split; [done|]. split; [done|done].
Qed.

(** X7. While the dispatcher is paused, no [Resume] is under way and none
    is called, no goroutine gets past its pause check, whatever else
    happens, step by step (more calls of [Dispatch] included): the flag
    stays set, and the goroutines past the check afterwards are goroutines
    that were past it already.  Those go on as if nothing had happened; the
    others, and the ones launched meanwhile, do not reach the type
    switch. *)
Theorem paused_holds_goroutines (ms : list move) (s s' : Process) :
  paused (disp (world s)) = true →
  Forall (λ f, f = None) (resuming s) →
  Forall (λ m, enters_resume m = false) ms →
  steps ms s = Some s' →
  paused (disp (world s')) = true
  ∧ Forall (λ f, f = None) (resuming s')
  ∧ ∀ i g', pool (world s') !! i = Some g' → past_check (g_pc g') = true →
      ∃ g, pool (world s) !! i = Some g ∧ past_check (g_pc g) = true.
Proof.
  intros Hp Hrs Hms. revert s Hp Hrs.
  induction Hms as [|m ms Hm Hms IH]; intros s Hp Hrs; simpl.
  - intros [= <-]. split; [done|]. split; [done|]. eauto.
  - destruct (step m s) as [s1|] eqn:E; simpl; [|done]. intros Hrun.
    destruct (paused_process_step _ _ _ Hm Hp Hrs E) as (Hp1 & Hrs1 & H1).
    destruct (IH _ Hp1 Hrs1 Hrun) as (Hp' & Hrs' & H'). split; [done|]. split; [done|].
    intros i g' Hg' Hpast. destruct (H' _ _ Hg' Hpast) as (g1 & Hg1 & Hpast1). eauto.
Qed.

Lemma paused_holds_goroutines_witness :
  paused (disp (world s_paused_registered)) = true
  ∧ Forall (λ f, f = None) (resuming s_paused_registered)
  ∧ Forall (λ m, enters_resume m = false)
      [DispatchEnter "e" ev0; DispatchStep; Elsewhere (GoStep 0); DispatchStep;
       Park 0; Elsewhere (GoStep 1); DispatchStep]
  ∧ steps [DispatchEnter "e" ev0; DispatchStep; Elsewhere (GoStep 0); DispatchStep;
           Park 0; Elsewhere (GoStep 1); DispatchStep] s_paused_registered
    = Some s_paused_dispatched
  ∧ g_pc <$> pool (world s_paused_dispatched) = [AtRecvP; AtRecvP]
  ∧ paused (disp (world s_paused_dispatched)) = true.
Proof.
  assert (Hms : Forall (λ m, enters_resume m = false)
            [DispatchEnter "e" ev0; DispatchStep; Elsewhere (GoStep 0); DispatchStep;
             Park 0; Elsewhere (GoStep 1); DispatchStep]).
  { repeat constructor. }
  assert (E : steps [DispatchEnter "e" ev0; DispatchStep; Elsewhere (GoStep 0);
                     DispatchStep; Park 0; Elsewhere (GoStep 1); DispatchStep]
                    s_paused_registered = Some s_paused_dispatched).
  { vm_compute. reflexivity. }
  assert (Hrs : Forall (λ f, f = None) (resuming s_paused_registered)).
  { vm_compute. constructor. }
  split; [reflexivity|]. split; [exact Hrs|]. split; [exact Hms|]. split; [exact E|].
  split; [vm_compute; reflexivity|].
  exact (proj1 (paused_holds_goroutines _ s_paused_registered s_paused_dispatched
                  eq_refl Hrs Hms E)).
Defined.
